(** * The batching and feeding pipeline of [njunmt/data/text_inputter.py]

    A shallow embedding of the module's functions and classes
    ([do_bucketing], [pack_feed_dict], [TextLineInputter],
    [ParallelTextInputter] and its [_BigParallelDataIterator]) together with
    the properties of the pipeline: pairing of features and labels, the
    token-budget growth rule, the device partition, the epoch protocol and the
    configuration checks.

    Python objects are modelled by records, Python exceptions by the [exn]
    type, and methods that mutate [self] by a state-and-exception monad in
    which the state survives a raised exception, as the attributes of a Python
    object do. *)

From stdpp Require Import gmap strings list sorting pretty.

Local Open Scope string_scope.
Local Open Scope list_scope.
Local Open Scope Z_scope.

(** ** Exceptions and results *)

(** The exceptions the module can raise.  [Diverge] is not a Python exception:
    it marks a [while] loop of the source that does not finish (the bound
    given to the model's loop was used up). *)
Inductive exn : Set :=
  | StopIteration
  | ValueError
  | AssertionError
  | IndexError
  | KeyError
  | ZeroDivisionError
  | Diverge.

Global Instance exn_eq_dec : EqDecision exn.
Proof. solve_decision. Defined.

Inductive result (A : Type) : Type :=
  | Ok (a : A)
  | Raise (e : exn).
Global Arguments Ok {A} a.
Global Arguments Raise {A} e.

Global Instance result_ret : MRet result := λ A a, Ok a.
Global Instance result_bind : MBind result := λ A B f m,
  match m with
  | Ok a => f a
  | Raise e => Raise e
  end.
Global Instance result_fmap : FMap result := λ A B f m,
  match m with
  | Ok a => Ok (f a)
  | Raise e => Raise e
  end.

Definition is_Ok {A} (m : result A) : Prop := ∃ a, m = Ok a.

(** A method of an object with state [S]: it returns the state it leaves
    behind together with its value or the exception it raises. *)
Definition M (S A : Type) : Type := S → S * result A.

Definition ret {S A} (a : A) : M S A := λ s, (s, Ok a).
Definition raise {S A} (e : exn) : M S A := λ s, (s, Raise e).
Definition bind {S A B} (m : M S A) (k : A → M S B) : M S B := λ s,
  match m s with
  | (s', Ok a) => k a s'
  | (s', Raise e) => (s', Raise e)
  end.
Definition get {S} : M S S := λ s, (s, Ok s).
Definition modify {S} (f : S → S) : M S unit := λ s, (f s, Ok tt).
Definition lift {S A} (m : result A) : M S A := λ s, (s, m).
(** [when c m] is [if c: m]. *)
Definition when {S} (c : bool) (m : M S unit) : M S unit :=
  if c then m else ret tt.

Declare Scope method_scope.
Delimit Scope method_scope with method.
Notation "'do' x <- m1 ; m2" := (bind m1 (λ x, m2))
  (at level 10, x name, m1 at level 100, m2 at level 200,
   format "'[v' 'do'  x  <-  m1 ; '/' m2 ']'") : method_scope.
Notation "m1 ;; m2" := (bind m1 (λ _, m2))
  (at level 100, m2 at level 200, right associativity) : method_scope.

(** ** Python lists *)

(** A tokenised sentence: the list of its token ids. *)
Definition Sequence : Type := list Z.

Section python_lists.
Context {A : Type}.

(** The position a slice bound [i] denotes in a list of length [n]: a
      negative bound counts from the end, and bounds are clipped to the
      list. *)
Definition slice_bound (n : nat) (i : Z) : nat :=
    if decide (i < 0) then Z.to_nat (Z.of_nat n + i)
    else Nat.min (Z.to_nat i) n.

(** [l[a:b]] *)
Definition py_slice (l : list A) (a b : Z) : list A :=
    let a' := slice_bound (length l) a in
    let b' := slice_bound (length l) b in
    take (b' - a')%nat (drop a' l).

(** [l[:b]] *)
Definition py_prefix (l : list A) (b : Z) : list A :=
    take (slice_bound (length l) b) l.

(** [del l[:b]]: what is left of [l]. *)
Definition py_del_prefix (l : list A) (b : Z) : list A :=
    drop (slice_bound (length l) b) l.

(** [l[i]], which raises [IndexError] outside [-len(l) <= i < len(l)]. *)
Definition py_index (l : list A) (i : Z) : result A :=
    let j := if decide (i < 0) then Z.of_nat (length l) + i else i in
    if decide (j < 0) then Raise IndexError
    else match l !! Z.to_nat j with
         | Some x => Ok x
         | None => Raise IndexError
         end.

(** [[l[i] for i in idx]] for an index array [idx] of non-negative
      integers: an index past the end raises [IndexError]. *)
Fixpoint gather (l : list A) (idx : list nat) : result (list A) :=
    match idx with
    | [] => Ok []
    | i :: idx' =>
        match l !! i with
        | Some x => cons x <$> gather l idx'
        | None => Raise IndexError
        end
    end.
End python_lists.

(** ** [do_bucketing] *)

(** [numpy.ndarray.argsort] is called with its default [kind], for which
    numpy promises an index array that sorts the keys and no more: the order
    of equal keys is left open.  The model takes the function as a parameter;
    [is_argsort] is numpy's contract for one call. *)
Definition is_argsort (tlen : list nat) (tidx : list nat) : Prop :=
  tidx ≡ₚ seq 0 (length tlen) ∧
  Sorted le (omap (λ i, tlen !! i) tidx).

Global Instance is_argsort_dec tlen tidx : Decision (is_argsort tlen tidx).
Proof. unfold is_argsort. apply _. Defined.

Section do_bucketing.
Context (argsort : list nat → list nat).
Context {A B : Type}.

(** The loop [for ele in args: _args.append([ele[i] for i in tidx])]. *)
Fixpoint gather_each (args : list (list B)) (tidx : list nat)
      : result (list (list B)) :=
    match args with
    | [] => Ok []
    | ele :: args' =>
        _ele ← gather ele tidx;
        _args ← gather_each args' tidx;
        Ok (_ele :: _args)
    end.

Definition do_bucketing (pivot : list (list A)) (args : list (list B))
      : result (list (list A) * list (list B)) :=
    let tlen := length <$> pivot in
    let tidx := argsort tlen in
    _pivot ← gather pivot tidx;
    _args ← gather_each args tidx;
    Ok (_pivot, _args).
End do_bucketing.

(** ** Names and padding *)

(** Modelled from the spec: [njunmt.utils.constants] is not part of the
    sources at hand.  A batch record is keyed by component name; the names of
    the two components and of their fields are fixed strings, and
    [concat_name] joins a prefix and a field name. *)
Module Constants.
Definition FEATURE_NAME_PREFIX : string := "feature".
Definition LABEL_NAME_PREFIX : string := "label".
Definition IDS_NAME : string := "ids".
Definition LENGTH_NAME : string := "length".
End Constants.

Definition concat_name (prefix name : string) : string :=
  prefix +:+ "_" +:+ name.

(** Modelled from the spec: [njunmt.utils.misc.padding_batch_data] is not part
    of the sources at hand.  It pads every sequence on the right, with the
    padding id, up to the longest sequence of the batch, and records the true
    lengths. *)
Definition padding_batch_data (seqs : list Sequence) (padding : Z)
    : list (list Z) * list nat :=
  let x_len := length <$> seqs in
  let max_len := max_list x_len in
  ((λ s, s ++ replicate (max_len - length s)%nat padding) <$> seqs, x_len).

(** Modelled from the spec: [njunmt.utils.expert_utils.repeat_n_times] is not
    part of the sources at hand.  It calls [fn] once per device slot, on the
    i-th element of each list argument, in order, and returns the list of the
    results. *)
Fixpoint repeat_n_times {S X Y R} (times : nat) (fn : X → Y → M S R)
    (xs : list X) (ys : list Y) : M S (list R) :=
  match times, xs, ys with
  | S times', x :: xs', y :: ys' =>
      (do r <- fn x y;
       do rs <- repeat_n_times times' fn xs' ys';
       ret (r :: rs))%method
  | S _, _, _ => raise IndexError
  | O, _, _ => ret []
  end.

(** ** [pack_feed_dict] *)

(** A placeholder of the computation graph, identified by its name. *)
Definition placeholder : Type := string.

(** What is fed to a placeholder: a padded batch or its length vector. *)
Inductive tensor : Type :=
  | Padded (x : list (list Z))
  | Lengths (x_len : list nat).

(** A batch record: the dictionary [data] that [pack_feed_dict] builds.  [data_ids] holds the
    entries [data[<name>_ids]]; [feed_dict] is [data["feed_dict"]] without its
    key ["parallels"], which [parallels] holds ([None]: the key is absent). *)
Record batch_record : Type := mk_data {
  data_ids : gmap string (list Sequence);
  feed_dict : gmap placeholder tensor;
  parallels : option (list nat);
}.

Definition empty_data : batch_record := mk_data ∅ ∅ None.
Definition set_ids (k : string) (d : list Sequence) (dt : batch_record) : batch_record :=
  mk_data (<[k := d]> (data_ids dt)) (feed_dict dt) (parallels dt).
Definition set_feed (k : placeholder) (v : tensor) (dt : batch_record) : batch_record :=
  mk_data (data_ids dt) (<[k := v]> (feed_dict dt)) (parallels dt).
Definition set_parallels (ps : list nat) (dt : batch_record) : batch_record :=
  mk_data (data_ids dt) (feed_dict dt) (Some ps).
(** [data["feed_dict"].pop("parallels")] *)
Definition pop_parallels : M batch_record (list nat) := λ dt,
  match parallels dt with
  | Some ps => (mk_data (data_ids dt) (feed_dict dt) None, Ok ps)
  | None => (dt, Raise KeyError)
  end.

(** [_inpf[key]] on the dictionary of one device slot. *)
Definition getitem {V} (d : gmap string V) (key : string) : result V :=
  match d !! key with
  | Some v => Ok v
  | None => Raise KeyError
  end.

Section pack_feed_dict.
Local Open Scope nat_scope.
Local Open Scope method_scope.
Import Constants.

(** [input_fields]: one dictionary of placeholders per device slot. *)
Context (input_fields : list (gmap string placeholder)).

Definition n_samples_per_gpu_of (n_samples n_devices : nat) : nat :=
    let n_samples_per_gpu := n_samples / n_devices in
    if decide (0 < n_samples mod n_devices) then n_samples_per_gpu + 1
    else n_samples_per_gpu.

Definition _feed_batchs (n : string) (d : list Sequence) (p : Z)
      (n_samples n_samples_per_gpu : nat)
      (_start_idx : nat) (_inpf : gmap string placeholder)
      : M batch_record nat :=
    if decide (n_samples ≤ _start_idx * n_samples_per_gpu) then ret 0
    else
      let '(x, x_len) :=
        padding_batch_data
          (py_slice d (Z.of_nat (_start_idx * n_samples_per_gpu))
                      (Z.of_nat ((_start_idx + 1) * n_samples_per_gpu))) p in
      do k_ids <- lift (getitem _inpf (concat_name n IDS_NAME));
      modify (set_feed k_ids (Padded x));;
      do k_len <- lift (getitem _inpf (concat_name n LENGTH_NAME));
      modify (set_feed k_len (Lengths x_len));;
      ret (length x_len).

Definition map_fn (n : string) (d : list Sequence) (p : Z)
      : M batch_record unit :=
    modify (set_ids (concat_name n IDS_NAME) d);;
    let n_samples := length d in
    let n_devices := length input_fields in
    if decide (n_devices = 0) then raise ZeroDivisionError
    else
      let n_samples_per_gpu := n_samples_per_gpu_of n_samples n_devices in
      do ps <- repeat_n_times n_devices
                 (_feed_batchs n d p n_samples n_samples_per_gpu)
                 (seq 0 n_devices) input_fields;
      modify (set_parallels ps).

(** The calls [map_fn(n, d, p)] over [zip(name_prefixs, origin_datas,
      paddings)], in order. *)
Fixpoint map_fn_each (components : list (string * list Sequence * Z))
      : M batch_record unit :=
    match components with
    | [] => ret tt
    | (n, d, p) :: rest => map_fn n d p;; map_fn_each rest
    end.

(** [pack_feed_dict(name_prefixs, origin_datas, paddings, input_fields)].
      The three first arguments come zipped; the call with one name, one data
      list and one padding id is the call on a list of one component. *)
Definition pack_feed_dict (components : list (string * list Sequence * Z))
      : result batch_record :=
    let '(dt, r) := map_fn_each components empty_data in
    match r with
    | Ok _ => Ok dt
    | Raise e => Raise e
    end.
End pack_feed_dict.

(** ** The line reader *)

(** What [reader.next()] returns: the empty string at the end of the stream,
    [None] for a line to skip, or an encoded sentence. *)
Inductive line : Type :=
  | EndOfStream
  | Malformed
  | Encoded (s : Sequence).

(** What the two batching loops do with a pair of lines:
    [if ss == "" or tt == "": break], then
    [if ss is None or tt is None: continue], else both are appended. *)
Inductive pair_step : Type :=
  | Break
  | Continue
  | Append (ss tt : Sequence).

Definition pair_step_of (ss tt : line) : pair_step :=
  match ss, tt with
  | EndOfStream, _ | _, EndOfStream => Break
  | Malformed, _ | _, Malformed => Continue
  | Encoded s, Encoded t => Append s t
  end.

(** Python's truth value of an optional string. *)
Definition truthy (s : option string) : bool :=
  match s with
  | Some s => negb (String.eqb s "")
  | None => false
  end.

(** [str(s)] of an optional string. *)
Definition py_str (s : option string) : string :=
  match s with
  | Some s => s
  | None => "None"
  end.

(** Modelled from the spec: [njunmt.data.data_reader.LineReader] is not part
    of the sources at hand.  A reader walks the lines of its source: [next]
    returns the line under the cursor, the end sentinel once the lines are
    used up, and [None] for a malformed line; [close] closes it; [reset] puts
    the cursor back to the start, optionally reshuffles the source, and
    returns the permutation used, so that a second reader can be shuffled
    identically.  A permutation is an index array, applied as Python applies
    one ([[lines[i] for i in index]]). *)
Module LineReader.
Record self : Type := mk {
(** the lines of the underlying source; [None] is a malformed line *)
    corpus : list (option Sequence);
(** the lines being read: the corpus, or its latest shuffled copy *)
    lines : list (option Sequence);
    cursor : nat;
    closed : bool;
(** how many times [reset] was called *)
    resets : nat;
(** how many random permutations were drawn *)
    draws : nat;
  }.

(** A reader opened on a source. *)
Definition open (src : list (option Sequence)) : self :=
    mk src src 0 false 0 0.

(** The lines not read yet. *)
Definition remaining (r : self) : list (option Sequence) :=
    drop (cursor r) (lines r).

Definition next : M self line := λ r,
    match lines r !! cursor r with
    | Some (Some s) =>
        (mk (corpus r) (lines r) (S (cursor r)) (closed r) (resets r) (draws r),
         Ok (Encoded s))
    | Some None =>
        (mk (corpus r) (lines r) (S (cursor r)) (closed r) (resets r) (draws r),
         Ok Malformed)
    | None => (r, Ok EndOfStream)
    end.

Definition close : M self unit := λ r,
    (mk (corpus r) (lines r) (cursor r) true (resets r) (draws r), Ok tt).

Section reset.
(** The random source: [random_permutation k n] is the k-th permutation
        of [0 .. n-1] that [numpy.random] hands out. *)
Context (random_permutation : nat → nat → list nat).

Definition reset (do_shuffle : option string) (shuffle_to_file : string)
        (argsort_index : option (list nat)) : M self (option (list nat)) := λ r,
      let r0 := mk (corpus r) (corpus r) 0 false (S (resets r)) (draws r) in
      if truthy do_shuffle then
        let '(index, draws') :=
          match argsort_index with
          | Some index => (index, draws r)
          | None => (random_permutation (draws r) (length (corpus r)),
                     S (draws r))
          end in
        match gather (corpus r) index with
        | Ok shuffled =>
            (mk (corpus r) shuffled 0 false (S (resets r)) draws',
             Ok (Some index))
        | Raise e => (r0, Raise e)
        end
      else (r0, Ok argsort_index).
End reset.
End LineReader.

(** ** [TextLineInputter] *)

Module TextLineInputter.
Local Open Scope method_scope.

Record self : Type := mk {
(** a [LineReader] instance or a list of them *)
    _readers : LineReader.self + list LineReader.self;
    _batch_size : Z;
    _padding_id : Z;
  }.

Definition __init__ (line_readers : LineReader.self + list LineReader.self)
      (padding_id : Z) (batch_size : option Z) : result self :=
    match batch_size with
    | None => Raise ValueError
    | Some batch_size => Ok (mk line_readers batch_size padding_id)
    end.

(** The first loop of [_make_feeding_data_from]: [ss_buf] collects the
      encoded lines until the end sentinel. *)
Fixpoint read_loop (fuel : nat) (ss_buf : list Sequence)
      : M LineReader.self (list Sequence) :=
    match fuel with
    | O => raise Diverge
    | S fuel' =>
        do encoded_ss <- LineReader.next;
        match encoded_ss with
        | EndOfStream => ret ss_buf
        | Malformed => read_loop fuel' ss_buf
        | Encoded s => read_loop fuel' (ss_buf ++ [s])
        end
    end.

Section with_self.
Context (this : self).
Context (input_fields : list (gmap string placeholder)).
Context (name_prefix : string).

(** The second loop: one [pack_feed_dict] per slice of [ss_buf]. *)
Fixpoint batch_loop (fuel : nat) (ss_buf : list Sequence)
        (batch_data_idx : Z) (data : list batch_record) : result (list batch_record) :=
      if decide (batch_data_idx < Z.of_nat (length ss_buf)) then
        match fuel with
        | O => Raise Diverge
        | S fuel' =>
            d ← pack_feed_dict input_fields
                  [(name_prefix,
                    py_slice ss_buf batch_data_idx
                             (batch_data_idx + _batch_size this),
                    _padding_id this)];
            batch_loop fuel' ss_buf (batch_data_idx + _batch_size this)
                       (data ++ [d])
        end
      else Ok data.

(** [_make_feeding_data_from(reader, input_fields, name_prefix)], a
        method on the state of [reader].  The first loop ends after at most
        one call of [next] per remaining line and one more; the second makes
        at most [len(ss_buf)] rounds when it ends at all. *)
Definition _make_feeding_data_from : M LineReader.self (list batch_record) :=
      do reader <- get;
      do ss_buf <- read_loop (S (length (LineReader.remaining reader))) [];
      LineReader.close;;
      lift (batch_loop (length ss_buf) ss_buf 0 []).

(** The list comprehension over [self._readers]. *)
Fixpoint make_feeding_data_each (readers : list LineReader.self)
        : list LineReader.self * result (list (list batch_record)) :=
      match readers with
      | [] => ([], Ok [])
      | reader :: rest =>
          match _make_feeding_data_from reader with
          | (reader', Ok d) =>
              let '(rest', r) := make_feeding_data_each rest in
              (reader' :: rest', cons d <$> r)
          | (reader', Raise e) => (reader' :: rest, Raise e)
          end
      end.
End with_self.

Definition make_feeding_data
      (input_fields : list (gmap string placeholder)) (name_prefix : string)
      : M self (list batch_record + list (list batch_record)) := λ this,
    match _readers this with
    | inr readers =>
        let '(readers', r) :=
          make_feeding_data_each this input_fields name_prefix readers in
        (mk (inr readers') (_batch_size this) (_padding_id this), inr <$> r)
    | inl reader =>
        let '(reader', r) :=
          _make_feeding_data_from this input_fields name_prefix reader in
        (mk (inl reader') (_batch_size this) (_padding_id this), inl <$> r)
    end.
End TextLineInputter.

(** ** [ParallelTextInputter] *)

(** [numpy.sum] of a list of lengths. *)
Definition numpy_sum (l : list nat) : Z :=
  foldr (λ n acc, Z.of_nat n + acc) 0 l.

Module ParallelTextInputter.
Local Open Scope method_scope.
Import Constants.

(** The attributes [__init__] sets. *)
Record self : Type := mk {
    _features_reader : LineReader.self;
    _labels_reader : LineReader.self;
    _features_padding_id : Z;
    _labels_padding_id : Z;
    _batch_size : Z;
    _batch_tokens_size : option Z;
    _shuffle_every_epoch : option string;
    _fill_full_batch : bool;
    _bucketing : bool;
    _cache_size : Z;
  }.

Definition set_features_reader (r : LineReader.self) (s : self) : self :=
    mk r (_labels_reader s) (_features_padding_id s) (_labels_padding_id s)
       (_batch_size s) (_batch_tokens_size s) (_shuffle_every_epoch s)
       (_fill_full_batch s) (_bucketing s) (_cache_size s).
Definition set_labels_reader (r : LineReader.self) (s : self) : self :=
    mk (_features_reader s) r (_features_padding_id s) (_labels_padding_id s)
       (_batch_size s) (_batch_tokens_size s) (_shuffle_every_epoch s)
       (_fill_full_batch s) (_bucketing s) (_cache_size s).

(** A method of the features reader, run on [self._features_reader]. *)
Definition on_features_reader {A} (m : M LineReader.self A) : M self A :=
    λ s, let '(r, a) := m (_features_reader s) in (set_features_reader r s, a).
Definition on_labels_reader {A} (m : M LineReader.self A) : M self A :=
    λ s, let '(r, a) := m (_labels_reader s) in (set_labels_reader r s, a).

Definition __init__ (features_reader labels_reader : LineReader.self)
      (features_padding_id labels_padding_id : Z)
      (batch_size batch_tokens_size : option Z)
      (shuffle_every_epoch : option string)
      (fill_full_batch bucketing : bool) : result self :=
    match batch_size, batch_tokens_size with
    | None, None => Raise ValueError
    | Some bs, None =>
        Ok (mk features_reader labels_reader
               features_padding_id labels_padding_id
               bs None shuffle_every_epoch fill_full_batch bucketing
               (bs * 128))
    | Some bs, Some bts =>
        (* both given: a log line, and [batch_size] stays as it is *)
        Ok (mk features_reader labels_reader
               features_padding_id labels_padding_id
               bs (Some bts) shuffle_every_epoch fill_full_batch bucketing
               (bts * 6))
    | None, Some bts =>
        Ok (mk features_reader labels_reader
               features_padding_id labels_padding_id
               32 (Some bts) shuffle_every_epoch fill_full_batch bucketing
               (bts * 6))
    end.

Section small_parallel_data.
Context (argsort : list nat → list nat).
Context (input_fields : list (gmap string placeholder)).

(** The reading loop of [_small_parallel_data]. *)
Fixpoint read_loop (fuel : nat) (ss_buf tt_buf : list Sequence)
        : M self (list Sequence * list Sequence) :=
      match fuel with
      | O => raise Diverge
      | S fuel' =>
          do ss <- on_features_reader LineReader.next;
          do tt <- on_labels_reader LineReader.next;
          match pair_step_of ss tt with
          | Break => ret (ss_buf, tt_buf)
          | Continue => read_loop fuel' ss_buf tt_buf
          | Append s t => read_loop fuel' (ss_buf ++ [s]) (tt_buf ++ [t])
          end
      end.

(** The batching loop of [_small_parallel_data]. *)
Fixpoint batch_loop (this : self) (fuel : nat)
        (ss_buf tt_buf : list Sequence)
        (batch_data_idx : Z) (data : list batch_record)
        : result (list batch_record) :=
      if decide (batch_data_idx < Z.of_nat (length ss_buf)) then
        match fuel with
        | O => Raise Diverge
        | S fuel' =>
            d ← pack_feed_dict input_fields
                  [(FEATURE_NAME_PREFIX,
                    py_slice ss_buf batch_data_idx
                             (batch_data_idx + _batch_size this),
                    _features_padding_id this);
                   (LABEL_NAME_PREFIX,
                    py_slice tt_buf batch_data_idx
                             (batch_data_idx + _batch_size this),
                    _labels_padding_id this)];
            batch_loop this fuel' ss_buf tt_buf
                       (batch_data_idx + _batch_size this) (data ++ [d])
        end
      else Ok data.

(** [tt_buf, ss_buf = do_bucketing(tt_buf, ss_buf)] followed by
        [ss_buf = ss_buf[0]]; the result is the pair [(ss_buf, tt_buf)]. *)
Definition bucket_pair (ss_buf tt_buf : list Sequence)
        : result (list Sequence * list Sequence) :=
      '(tt_buf', ss_bufs) ← do_bucketing argsort tt_buf [ss_buf];
      ss_buf' ← py_index ss_bufs 0;
      Ok (ss_buf', tt_buf').

Definition _small_parallel_data : M self (list batch_record) :=
      do this <- get;
      do bufs <- read_loop
                   (S (length (LineReader.remaining (_features_reader this))))
                   [] [];
      on_features_reader LineReader.close;;
      on_labels_reader LineReader.close;;
      do bufs <- (if _bucketing this
                  then lift (bucket_pair bufs.1 bufs.2)
                  else ret bufs);
      lift (batch_loop this (length bufs.1) bufs.1 bufs.2 0 []).
End small_parallel_data.

Module _BigParallelDataIterator.
(** The attributes of the iterator: those of the parent inputter, copied
        by [setattr] from [**kwargs] (the readers are the parent's own reader
        objects), and the iterator's own.  [None] in [_shuffled_features_file]
        stands for the attribute not being there yet. *)
Record self : Type := mk {
      kwargs : ParallelTextInputter.self;
      _shuffled_features_file : option string;
      _shuffled_labels_file : option string;
      _features_buffer : list Sequence;
      _labels_buffer : list Sequence;
      _features_len_buffer : list nat;
      _labels_len_buffer : list nat;
      _end_of_data : bool;
      _input_fields : list (gmap string placeholder);
    }.

Definition set_kwargs (k : ParallelTextInputter.self) (s : self) : self :=
      mk k (_shuffled_features_file s) (_shuffled_labels_file s)
         (_features_buffer s) (_labels_buffer s)
         (_features_len_buffer s) (_labels_len_buffer s)
         (_end_of_data s) (_input_fields s).
Definition set_shuffled_files (f l : string) (s : self) : self :=
      mk (kwargs s) (Some f) (Some l)
         (_features_buffer s) (_labels_buffer s)
         (_features_len_buffer s) (_labels_len_buffer s)
         (_end_of_data s) (_input_fields s).
Definition set_buffers (fb lb : list Sequence) (s : self) : self :=
      mk (kwargs s) (_shuffled_features_file s) (_shuffled_labels_file s)
         fb lb (_features_len_buffer s) (_labels_len_buffer s)
         (_end_of_data s) (_input_fields s).
Definition set_len_buffers (fl ll : list nat) (s : self) : self :=
      mk (kwargs s) (_shuffled_features_file s) (_shuffled_labels_file s)
         (_features_buffer s) (_labels_buffer s) fl ll
         (_end_of_data s) (_input_fields s).
Definition set_end_of_data (b : bool) (s : self) : self :=
      mk (kwargs s) (_shuffled_features_file s) (_shuffled_labels_file s)
         (_features_buffer s) (_labels_buffer s)
         (_features_len_buffer s) (_labels_len_buffer s)
         b (_input_fields s).
Definition set_input_fields (i : list (gmap string placeholder))
        (s : self) : self :=
      mk (kwargs s) (_shuffled_features_file s) (_shuffled_labels_file s)
         (_features_buffer s) (_labels_buffer s)
         (_features_len_buffer s) (_labels_len_buffer s)
         (_end_of_data s) i.

(** A method of the parent's attributes, run on the copied ones. *)
Definition on_kwargs {A} (m : M ParallelTextInputter.self A) : M self A :=
      λ s, let '(k, a) := m (kwargs s) in (set_kwargs k s, a).

Section methods.
Context (argsort : list nat → list nat).
Context (random_permutation : nat → nat → list nat).

Definition _reset : M self unit :=
        do this <- get;
        when (bool_decide (_shuffled_features_file this = None))
          (modify (set_shuffled_files
             ("features_file." +:+ py_str (_shuffle_every_epoch (kwargs this)))
             ("labels_file." +:+ py_str (_shuffle_every_epoch (kwargs this)))));;
        do this <- get;
        do argsort_index <-
          on_kwargs (on_features_reader
            (LineReader.reset random_permutation
               (_shuffle_every_epoch (kwargs this))
               (default "" (_shuffled_features_file this))
               None));
        do _ <-
          on_kwargs (on_labels_reader
            (LineReader.reset random_permutation
               (_shuffle_every_epoch (kwargs this))
               (default "" (_shuffled_labels_file this))
               argsort_index));
        ret tt.

(** [__init__(input_fields, **kwargs)].  The buffers and the flag exist
          only after [_reset()] has run; until then the model holds them
          empty. *)
Definition __init__ (input_fields : list (gmap string placeholder))
          (kwargs : ParallelTextInputter.self) : self * result unit :=
        (_reset;;
         modify (set_buffers [] []);;
         modify (set_len_buffers [] []);;
         modify (set_end_of_data false);;
         modify (set_input_fields input_fields))
          (mk kwargs None None [] [] [] [] false []).

(** The refill loop of [next]. *)
Fixpoint refill_loop (fuel : nat) (cnt : Z) : M self unit :=
        do this <- get;
        if decide (cnt < _cache_size (kwargs this)) then
          match fuel with
          | O => raise Diverge
          | S fuel' =>
              do ss <- on_kwargs (on_features_reader LineReader.next);
              do tt <- on_kwargs (on_labels_reader LineReader.next);
              match pair_step_of ss tt with
              | Break => ret ()
              | Continue => refill_loop fuel' cnt
              | Append s t =>
                  modify (λ this,
                    set_buffers (_features_buffer this ++ [s])
                                (_labels_buffer this ++ [t]) this);;
                  refill_loop fuel' (cnt + 1)
              end
          end
        else ret tt.

(** The growth loop of [next] when batching by number of tokens. *)
Fixpoint grow_loop (fuel : nat)
          (features_len_buffer labels_len_buffer : list nat)
          (batch_tokens_size sum_s sum_t local_batch_size : Z) : result Z :=
        if decide (batch_tokens_size ≤ sum_s ∨ batch_tokens_size ≤ sum_t)
        then Ok local_batch_size
        else if decide (batch_tokens_size - sum_s < 20
                        ∨ batch_tokens_size - sum_t < 20)
        then Ok local_batch_size
        else if decide (Z.of_nat (length features_len_buffer)
                        ≤ local_batch_size)
        then Ok local_batch_size
        else
          match fuel with
          | O => Raise Diverge
          | S fuel' =>
              s ← py_index features_len_buffer local_batch_size;
              t ← py_index labels_len_buffer local_batch_size;
              grow_loop fuel' features_len_buffer labels_len_buffer
                        batch_tokens_size
                        (sum_s + Z.of_nat s) (sum_t + Z.of_nat t)
                        (local_batch_size + 1)
          end.

(** [local_batch_size] as [next] computes it.  The loop extends the
          batch at most once per buffered sequence past [batch_size]. *)
Definition local_batch_size_of
          (features_len_buffer labels_len_buffer : list nat)
          (batch_size : Z) (batch_tokens_size : option Z) : result Z :=
        match batch_tokens_size with
        | None => Ok batch_size
        | Some batch_tokens_size =>
            grow_loop
              (Z.to_nat (Z.of_nat (length features_len_buffer) - batch_size))
              features_len_buffer labels_len_buffer batch_tokens_size
              (numpy_sum (py_prefix features_len_buffer batch_size))
              (numpy_sum (py_prefix labels_len_buffer batch_size))
              batch_size
        end.

(** The three lines [self._end_of_data = False; self._reset();
          raise StopIteration]. *)
Definition end_of_epoch {A} : M self A :=
        modify (set_end_of_data false);;
        _reset;;
        raise StopIteration.

(** Lines 364-386 of [next]: the refill of the cache when it holds
          fewer than [batch_size] pairs.  The loop reads one line of each
          reader per round, so it ends after at most one round per remaining
          line of the features reader and one more. *)
Definition refill : M self unit :=
        do this <- get;
        if decide (Z.of_nat (length (_features_buffer this))
                   < _batch_size (kwargs this)) then
          let cnt := Z.of_nat (length (_features_buffer this)) in
          refill_loop
            (S (length (LineReader.remaining
                          (_features_reader (kwargs this)))))
            cnt;;
          do this <- get;
          (if decide (length (_features_buffer this) = 0%nat
                      ∨ length (_labels_buffer this) = 0%nat)
           then end_of_epoch else ret ());;
          (if _bucketing (kwargs this) then
             do bufs <- lift (bucket_pair argsort (_features_buffer this)
                                          (_labels_buffer this));
             modify (set_buffers bufs.1 bufs.2)
           else ret ());;
          modify (λ this,
            set_len_buffers (length <$> _features_buffer this)
                            (length <$> _labels_buffer this) this)
        else ret ().

(** Lines 391-428 of [next]: the batch is cut off the cache and
          packed. *)
Definition emit : M self batch_record :=
        do this <- get;
        do local_batch_size <-
          lift (local_batch_size_of
                  (_features_len_buffer this) (_labels_len_buffer this)
                  (_batch_size (kwargs this))
                  (_batch_tokens_size (kwargs this)));
        let features := py_prefix (_features_buffer this) local_batch_size in
        let labels := py_prefix (_labels_buffer this) local_batch_size in
        (if decide (Z.of_nat (length features) < local_batch_size) then
           modify (set_buffers [] []);;
           modify (set_len_buffers [] [])
         else
           modify (set_buffers
             (py_del_prefix (_features_buffer this) local_batch_size)
             (py_del_prefix (_labels_buffer this) local_batch_size));;
           modify (set_len_buffers
             (py_del_prefix (_features_len_buffer this) local_batch_size)
             (py_del_prefix (_labels_len_buffer this) local_batch_size)));;
        (if decide (length features ≤ 0 ∨ length labels ≤ 0)%nat
         then end_of_epoch else ret ());;
        do ret_data <-
          lift (pack_feed_dict (_input_fields this)
                  [(FEATURE_NAME_PREFIX, features,
                    _features_padding_id (kwargs this));
                   (LABEL_NAME_PREFIX, labels,
                    _labels_padding_id (kwargs this))]);
        if _fill_full_batch (kwargs this) then
          lift (let '(ret_data', popped) := pop_parallels ret_data in
                _ ← popped; Ok ret_data')
        else ret ret_data.

Definition next : M self batch_record :=
        do this <- get;
        (if _end_of_data this then end_of_epoch else ret ());;
        (if decide (length (_features_buffer this)
                    = length (_labels_buffer this))
         then ret () else raise AssertionError);;
        refill;;
        do this <- get;
        (if _fill_full_batch (kwargs this)
            && bool_decide (Z.of_nat (length (_features_buffer this))
                            < _batch_size (kwargs this))
         then end_of_epoch else ret ());;
        emit.

(** [n] successive calls of [next], whatever each one returns or
          raises: the state they leave and their outcomes in order. *)
Fixpoint pulls (n : nat) (it : self)
          : self * list (result batch_record) :=
        match n with
        | O => (it, [])
        | S n' =>
            let '(it', r) := next it in
            let '(it'', rs) := pulls n' it' in
            (it'', r :: rs)
        end.
End methods.
End _BigParallelDataIterator.

(** What [make_feeding_data] returns: the list of batches read into memory,
      or the iterator. *)
Inductive feeding_data : Type :=
    | InMemory (data : list batch_record)
    | Iterator (it : _BigParallelDataIterator.self).

Section make_feeding_data.
Context (argsort : list nat → list nat).
Context (random_permutation : nat → nat → list nat).

(** The readers of the iterator are the readers of the inputter: what the
        iterator's [__init__] did to them shows in the inputter too. *)
Definition make_feeding_data
        (input_fields : list (gmap string placeholder)) (in_memory : bool)
        : M self feeding_data :=
      do this <- get;
      if in_memory && _fill_full_batch this then raise ValueError
      else if in_memory && truthy (_shuffle_every_epoch this)
      then raise ValueError
      else if in_memory then
        do data <- _small_parallel_data argsort input_fields;
        ret (InMemory data)
      else
        let '(it, r) :=
          _BigParallelDataIterator.__init__ random_permutation
            input_fields this in
        modify (λ _, _BigParallelDataIterator.kwargs it);;
        lift r;;
        ret (Iterator it).
End make_feeding_data.
End ParallelTextInputter.

(** ** Instances of the library functions, to run the model *)

(** Two index sorts that meet numpy's contract.  Both order the indices by
    key; [argsort_ties_first] puts equal keys in index order,
    [argsort_ties_last] in reverse index order.  Neither is numpy's
    algorithm, whose order of equal keys depends on the keys at hand: on two
    equal keys numpy's default [argsort] returns the indices in order, as
    [argsort_ties_first] does; on the keys 3, 2, 1, 1 it returns the index
    array 3, 2, 1, 0, as [argsort_ties_last] does. *)
Definition key_then_index (tlen : list nat) (i j : nat) : Prop :=
  (tlen !!! i < tlen !!! j ∨ (tlen !!! i = tlen !!! j ∧ i ≤ j))%nat.
Definition key_then_index_rev (tlen : list nat) (i j : nat) : Prop :=
  (tlen !!! i < tlen !!! j ∨ (tlen !!! i = tlen !!! j ∧ j ≤ i))%nat.

Global Instance key_then_index_dec tlen i j :
  Decision (key_then_index tlen i j).
Proof. unfold key_then_index. apply _. Defined.
Global Instance key_then_index_rev_dec tlen i j :
  Decision (key_then_index_rev tlen i j).
Proof. unfold key_then_index_rev. apply _. Defined.

Definition argsort_ties_first (tlen : list nat) : list nat :=
  merge_sort (key_then_index tlen) (seq 0 (length tlen)).
Definition argsort_ties_last (tlen : list nat) : list nat :=
  merge_sort (key_then_index_rev tlen) (seq 0 (length tlen)).

(** A random source that always hands out the reversal. *)
Definition reversal (k n : nat) : list nat := reverse (seq 0 n).

(** The placeholders of device slot [i], and a list of [D] device slots. *)
Definition example_slot (i : nat) : gmap string placeholder :=
  {[ "feature_ids" := "feature_ids_" +:+ pretty i;
     "feature_length" := "feature_length_" +:+ pretty i;
     "label_ids" := "label_ids_" +:+ pretty i;
     "label_length" := "label_length_" +:+ pretty i ]}.
Definition example_slots (D : nat) : list (gmap string placeholder) :=
  example_slot <$> seq 0 D.

(** The index array [tidx] keeps keys that are equal in their original
    order. *)
Definition stable_index (tlen : list nat) (tidx : list nat) : Prop :=
  ∀ k1 k2 i1 i2,
    (k1 < k2)%nat → tidx !! k1 = Some i1 → tidx !! k2 = Some i2 →
    tlen !! i1 = tlen !! i2 → (i1 < i2)%nat.

(** Two parallel corpora of three lines, an inputter over them, and the
    iterator that [make_feeding_data] builds from it; an inputter that cannot
    be built stands as one over empty corpora. *)
Definition example_features : list (option Sequence) :=
  [Some [1]; Some [2; 2]; Some [3; 3; 3]].
Definition example_labels : list (option Sequence) :=
  [Some [10; 10; 10]; Some [20; 20]; Some [30]].

Definition example_inputter (F L : list (option Sequence))
    (batch_size batch_tokens_size : option Z)
    (shuffle_every_epoch : option string) (fill_full_batch bucketing : bool)
    : ParallelTextInputter.self :=
  match ParallelTextInputter.__init__ (LineReader.open F) (LineReader.open L)
          0 0 batch_size batch_tokens_size shuffle_every_epoch
          fill_full_batch bucketing with
  | Ok this => this
  | Raise _ =>
      ParallelTextInputter.mk (LineReader.open []) (LineReader.open [])
        0 0 0 None None false false 0
  end.

Definition example_iterator (this : ParallelTextInputter.self)
    : ParallelTextInputter._BigParallelDataIterator.self :=
  match ParallelTextInputter.make_feeding_data argsort_ties_first reversal
          (example_slots 1) false this with
  | (_, Ok (ParallelTextInputter.Iterator it)) => it
  | _ =>
      ParallelTextInputter._BigParallelDataIterator.mk this None None
        [] [] [] [] false []
  end.

(** The iterator after [n] calls of [next], and what the calls gave. *)
Definition example_run (n : nat)
    (it : ParallelTextInputter._BigParallelDataIterator.self) :=
  ParallelTextInputter._BigParallelDataIterator.pulls
    argsort_ties_first reversal n it.

(** The batch that call [k] of [n] calls gave; the empty record when it
    gave none. *)
Definition example_batch (n k : nat)
    (it : ParallelTextInputter._BigParallelDataIterator.self)
    : batch_record :=
  match (example_run n it).2 !! k with
  | Some (Ok ret_data) => ret_data
  | _ => empty_data
  end.

(** ** The vocabulary of the properties *)

(** The block of the batch that goes to slot [i]. *)
Definition slot_block (d : list Sequence) (per i : nat) : list Sequence :=
  take per (drop (i * per)%nat d).

(** The number of sequences slot [i] gets out of [B]. *)
Definition slot_count (B per i : nat) : nat := (per `min` (B - i * per))%nat.

(** What slot [i] feeds for the component [n]: the padded block and its
    lengths. *)
Definition slot_ids (d : list Sequence) (p : Z) (per i : nat) : tensor :=
  Padded (padding_batch_data (slot_block d per i) p).1.

Definition slot_lengths (d : list Sequence) (per i : nat) : tensor :=
  Lengths (length <$> slot_block d per i).

(** The slot holds the two placeholders of the component [n]. *)
Definition has_placeholders (n : string) (inpf : gmap string placeholder)
    : Prop :=
  is_Some (inpf !! concat_name n Constants.IDS_NAME) ∧
  is_Some (inpf !! concat_name n Constants.LENGTH_NAME).

(** The placeholders of the component [n] in a slot. *)
Definition slot_placeholders (n : string) (inpf : gmap string placeholder)
    : list placeholder :=
  option_list (inpf !! concat_name n Constants.IDS_NAME)
  ++ option_list (inpf !! concat_name n Constants.LENGTH_NAME).

(** [k] is fed [v] by one of the slots [fs], numbered from [a], that has a
    block. *)
Definition fed_by (n : string) (d : list Sequence) (p : Z) (per a : nat)
    (fs : list (gmap string placeholder)) (k : placeholder) (v : tensor)
    : Prop :=
  ∃ j inpf, fs !! j = Some inpf ∧ ((a + j) * per < length d)%nat ∧
    ((inpf !! concat_name n Constants.IDS_NAME = Some k ∧ v = slot_ids d p per (a + j))
     ∨ (inpf !! concat_name n Constants.LENGTH_NAME = Some k
        ∧ v = slot_lengths d per (a + j))).

(** The batch of the first [n] buffered pairs may take one more pair: both
    running sums are below the budget, both margins are at least 20 tokens,
    and the buffer holds a further pair. *)
Definition may_grow (features_len_buffer labels_len_buffer : list nat)
    (batch_tokens_size : Z) (n : nat) : Prop :=
  numpy_sum (take n features_len_buffer) < batch_tokens_size ∧
  numpy_sum (take n labels_len_buffer) < batch_tokens_size ∧
  20 ≤ batch_tokens_size - numpy_sum (take n features_len_buffer) ∧
  20 ≤ batch_tokens_size - numpy_sum (take n labels_len_buffer) ∧
  (n < length features_len_buffer)%nat.

(** Every exception the result carries is in [E]. *)
Definition only (E : exn → Prop) {A} (r : result A) : Prop :=
  ∀ e, r = Raise e → E e.

(** Every exception the method raises is in [E]. *)
Definition raises_only (E : exn → Prop) {S A} (m : M S A) : Prop :=
  ∀ s, only E (m s).2.

(** The pairs that two parallel sources give when read side by side: line
    [k] of one with line [k] of the other, as long as both have a line [k],
    without the pairs in which a line is malformed. *)
Definition paired (F L : list (option Sequence))
    : list (Sequence * Sequence) :=
  omap (λ fl, match fl with
              | (Some f, Some l) => Some (f, l)
              | _ => None
              end) (zip F L).

(** A small corpus, with a malformed line. *)
Definition example_corpus : list (option Sequence) :=
  [Some [1]; None; Some [2; 2]; Some [3]; Some [4; 4; 4]].

(** The reader [r'] is the reader [r] after some calls of [next] and
    [close]: same source, same view of it, same count of resets. *)
Definition read_on (r r' : LineReader.self) : Prop :=
  LineReader.corpus r' = LineReader.corpus r ∧
  LineReader.lines r' = LineReader.lines r ∧
  LineReader.resets r' = LineReader.resets r ∧
  LineReader.draws r' = LineReader.draws r.

(** The settings of an inputter: its attributes other than the readers. *)
Definition settings (k : ParallelTextInputter.self)
    : Z * Z * Z * option Z * option string * bool * bool * Z :=
  (ParallelTextInputter._features_padding_id k,
   ParallelTextInputter._labels_padding_id k,
   ParallelTextInputter._batch_size k,
   ParallelTextInputter._batch_tokens_size k,
   ParallelTextInputter._shuffle_every_epoch k,
   ParallelTextInputter._fill_full_batch k,
   ParallelTextInputter._bucketing k,
   ParallelTextInputter._cache_size k).

(** The cache of an iterator: its four buffers. *)
Definition cache (it : ParallelTextInputter._BigParallelDataIterator.self)
    : list Sequence * list Sequence * list nat * list nat :=
  (ParallelTextInputter._BigParallelDataIterator._features_buffer it,
   ParallelTextInputter._BigParallelDataIterator._labels_buffer it,
   ParallelTextInputter._BigParallelDataIterator._features_len_buffer it,
   ParallelTextInputter._BigParallelDataIterator._labels_len_buffer it).

(** The two readers of an iterator. *)
Definition features_reader_of
    (it : ParallelTextInputter._BigParallelDataIterator.self)
    : LineReader.self :=
  ParallelTextInputter._features_reader
    (ParallelTextInputter._BigParallelDataIterator.kwargs it).
Definition labels_reader_of
    (it : ParallelTextInputter._BigParallelDataIterator.self)
    : LineReader.self :=
  ParallelTextInputter._labels_reader
    (ParallelTextInputter._BigParallelDataIterator.kwargs it).

(** The reader [r'] is the reader [r] after one more call of [reset]: same
    source, cursor at the start. *)
Definition was_reset (r r' : LineReader.self) : Prop :=
  LineReader.corpus r' = LineReader.corpus r ∧
  LineReader.resets r' = S (LineReader.resets r) ∧
  LineReader.cursor r' = 0%nat.

(** Whether the iterator shuffles when it resets. *)
Definition shuffles (it : ParallelTextInputter._BigParallelDataIterator.self)
    : bool :=
  truthy (ParallelTextInputter._shuffle_every_epoch
            (ParallelTextInputter._BigParallelDataIterator.kwargs it)).

(** The views two readers have of their sources are linked: without
    shuffling each reads its source as it is, with shuffling both read
    theirs through one and the same permutation. *)
Definition linked (shuffled : bool) (rf rl : LineReader.self) : Prop :=
  if shuffled
  then ∃ index,
         gather (LineReader.corpus rf) index = Ok (LineReader.lines rf) ∧
         gather (LineReader.corpus rl) index = Ok (LineReader.lines rl)
  else LineReader.lines rf = LineReader.corpus rf
       ∧ LineReader.lines rl = LineReader.corpus rl.

(** ** One pull of the streaming batcher, as a step relation *)

Section pull_relation.
Import ParallelTextInputter ParallelTextInputter._BigParallelDataIterator.
Import Constants.
Implicit Types (it : ParallelTextInputter._BigParallelDataIterator.self).

(** The three lines [self._end_of_data = False; self._reset();
    raise StopIteration] took [it] to [it'] and raised [e]: the flag is
    down, the cache is as it was, the features reader was reset, and either
    the labels reader was reset too, to a linked view, and [e] is
    [StopIteration], or resetting it raised [IndexError]. *)
Definition epoch_ended it it' (e : exn) : Prop :=
  settings (kwargs it') = settings (kwargs it) ∧
  cache it' = cache it ∧
  _end_of_data it' = false ∧
  _input_fields it' = _input_fields it ∧
  was_reset (features_reader_of it) (features_reader_of it') ∧
  LineReader.corpus (labels_reader_of it')
  = LineReader.corpus (labels_reader_of it) ∧
  ((e = StopIteration
    ∧ was_reset (labels_reader_of it) (labels_reader_of it')
    ∧ linked (shuffles it') (features_reader_of it') (labels_reader_of it'))
   ∨ e = IndexError).

(** The refill loop took [it] to [it1]: the first pairs of the side-by-side
    reading, as many as the cache had room for, went to the end of the two
    buffers, and the readers stand where the rest of that reading starts. *)
Definition refilled it it1 : Prop :=
  let F := LineReader.remaining (features_reader_of it) in
  let L := LineReader.remaining (labels_reader_of it) in
  let room := Z.to_nat (_cache_size (kwargs it)
                        - Z.of_nat (length (_features_buffer it))) in
  ∃ rf rl,
    it1 = set_buffers
            (_features_buffer it ++ (take room (paired F L)).*1)
            (_labels_buffer it ++ (take room (paired F L)).*2)
            (set_kwargs
               (set_labels_reader rl (set_features_reader rf (kwargs it)))
               it) ∧
    paired (LineReader.remaining rf) (LineReader.remaining rl)
    = drop room (paired F L) ∧
    read_on (features_reader_of it) rf ∧
    read_on (labels_reader_of it) rl.

(** The cache of [it1] was put in order: with bucketing, both buffers were
    read through one index array; the length buffers were recomputed. *)
Definition arranged it1 it2 : Prop :=
  ∃ features labels,
    (if _bucketing (kwargs it1)
     then ∃ tidx, gather (_features_buffer it1) tidx = Ok features
                  ∧ gather (_labels_buffer it1) tidx = Ok labels
     else features = _features_buffer it1 ∧ labels = _labels_buffer it1) ∧
    it2 = set_len_buffers (length <$> features) (length <$> labels)
            (set_buffers features labels it1).

(** The outcomes of lines 364-386 of [next]. *)
Inductive refill_outcome it
    : ParallelTextInputter._BigParallelDataIterator.self → result unit → Prop :=
  | refill_not_needed :
      _batch_size (kwargs it) ≤ Z.of_nat (length (_features_buffer it)) →
      refill_outcome it it (Ok ())
  | refill_done it1 it2 :
      Z.of_nat (length (_features_buffer it)) < _batch_size (kwargs it) →
      refilled it it1 →
      _features_buffer it1 ≠ [] → _labels_buffer it1 ≠ [] →
      arranged it1 it2 →
      refill_outcome it it2 (Ok ())
  | refill_nothing it1 it' e :
      Z.of_nat (length (_features_buffer it)) < _batch_size (kwargs it) →
      refilled it it1 →
      _features_buffer it1 = [] ∨ _labels_buffer it1 = [] →
      epoch_ended it1 it' e →
      refill_outcome it it' (Raise e)
  | refill_sort_error it1 :
      Z.of_nat (length (_features_buffer it)) < _batch_size (kwargs it) →
      refilled it it1 →
      _features_buffer it1 ≠ [] → _labels_buffer it1 ≠ [] →
      _bucketing (kwargs it1) = true →
      refill_outcome it it1 (Raise IndexError).

(** The iterator after the first [local_batch_size] pairs were cut off its
    cache. *)
Definition after_cut it (local_batch_size : Z)
    : ParallelTextInputter._BigParallelDataIterator.self :=
  if decide (Z.of_nat (length (py_prefix (_features_buffer it)
                                         local_batch_size))
             < local_batch_size)
  then set_len_buffers [] [] (set_buffers [] [] it)
  else set_len_buffers
         (py_del_prefix (_features_len_buffer it) local_batch_size)
         (py_del_prefix (_labels_len_buffer it) local_batch_size)
         (set_buffers (py_del_prefix (_features_buffer it) local_batch_size)
                      (py_del_prefix (_labels_buffer it) local_batch_size)
                      it).

(** The outcomes of lines 391-428 of [next]. *)
Inductive emit_outcome it
    : ParallelTextInputter._BigParallelDataIterator.self
      → result batch_record → Prop :=
  | emit_growth_error e :
      local_batch_size_of (_features_len_buffer it) (_labels_len_buffer it)
        (_batch_size (kwargs it)) (_batch_tokens_size (kwargs it))
      = Raise e →
      emit_outcome it it (Raise e)
  | emit_nothing local_batch_size it' e :
      local_batch_size_of (_features_len_buffer it) (_labels_len_buffer it)
        (_batch_size (kwargs it)) (_batch_tokens_size (kwargs it))
      = Ok local_batch_size →
      py_prefix (_features_buffer it) local_batch_size = []
      ∨ py_prefix (_labels_buffer it) local_batch_size = [] →
      epoch_ended (after_cut it local_batch_size) it' e →
      emit_outcome it it' (Raise e)
  | emit_pack_error local_batch_size e :
      local_batch_size_of (_features_len_buffer it) (_labels_len_buffer it)
        (_batch_size (kwargs it)) (_batch_tokens_size (kwargs it))
      = Ok local_batch_size →
      py_prefix (_features_buffer it) local_batch_size ≠ [] →
      py_prefix (_labels_buffer it) local_batch_size ≠ [] →
      pack_feed_dict (_input_fields it)
        [(FEATURE_NAME_PREFIX,
          py_prefix (_features_buffer it) local_batch_size,
          _features_padding_id (kwargs it));
         (LABEL_NAME_PREFIX,
          py_prefix (_labels_buffer it) local_batch_size,
          _labels_padding_id (kwargs it))] = Raise e →
      emit_outcome it (after_cut it local_batch_size) (Raise e)
  | emit_batch local_batch_size ret_data ps :
      local_batch_size_of (_features_len_buffer it) (_labels_len_buffer it)
        (_batch_size (kwargs it)) (_batch_tokens_size (kwargs it))
      = Ok local_batch_size →
      py_prefix (_features_buffer it) local_batch_size ≠ [] →
      py_prefix (_labels_buffer it) local_batch_size ≠ [] →
      pack_feed_dict (_input_fields it)
        [(FEATURE_NAME_PREFIX,
          py_prefix (_features_buffer it) local_batch_size,
          _features_padding_id (kwargs it));
         (LABEL_NAME_PREFIX,
          py_prefix (_labels_buffer it) local_batch_size,
          _labels_padding_id (kwargs it))] = Ok ret_data →
      parallels ret_data = Some ps →
      emit_outcome it (after_cut it local_batch_size)
        (Ok (if _fill_full_batch (kwargs it)
             then mk_data (data_ids ret_data) (feed_dict ret_data) None
             else ret_data)).

(** The outcomes of one call of [next]. *)
Inductive pull it
    : ParallelTextInputter._BigParallelDataIterator.self
      → result batch_record → Prop :=
  | pull_flag_up it' e :
      _end_of_data it = true →
      epoch_ended it it' e →
      pull it it' (Raise e)
  | pull_buffers_differ :
      _end_of_data it = false →
      length (_features_buffer it) ≠ length (_labels_buffer it) →
      pull it it (Raise AssertionError)
  | pull_refill_raises it' e :
      _end_of_data it = false →
      length (_features_buffer it) = length (_labels_buffer it) →
      refill_outcome it it' (Raise e) →
      pull it it' (Raise e)
  | pull_short_of_a_batch it1 it' e :
      _end_of_data it = false →
      length (_features_buffer it) = length (_labels_buffer it) →
      refill_outcome it it1 (Ok ()) →
      _fill_full_batch (kwargs it1) = true →
      Z.of_nat (length (_features_buffer it1)) < _batch_size (kwargs it1) →
      epoch_ended it1 it' e →
      pull it it' (Raise e)
  | pull_emit it1 it' r :
      _end_of_data it = false →
      length (_features_buffer it) = length (_labels_buffer it) →
      refill_outcome it it1 (Ok ()) →
      ¬ (_fill_full_batch (kwargs it1) = true
         ∧ Z.of_nat (length (_features_buffer it1))
           < _batch_size (kwargs it1)) →
      emit_outcome it1 it' r →
      pull it it' r.
End pull_relation.

(** What a method does to the state [s] when run with the continuation
    [Φ]: [Φ] holds of the state it leaves and of its outcome. *)
Definition wp {S A} (m : M S A) (s : S) (Φ : S → result A → Prop) : Prop :=
  Φ (m s).1 (m s).2.

(** How the readers and the settings of [it'] stand to those of [it] after a
    step with outcome [r]: a step that raises [StopIteration] has reset both
    readers, to linked views; a step with any other outcome, a failed reset
    or sort apart, has only read on. *)
Definition readers_after it it' {A} (r : result A) : Prop :=
  settings (ParallelTextInputter._BigParallelDataIterator.kwargs it')
  = settings (ParallelTextInputter._BigParallelDataIterator.kwargs it) ∧
  ParallelTextInputter._BigParallelDataIterator._input_fields it'
  = ParallelTextInputter._BigParallelDataIterator._input_fields it ∧
  LineReader.corpus (features_reader_of it')
  = LineReader.corpus (features_reader_of it) ∧
  LineReader.corpus (labels_reader_of it')
  = LineReader.corpus (labels_reader_of it) ∧
  (r = Raise StopIteration →
   was_reset (features_reader_of it) (features_reader_of it') ∧
   was_reset (labels_reader_of it) (labels_reader_of it') ∧
   linked (shuffles it') (features_reader_of it') (labels_reader_of it')) ∧
  (r ≠ Raise StopIteration → r ≠ Raise IndexError →
   read_on (features_reader_of it) (features_reader_of it') ∧
   read_on (labels_reader_of it) (labels_reader_of it')).

(** The outcome of a pull signals the end of an epoch; and how many of a
    list of outcomes do. *)
Definition signals_end {A} (r : result A) : bool :=
  match r with
  | Raise StopIteration => true
  | _ => false
  end.

Definition epochs_ended {A} (outcomes : list (result A)) : nat :=
  length (filter (λ r, signals_end r = true) outcomes).

(** What a pull gave, reduced to the sequences of the batch. *)
Definition ids_of (r : result batch_record)
    : result (gmap string (list Sequence)) :=
  data_ids <$> r.

(** The sequences [f] and [l] are paired in the source corpora [F0] and
    [L0]: they are the two encoded lines of one line number. *)
Definition originally_paired (F0 L0 : list (option Sequence))
    (f l : Sequence) : Prop :=
  ∃ j, F0 !! j = Some (Some f) ∧ L0 !! j = Some (Some l).

(** The batch record holds features and labels, as many of one as of the
    other, and at every position the feature and the label are paired in the
    source corpora. *)
Definition batch_paired (F0 L0 : list (option Sequence))
    (ret_data : batch_record) : Prop :=
  ∃ features labels,
    data_ids ret_data
      !! concat_name Constants.FEATURE_NAME_PREFIX Constants.IDS_NAME
    = Some features ∧
    data_ids ret_data
      !! concat_name Constants.LABEL_NAME_PREFIX Constants.IDS_NAME
    = Some labels ∧
    Forall2 (originally_paired F0 L0) features labels.

(** The iterator keeps the pairing of the source corpora [F0] and [L0]: its
    readers read these corpora, what they are still to read side by side are
    pairs of the corpora, and so are the pairs the cache holds. *)
Definition keeps_pairing (F0 L0 : list (option Sequence))
    (it : ParallelTextInputter._BigParallelDataIterator.self) : Prop :=
  LineReader.corpus (features_reader_of it) = F0 ∧
  LineReader.corpus (labels_reader_of it) = L0 ∧
  Forall (λ fl, originally_paired F0 L0 fl.1 fl.2)
         (paired (LineReader.remaining (features_reader_of it))
                 (LineReader.remaining (labels_reader_of it))) ∧
  Forall2 (originally_paired F0 L0)
          (ParallelTextInputter._BigParallelDataIterator._features_buffer it)
          (ParallelTextInputter._BigParallelDataIterator._labels_buffer it).

(** ** The vocabulary of the further properties *)

(** The slots [fs], numbered from [a], that get a block of [d] hold the
    placeholders of [n]. *)
Definition served (n : string) (d : list Sequence) (per a : nat)
    (fs : list (gmap string placeholder)) : Prop :=
  ∀ j inpf, fs !! j = Some inpf → ((a + j) * per < length d)%nat →
            has_placeholders n inpf.

(** The device slots serve the component [(n, d, p)]: every slot that gets a
    block of the [d] holds the two placeholders of [n]. *)
Definition slots_serve (input_fields : list (gmap string placeholder))
    (component : string * list Sequence * Z) : Prop :=
  let per := n_samples_per_gpu_of (length component.1.2)
                                  (length input_fields) in
  ∀ i inpf,
    input_fields !! i = Some inpf →
    (i * per < length component.1.2)%nat →
    has_placeholders component.1.1 inpf.

(** The pairs a batch record holds: its features with its labels, position
    by position. *)
Definition pairs_of (ret_data : batch_record)
    : list (Sequence * Sequence) :=
  zip (default [] (data_ids ret_data
                     !! concat_name Constants.FEATURE_NAME_PREFIX
                                    Constants.IDS_NAME))
      (default [] (data_ids ret_data
                     !! concat_name Constants.LABEL_NAME_PREFIX
                                    Constants.IDS_NAME)).

(** The pairs an iterator has in stock for the running epoch: those in its
    cache, then those its readers are still to read side by side. *)
Definition stock (it : ParallelTextInputter._BigParallelDataIterator.self)
    : list (Sequence * Sequence) :=
  zip (ParallelTextInputter._BigParallelDataIterator._features_buffer it)
      (ParallelTextInputter._BigParallelDataIterator._labels_buffer it)
  ++ paired (LineReader.remaining (features_reader_of it))
            (LineReader.remaining (labels_reader_of it)).

(** The sequences are in non-decreasing order of length. *)
Definition by_length (s t : Sequence) : Prop := (length s ≤ length t)%nat.

(** The iterator [it1], its cache sorted if it buckets and its length
    buffers recomputed. *)
Definition put_in_order (argsort : list nat → list nat)
    (it1 : ParallelTextInputter._BigParallelDataIterator.self)
    : ParallelTextInputter._BigParallelDataIterator.self * result unit :=
  match (if ParallelTextInputter._bucketing
              (ParallelTextInputter._BigParallelDataIterator.kwargs it1)
         then ParallelTextInputter.bucket_pair argsort
                (ParallelTextInputter._BigParallelDataIterator._features_buffer
                   it1)
                (ParallelTextInputter._BigParallelDataIterator._labels_buffer
                   it1)
         else Ok (ParallelTextInputter._BigParallelDataIterator._features_buffer
                    it1,
                  ParallelTextInputter._BigParallelDataIterator._labels_buffer
                    it1)) with
  | Ok bufs =>
      (ParallelTextInputter._BigParallelDataIterator.set_len_buffers
         (length <$> bufs.1) (length <$> bufs.2)
         (ParallelTextInputter._BigParallelDataIterator.set_buffers
            bufs.1 bufs.2 it1),
       Ok ())
  | Raise e => (it1, Raise e)
  end.

(** The two components [next] packs: the first [local_batch_size] pairs of
    the cache. *)
Definition cut_components
    (it : ParallelTextInputter._BigParallelDataIterator.self)
    (local_batch_size : Z) : list (string * list Sequence * Z) :=
  [(Constants.FEATURE_NAME_PREFIX,
    py_prefix (ParallelTextInputter._BigParallelDataIterator._features_buffer
                 it) local_batch_size,
    ParallelTextInputter._features_padding_id
      (ParallelTextInputter._BigParallelDataIterator.kwargs it));
   (Constants.LABEL_NAME_PREFIX,
    py_prefix (ParallelTextInputter._BigParallelDataIterator._labels_buffer
                 it) local_batch_size,
    ParallelTextInputter._labels_padding_id
      (ParallelTextInputter._BigParallelDataIterator.kwargs it))].

(** What a call of [next] may raise. *)
Definition pull_raises (e : exn) : Prop :=
  e = StopIteration ∨ e = IndexError ∨ e = KeyError ∨ e = ZeroDivisionError.


(** The token budget, when there is one, is within the range of numpy's
    [int64], the type in which [next] holds the token sums it compares the
    budget with. *)
Definition budget_in_int64 (this : ParallelTextInputter.self) : Prop :=
  ∀ batch_tokens_size,
    ParallelTextInputter._batch_tokens_size this = Some batch_tokens_size →
    - 2 ^ 63 ≤ batch_tokens_size < 2 ^ 63.
(** The sizes of an inputter leave no room for a batch: without a token
    budget its batch size is not positive, or its token budget and with it
    its cache size are not positive. *)
Definition no_room (k : ParallelTextInputter.self) : Prop :=
  (ParallelTextInputter._batch_tokens_size k = None
   ∧ ParallelTextInputter._batch_size k ≤ 0)
  ∨ (∃ T, ParallelTextInputter._batch_tokens_size k = Some T ∧ T ≤ 0
          ∧ ParallelTextInputter._cache_size k ≤ 0).

(** The iterator buckets, and the labels in its cache are in order. *)
Definition in_order (it : ParallelTextInputter._BigParallelDataIterator.self)
    : Prop :=
  ParallelTextInputter._bucketing
    (ParallelTextInputter._BigParallelDataIterator.kwargs it) = true
  ∧ Sorted by_length
      (ParallelTextInputter._BigParallelDataIterator._labels_buffer it).

(** The cache of the iterator is consistent: the flag is down, the two
    buffers hold equally many sequences, and the length buffers list the
    lengths of the buffered sequences. *)
Definition cache_consistent
    (it : ParallelTextInputter._BigParallelDataIterator.self) : Prop :=
  ParallelTextInputter._BigParallelDataIterator._end_of_data it = false ∧
  length (ParallelTextInputter._BigParallelDataIterator._features_buffer it)
  = length (ParallelTextInputter._BigParallelDataIterator._labels_buffer it) ∧
  ParallelTextInputter._BigParallelDataIterator._features_len_buffer it
  = length <$> ParallelTextInputter._BigParallelDataIterator._features_buffer
                 it ∧
  ParallelTextInputter._BigParallelDataIterator._labels_len_buffer it
  = length <$> ParallelTextInputter._BigParallelDataIterator._labels_buffer
                 it.

(** Every device slot of the iterator holds the placeholders of features
    and labels, and there is at least one slot. *)
Definition slots_ready
    (it : ParallelTextInputter._BigParallelDataIterator.self) : Prop :=
  (1 ≤ length (ParallelTextInputter._BigParallelDataIterator._input_fields
                 it))%nat ∧
  Forall (has_placeholders Constants.FEATURE_NAME_PREFIX)
         (ParallelTextInputter._BigParallelDataIterator._input_fields it) ∧
  Forall (has_placeholders Constants.LABEL_NAME_PREFIX)
         (ParallelTextInputter._BigParallelDataIterator._input_fields it).

(** Resetting the readers of the iterator cannot fail: if it shuffles, the
    random source hands out permutations, and the labels corpus has a line
    for every line of the features corpus. *)
Definition resets_succeed (random_permutation : nat → nat → list nat)
    (it : ParallelTextInputter._BigParallelDataIterator.self) : Prop :=
  shuffles it = true →
  (∀ k n, random_permutation k n ≡ₚ seq 0 n) ∧
  (length (LineReader.corpus (features_reader_of it))
   ≤ length (LineReader.corpus (labels_reader_of it)))%nat.

(** The iterator is set up to run an epoch through: positive sizes, no
    [fill_full_batch], a consistent cache, device slots that are ready, and
    resets that cannot fail. *)
Definition ready (random_permutation : nat → nat → list nat)
    (it : ParallelTextInputter._BigParallelDataIterator.self) : Prop :=
  0 < ParallelTextInputter._batch_size
        (ParallelTextInputter._BigParallelDataIterator.kwargs it) ∧
  0 < ParallelTextInputter._cache_size
        (ParallelTextInputter._BigParallelDataIterator.kwargs it) ∧
  ParallelTextInputter._fill_full_batch
    (ParallelTextInputter._BigParallelDataIterator.kwargs it) = false ∧
  cache_consistent it ∧ slots_ready it ∧ resets_succeed random_permutation it.

(** The sequences a batch record holds under the name [name_prefix]. *)
Definition ids_under (name_prefix : string) (dt : batch_record)
    : list Sequence :=
  default [] (data_ids dt !! concat_name name_prefix Constants.IDS_NAME).

(** The reader is closed and has nothing left to read. *)
Definition used_up (reader : LineReader.self) : Prop :=
  LineReader.closed reader = true ∧ LineReader.remaining reader = [].

(** The batches, put end to end, are the lines the reader had left,
    malformed lines dropped. *)
Definition gives_back (name_prefix : string) (reader : LineReader.self)
    (data : list batch_record) : Prop :=
  concat (ids_under name_prefix <$> data)
  = omap id (LineReader.remaining reader).

(** The number of tokens of a list of sequences. *)
Definition tokens (seqs : list Sequence) : Z := numpy_sum (length <$> seqs).

(** ** The translation server: [bin/translate_server.py] *)

(** The request handler of the server is the caller of [TextLineInputter]:
    it turns the text of a request into batches and answers with the
    translation.  The JSON codec, the socket, the model ([infer],
    [reload_model]) and the methods of [str] are outside the sources at hand;
    the handler is modelled over them, as the interface [World].  The calls
    of [print] are left out. *)
Module translate_server.
Import Constants.

(** The bytes of a message. *)
Definition bytes : Type := string.

(** The Python value of a decoded JSON document.  A number carries its
    literal. *)
#[warnings="-register-all"] Inductive value : Type :=
  | JNull
  | JBool (b : bool)
  | JNumber (literal : string)
  | JString (s : string)
  | JArray (l : list value)
  | JObject (d : gmap string value).

(** The keyword arguments of a message. *)
Definition message : Type := gmap string value.

(** What the handler can see raised: the exceptions of [exn], which the
    batching pipeline raises as well, those of Python's own operations,
    [socket.error], and whatever the model raises. *)
Inductive error : Set :=
  | Builtin (e : exn)
  | TypeError
  | AttributeError
  | UnboundLocalError
  | socket_error
  | Foreign.

(** How a call ends: with a value, with an exception, or not at all. *)
Inductive outcome (A : Type) : Type :=
  | Value (a : A)
  | Exception (e : error)
  | Hang.
Global Arguments Value {A} a.
Global Arguments Exception {A} e.
Global Arguments Hang {A}.

(** A result of the batching pipeline, seen from the handler. *)
Definition of_result {A} (r : result A) : outcome A :=
  match r with
  | Ok a => Value a
  | Raise Diverge => Hang
  | Raise e => Exception (Builtin e)
  end.

(** [obj[key]] for a string [key]: only a dictionary can be indexed so. *)
Definition getitem (obj : value) (key : string) : outcome value :=
  match obj with
  | JObject d =>
      match d !! key with
      | Some v => Value v
      | None => Exception (Builtin KeyError)
      end
  | _ => Exception TypeError
  end.

(** [v == s] for a string literal [s]. *)
Definition is_str (v : value) (s : string) : bool :=
  match v with
  | JString s' => bool_decide (s' = s)
  | _ => false
  end.

(** [bytes.strip()]: ASCII whitespace is removed at both ends. *)
Definition is_ascii_whitespace (c : Ascii.ascii) : bool :=
  bool_decide (Ascii.nat_of_ascii c ∈ [32; 9; 10; 11; 12; 13]%nat).

Fixpoint bytes_lstrip (s : bytes) : bytes :=
  match s with
  | String c s' => if is_ascii_whitespace c then bytes_lstrip s' else s
  | EmptyString => EmptyString
  end.

Definition bytes_strip (s : bytes) : bytes :=
  String.rev (bytes_lstrip (String.rev (bytes_lstrip s))).

(** The line feed, the separator of the lines of a request. *)
Definition newline : string := String (Ascii.ascii_of_nat 10) EmptyString.

(** What [preprocess_raw] returns: the dictionary it builds for a request
    to translate (its command is ["translate"], its content the feeding
    data), or the message itself, whose command was found not to be
    ["translate"]. *)
Inductive request : Type :=
  | Translate (feeding_data : list batch_record + list (list batch_record))
  | Message (msg : value).

(** What [infer] is handed as [infer_data]: an element of the feeding data,
    a batch or the list of the batches of one reader. *)
Definition infer_data : Type := batch_record + list batch_record.

(** [for feeding_data in request["content"]] *)
Definition each_of (content : list batch_record + list (list batch_record))
    : list infer_data :=
  match content with
  | inl data => inl <$> data
  | inr datas => inr <$> datas
  end.

(** How an iteration of [while True] ends. *)
Inductive flow : Set :=
  | next_iteration
  | break.

(** The world outside the handler.  [experiment_spec] is the experiment of
    the server: session, model and vocabularies, which [reload_model]
    replaces. *)
Class World (experiment_spec : Type) : Type := {
(** [json.loads(json_str.decode())]; [None]: it raises *)
    json_loads : bytes → option value;
(** [json.dumps(args).encode()] *)
    json_dumps : message → bytes;
(** [s.strip()] and [s.split(sep)] of a [str], and [format(v)] *)
    str_strip : string → string;
    str_split : string → string → list string;
    str_format : value → string;
(** [experiment_spec["vocab_source"].pad_id],
    [experiment_spec["model_configs"]["infer"]["batch_size"]],
    [experiment_spec["estimator_spec"].input_fields] and
    [experiment_spec["model_info"]] *)
    pad_id : experiment_spec → Z;
    batch_size : experiment_spec → option Z;
    input_fields : experiment_spec → list (gmap string placeholder);
    model_info : experiment_spec → value;
(** [LineReader(data=lines, preprocessing_fn=...)], which encodes the lines
    with the source vocabulary *)
    LineReader_on : experiment_spec → list string → LineReader.self;
(** [infer(...)]: the sources and the translations of the batches, or an
    exception ([None]) *)
    infer : experiment_spec → infer_data →
            experiment_spec * option (list string * list string);
(** [self.server.reload_model(model_dirs)]; [false]: it raises *)
    reload_model : experiment_spec → value → experiment_spec * bool;
(** the peer: what the k-th call of [recv] returns ([None]: it raises
    [socket.error]), and whether the k-th call of [sendall] succeeds (it
    raises [socket.error] otherwise) *)
    recv_data : nat → option bytes;
    send_ok : nat → bool;
  }.

(** The state of [handle]. *)
Record handler (experiment_spec : Type) : Type := mk {
(** how many times [recv] was called *)
    received : nat;
(** the arguments of the calls of [sendall], oldest first *)
    attempts : list bytes;
(** the local variable [response]; [None] while it is unbound *)
    response : option bytes;
    experiment : experiment_spec;
  }.
Global Arguments mk {experiment_spec} received attempts response experiment.
Global Arguments received {experiment_spec} h.
Global Arguments attempts {experiment_spec} h.
Global Arguments response {experiment_spec} h.
Global Arguments experiment {experiment_spec} h.

(** A handler at the start of [handle]. *)
Definition connected {experiment_spec} (spec : experiment_spec)
    : handler experiment_spec :=
  mk 0 [] None spec.

Declare Scope handler_scope.
Delimit Scope handler_scope with handler.

Section handler.
Context `{world : World experiment_spec}.

(** A step of the handler. *)
Definition H (A : Type) : Type :=
    handler experiment_spec → handler experiment_spec * outcome A.

Definition pure {A} (a : A) : H A := λ h, (h, Value a).
Definition throw {A} (e : error) : H A := λ h, (h, Exception e).
Definition and_then {A B} (m : H A) (k : A → H B) : H B := λ h,
    match m h with
    | (h', Value a) => k a h'
    | (h', Exception e) => (h', Exception e)
    | (h', Hang) => (h', Hang)
    end.
Definition gets {A} (f : handler experiment_spec → A) : H A :=
    λ h, (h, Value (f h)).
Definition returned {A} (o : outcome A) : H A := λ h, (h, o).

Notation "'do' x <- m1 ; m2" := (and_then m1 (λ x, m2))
    (at level 10, x name, m1 at level 100, m2 at level 200) : handler_scope.
Notation "m1 ;; m2" := (and_then m1 (λ _, m2))
    (at level 100, m2 at level 200, right associativity) : handler_scope.
Local Open Scope handler_scope.

(** [response = data] *)
Definition set_response (data : bytes) : H unit := λ h,
    (mk (received h) (attempts h) (Some data) (experiment h), Value tt).

(** [self.request.recv(1024)] *)
Definition recv : H bytes := λ h,
    (mk (S (received h)) (attempts h) (response h) (experiment h),
     match recv_data (received h) with
     | Some data => Value data
     | None => Exception socket_error
     end).

(** [self.request.sendall(data)] *)
Definition sendall (data : bytes) : H unit := λ h,
    (mk (received h) (attempts h ++ [data]) (response h) (experiment h),
     if send_ok (length (attempts h)) then Value tt
     else Exception socket_error).

Definition wrap_message (args : message) : bytes := json_dumps args.

Definition unwrap_message (json_str : bytes) : value :=
    match json_loads json_str with
    | Some msg => msg
    | None => JObject {[ "command" := JString "control";
                         "content" := JString "error" ]}
    end.

Definition preprocess_raw (raw_data : bytes) : H request :=
    let msg := unwrap_message raw_data in
    do command <- returned (getitem msg "command");
    if is_str command "translate" then
      do content <- returned (getitem msg "content");
      do lines <- returned
                    match content with
                    | JString s => Value (str_split newline (str_strip s))
                    | _ => Exception AttributeError
                    end;
      do spec <- gets experiment;
      do text_inputter <- returned (of_result
            (TextLineInputter.__init__ (inr [LineReader_on spec lines])
               (pad_id spec) (batch_size spec)));
      do feeding_data <- returned (of_result
            (TextLineInputter.make_feeding_data (input_fields spec)
               FEATURE_NAME_PREFIX text_inputter).2);
      pure (Translate feeding_data)
    else pure (Message msg).

(** One call of [infer], on the experiment as it is. *)
Definition call_infer (feeding_data : infer_data)
      : H (list string * list string) := λ h,
    let '(spec, r) := infer (experiment h) feeding_data in
    (mk (received h) (attempts h) (response h) spec,
     match r with
     | Some translated => Value translated
     | None => Exception Foreign
     end).

(** The loop over [request["content"]], which extends [sources] and
      [trans_outputs]. *)
Fixpoint translate_each (content : list infer_data)
      (sources trans_outputs : list string)
      : H (list string * list string) :=
    match content with
    | [] => pure (sources, trans_outputs)
    | feeding_data :: rest =>
        do translated <- call_infer feeding_data;
        translate_each rest (sources ++ translated.1)
                       (trans_outputs ++ translated.2)
    end.

Definition call_reload_model (model_dirs : value) : H unit := λ h,
    let '(spec, done) := reload_model (experiment h) model_dirs in
    (mk (received h) (attempts h) (response h) spec,
     if done then Value tt else Exception Foreign).

(** [self.request.sendall(response)], at the end of the [try] block. *)
Definition send_response : H flow :=
    do response <- gets response;
    match response with
    | None => throw UnboundLocalError
    | Some data => sendall data;; pure next_iteration
    end.

(** The [try] block of the loop of [handle]. *)
Definition try_block : H flow :=
    do raw_data <- recv;
    do request <- preprocess_raw (bytes_strip raw_data);
    match request with
    | Translate content =>
        do translated <- translate_each (each_of content) [] [];
        let sources := String.concat newline translated.1 in
        let trans_outputs := String.concat newline translated.2 in
        do spec <- gets experiment;
        set_response (wrap_message
          {[ "status" := JString "success"; "info" := JString "";
             "source" := JString sources;
             "translation" := JString trans_outputs;
             "model_info" := model_info spec ]});;
        send_response
    | Message msg =>
        do command <- returned (getitem msg "command");
        if is_str command "control" then
          do content <- returned (getitem msg "content");
          if is_str content "close" then pure break
          else send_response
        else if is_str command "reload" then
          do new_model_dirs <- returned (getitem msg "content");
          call_reload_model new_model_dirs;;
          do spec <- gets experiment;
          set_response (wrap_message
            {[ "status" := JString "success";
               "info" := JString ("Reloaded model from "
                                  +:+ str_format new_model_dirs);
               "model_info" := model_info spec ]});;
          send_response
        else send_response
    end.

(** The reply of the [except] clause. *)
Definition error_reply : bytes :=
    wrap_message {[ "status" := JString "error" ]}.

(** One iteration of the loop: the [try] block and, for any exception, the
      [except] clause, which leaves the loop when its reply cannot be
      sent. *)
Definition iteration : H flow := λ h,
    match try_block h with
    | (h', Exception _) =>
        match (set_response error_reply;; sendall error_reply) h' with
        | (h'', Value _) => (h'', Value next_iteration)
        | (h'', Exception socket_error) => (h'', Value break)
        | (h'', Exception e) => (h'', Exception e)
        | (h'', Hang) => (h'', Hang)
        end
    | (h', o) => (h', o)
    end.

(** [handle]: the loop, which [fuel] bounds. *)
Fixpoint handle (fuel : nat) : H unit := λ h,
    match fuel with
    | O => (h, Hang)
    | S fuel' =>
        match iteration h with
        | (h', Value next_iteration) => handle fuel' h'
        | (h', Value break) => (h', Value tt)
        | (h', Exception e) => (h', Exception e)
        | (h', Hang) => (h', Hang)
        end
    end.

(** *** The vocabulary of the properties of the handler *)

(** The handler [n] iterations later, when they all go on to the next. *)
Fixpoint iterations (n : nat) (h : handler experiment_spec)
      : option (handler experiment_spec) :=
    match n with
    | O => Some h
    | S n' =>
        match iteration h with
        | (h', Value next_iteration) => iterations n' h'
        | _ => None
        end
    end.

(** The handler once [recv] has returned. *)
Definition has_received (h : handler experiment_spec)
      : handler experiment_spec :=
    mk (S (received h)) (attempts h) (response h) (experiment h).

(** The handler sends [reply] as its response and, if that fails, the
      reply of the [except] clause; it leaves the loop when that fails
      too. *)
Definition answer_with (reply : bytes) (h : handler experiment_spec)
      : handler experiment_spec * outcome flow :=
    let k := length (attempts h) in
    if send_ok k then
      (mk (received h) (attempts h ++ [reply]) (Some reply) (experiment h),
       Value next_iteration)
    else
      (mk (received h) (attempts h ++ [reply; error_reply])
          (Some error_reply) (experiment h),
       Value (if send_ok (S k) then next_iteration else break)).

(** The handler sends the reply of the [except] clause only. *)
Definition answer_error (h : handler experiment_spec)
      : handler experiment_spec * outcome flow :=
    (mk (received h) (attempts h ++ [error_reply]) (Some error_reply)
        (experiment h),
     Value (if send_ok (length (attempts h)) then next_iteration
            else break)).

(** The message in [raw_data] asks to close the connection: its command
      is ["control"] and its content ["close"]. *)
Definition asks_to_close (raw_data : bytes) : Prop :=
    let msg := unwrap_message (bytes_strip raw_data) in
    ∃ command content,
      getitem msg "command" = Value command ∧
      is_str command "control" = true ∧
      getitem msg "content" = Value content ∧
      is_str content "close" = true.

(** The message in [raw_data] has a command, and one that [handle] does not
      act upon: neither ["translate"] nor ["reload"], and ["control"] only
      with a content other than ["close"]. *)
Definition not_understood (raw_data : bytes) : Prop :=
    let msg := unwrap_message (bytes_strip raw_data) in
    ∃ command,
      getitem msg "command" = Value command ∧
      is_str command "translate" = false ∧
      is_str command "reload" = false ∧
      (is_str command "control" = true →
       ∃ content, getitem msg "content" = Value content ∧
                  is_str content "close" = false).

(** The message in [raw_data] asks to translate the text [s]. *)
Definition asks_to_translate (raw_data : bytes) (s : string) : Prop :=
    let msg := unwrap_message (bytes_strip raw_data) in
    ∃ command,
      getitem msg "command" = Value command ∧
      is_str command "translate" = true ∧
      getitem msg "content" = Value (JString s).

(** The reader [preprocess_raw] opens on the text [s]. *)
Definition reader_of (spec : experiment_spec) (s : string)
      : LineReader.self :=
    LineReader_on spec (str_split newline (str_strip s)).

(** The reply to a request to translate, from what [infer] returned. *)
Definition translation_reply (spec : experiment_spec)
      (translated : list string * list string) : bytes :=
    wrap_message
      {[ "status" := JString "success"; "info" := JString "";
         "source" := JString (String.concat newline translated.1);
         "translation" := JString (String.concat newline translated.2);
         "model_info" := model_info spec ]}.
End handler.

Global Arguments H : clear implicits.
End translate_server.

(** ** The client: [web-demo/translate_client.py] *)

Module translate_client.
Import translate_server.

(** The keyword arguments of the message of [NJUNMTClient.close]. *)
Definition close_args : message :=
  {[ "command" := JString "control"; "data" := JString "close" ]}.

Section client.
Context `{world : World experiment_spec}.

(** [bytes(json.dumps(args), encoding="UTF-8")] *)
Definition wrap_message (args : message) : bytes := json_dumps args.

(** What [NJUNMTClient.close] sends. *)
Definition close : bytes := wrap_message close_args.
End client.
End translate_client.

(** ** An instance of the world outside the handler, to run the model *)

(** A codec for a few messages, written as plain words. *)
Definition example_json_loads (json_str : translate_server.bytes)
    : option translate_server.value :=
  let text := translate_server.JString in
  if String.eqb json_str "control close" then
    Some (translate_server.JObject
            {[ "command" := text "control"; "content" := text "close" ]})
  else if String.eqb json_str "control data=close" then
    Some (translate_server.JObject translate_client.close_args)
  else if String.eqb json_str "ping" then
    Some (translate_server.JObject {[ "command" := text "ping" ]})
  else if String.prefix "translate " json_str then
    Some (translate_server.JObject
            {[ "command" := text "translate";
               "content" :=
                 text (String.substring 10 (String.length json_str - 10)
                                        json_str) ]})
  else None.

Definition example_json_dumps (args : translate_server.message)
    : translate_server.bytes :=
  match args !! "status", args !! "translation", args !! "data" with
  | Some (translate_server.JString status),
    Some (translate_server.JString translation), _ =>
      status +:+ ": " +:+ translation
  | Some (translate_server.JString status), _, _ => status
  | _, _, Some (translate_server.JString data) => "control data=" +:+ data
  | _, _, _ => "?"
  end.

(** [s.split(sep)] for a separator of one character. *)
Fixpoint split_on (sep : Ascii.ascii) (s : string) (word : string)
    : list string :=
  match s with
  | EmptyString => [String.rev word]
  | String c s' =>
      if Ascii.eqb c sep then String.rev word :: split_on sep s' EmptyString
      else split_on sep s' (String c word)
  end.

Definition example_str_split (sep s : string) : list string :=
  match sep with
  | String c EmptyString => split_on c s EmptyString
  | _ => [s]
  end.

(** A vocabulary that encodes a line as one token, its length; the empty
    line is malformed. *)
Definition example_LineReader_on (spec : nat) (lines : list string)
    : LineReader.self :=
  LineReader.open
    ((λ line, if String.eqb line "" then None
              else Some [Z.of_nat (String.length line)]) <$> lines).

(** A model that translates a sentence of one token [n] into [<n>]. *)
Definition example_infer (spec : nat)
    (feeding_data : translate_server.infer_data)
    : nat * option (list string * list string) :=
  let sentences :=
    match feeding_data with
    | inl dt => ids_under Constants.FEATURE_NAME_PREFIX dt
    | inr data =>
        concat (ids_under Constants.FEATURE_NAME_PREFIX <$> data)
    end in
  (spec,
   Some ((λ s, pretty (length s)) <$> sentences,
         (λ s, "<" +:+ pretty (default 0 (head s)) +:+ ">") <$> sentences)).

(** A world to run the handler in: the experiment is the number of the
    model in use, batches hold [batch_size] sentences on one device, and the
    peer sends [requests] and takes every reply but those numbered in
    [refused]. *)
Definition example_world (batch_size : option Z)
    (requests : list translate_server.bytes) (refused : list nat)
    : translate_server.World nat := {|
  translate_server.json_loads := example_json_loads;
  translate_server.json_dumps := example_json_dumps;
  translate_server.str_strip := id;
  translate_server.str_split := example_str_split;
  translate_server.str_format := λ _, "models";
  translate_server.pad_id := λ _, 0;
  translate_server.batch_size := λ _, batch_size;
  translate_server.input_fields := λ _, example_slots 1;
  translate_server.model_info :=
    λ spec, translate_server.JString (pretty spec);
  translate_server.LineReader_on := example_LineReader_on;
  translate_server.infer := example_infer;
  translate_server.reload_model := λ spec _, (S spec, true);
  translate_server.recv_data := λ k, requests !! k;
  translate_server.send_ok := λ k, bool_decide (k ∉ refused);
|}.
(** * Properties *)

(** ** Python lists *)

Section gather_lemmas.
Context {A : Type}.
Implicit Types (l : list A) (idx : list nat).

Lemma gather_Forall2 l idx l' :
    gather l idx = Ok l' ↔ Forall2 (λ i x, l !! i = Some x) idx l'.
Proof.
    revert l'. induction idx as [|i idx IH]; intros l'; simpl.
    - split.
      + intros [= <-]. constructor.
      + intros H. inversion H. done.
    - destruct (l !! i) as [x|] eqn:Hi.
      + destruct (gather l idx) as [r|e] eqn:Hg; simpl.
        * split.
          -- intros [= <-]. constructor; [done|]. by apply IH.
          -- intros H. inversion H as [|? y ? r' Hy Hr]; subst.
             apply IH in Hr. simplify_eq. done.
        * split; [done|].
          intros H. inversion H as [|? y ? r' Hy Hr]; subst.
          apply IH in Hr. done.
      + split; [done|]. intros H. inversion H; simplify_eq.
Qed.

Lemma gather_omap l idx l' :
    gather l idx = Ok l' → l' = omap (λ i, l !! i) idx.
Proof.
    rewrite gather_Forall2. induction 1 as [|i x idx l' Hi _ IH]; [done|].
    simpl. rewrite Hi. simpl. by f_equal.
Qed.

Lemma gather_length l idx l' : gather l idx = Ok l' → length l' = length idx.
Proof. rewrite gather_Forall2. intros H. symmetry. by eapply Forall2_length. Qed.

Lemma gather_in_range l idx :
    Forall (λ i, i < length l)%nat idx → ∃ l', gather l idx = Ok l'.
Proof.
    induction 1 as [|i idx Hi _ [l' IH]]; simpl; [by eexists|].
    apply lookup_lt_is_Some in Hi as [x ->]. rewrite IH. by eexists.
Qed.

Lemma gather_only_raises_IndexError l idx e :
    gather l idx = Raise e → e = IndexError.
Proof.
    induction idx as [|i idx IH]; simpl; [done|].
    destruct (l !! i); [|by intros [= <-]].
    destruct (gather l idx); simpl; [done|]. intros [= <-]. by apply IH.
Qed.

Lemma omap_lookup_seq l : omap (λ i, l !! i) (seq 0 (length l)) = l.
Proof.
    induction l as [|x l IH] using rev_ind; [done|].
    rewrite length_app. simpl. rewrite Nat.add_1_r, seq_S, omap_app. simpl.
    rewrite lookup_app_r, Nat.sub_diag by lia. simpl.
    f_equal. rewrite <-IH at 2. apply list_omap_ext.
    apply Forall_Forall2_diag, Forall_forall. intros i Hi.
    apply elem_of_seq in Hi. rewrite lookup_app_l by lia. done.
Qed.

Lemma gather_Permutation l idx l' :
    idx ≡ₚ seq 0 (length l) → gather l idx = Ok l' → l' ≡ₚ l.
Proof.
    intros Hp Hg. rewrite (gather_omap _ _ _ Hg), Hp. by rewrite omap_lookup_seq.
Qed.
End gather_lemmas.

Lemma Permutation_seq_in_range (idx : list nat) n :
  idx ≡ₚ seq 0 n → Forall (λ i, i < n)%nat idx.
Proof.
  intros Hp. apply Forall_forall. intros i Hi.
  rewrite Hp in Hi. apply elem_of_seq in Hi. lia.
Qed.

(** ** [do_bucketing] *)

Section do_bucketing_correct.
Context (argsort : list nat → list nat).
Context {A B : Type}.
Implicit Types (pivot : list (list A)) (args : list (list B)).
Implicit Types (tidx : list nat).

Lemma gather_each_Forall2 args tidx _args :
    gather_each args tidx = Ok _args ↔
    Forall2 (λ ele _ele, Forall2 (λ i y, ele !! i = Some y) tidx _ele)
            args _args.
Proof.
    revert _args. induction args as [|ele args IH]; intros _args; simpl.
    - split.
      + intros [= <-]. constructor.
      + intros H. inversion H. done.
    - destruct (gather ele tidx) as [_ele|e] eqn:Hg; simpl.
      + destruct (gather_each args tidx) as [r|e] eqn:Hr; simpl.
        * split.
          -- intros [= <-]. constructor; [by apply gather_Forall2|].
             by apply (proj1 (IH r)).
          -- intros H. inversion H as [|? y ? r' Hy Hr']; subst.
             apply gather_Forall2 in Hy. apply (proj2 (IH r')) in Hr'.
             congruence.
        * split; [done|].
          intros H. inversion H as [|? y ? r' Hy Hr']; subst.
          apply (proj2 (IH r')) in Hr'. congruence.
      + split; [done|].
        intros H. inversion H as [|? y ? r' Hy Hr']; subst.
        apply gather_Forall2 in Hy. congruence.
Qed.

Lemma gather_each_in_range args tidx :
    Forall (λ ele, Forall (λ i, i < length ele)%nat tidx) args →
    ∃ _args, gather_each args tidx = Ok _args.
Proof.
    induction 1 as [|ele args Hele _ [_args IH]]; simpl; [by eexists|].
    destruct (gather_in_range ele tidx Hele) as [_ele ->]. simpl.
    rewrite IH. simpl. by eexists.
Qed.

Lemma fmap_length_omap_lookup pivot tidx :
    length <$> omap (λ i, pivot !! i) tidx
    = omap (λ i, (length <$> pivot) !! i) tidx.
Proof.
    induction tidx as [|i tidx IH]; [done|]. csimpl.
    rewrite list_lookup_fmap. destruct (pivot !! i); csimpl; by rewrite IH.
Qed.

Lemma Sorted_by_length pivot :
    Sorted le (length <$> pivot) →
    Sorted (λ s t, length s ≤ length t)%nat pivot.
Proof.
    induction pivot as [|s pivot IH]; [constructor|].
    simpl. inversion_clear 1 as [|?? Hs Hhd]. constructor; [by apply IH|].
    destruct pivot; [constructor|]. simpl in Hhd.
    inversion_clear Hhd. by constructor.
Qed.

(** C4, as amended: when numpy's [argsort] keeps its contract on the lengths
      of [pivot], [do_bucketing] returns; [_pivot] is [pivot] read through one
      index array that is a permutation of the positions, every list of
      [args] is read through the same index array, [_pivot] is in
      non-decreasing order of length, and every output is a rearrangement of
      its input, of the same length.  Being a function of its arguments, the
      model has no effect on them.  Nothing is said on the order of elements
      of equal length. *)
Theorem do_bucketing_sorts_by_one_permutation pivot args :
    is_argsort (length <$> pivot) (argsort (length <$> pivot)) →
    Forall (λ ele, length ele = length pivot) args →
    ∃ tidx _pivot _args,
      do_bucketing argsort pivot args = Ok (_pivot, _args) ∧
      tidx ≡ₚ seq 0 (length pivot) ∧
      Forall2 (λ i x, pivot !! i = Some x) tidx _pivot ∧
      Forall2 (λ ele _ele, Forall2 (λ i y, ele !! i = Some y) tidx _ele)
              args _args ∧
      Sorted (λ s t, length s ≤ length t)%nat _pivot ∧
      _pivot ≡ₚ pivot ∧ length _pivot = length pivot ∧
      Forall2 (λ ele _ele, _ele ≡ₚ ele ∧ length _ele = length ele)
              args _args.
Proof.
    intros [Hperm Hsorted] Hargs. rewrite length_fmap in Hperm.
    set (tidx := argsort (length <$> pivot)) in *.
    pose proof (Permutation_seq_in_range _ _ Hperm) as Hrange.
    destruct (gather_in_range pivot tidx Hrange) as [_pivot Hp].
    destruct (gather_each_in_range args tidx) as [_args Ha].
    { eapply Forall_impl; [exact Hargs|]. intros ele ->. exact Hrange. }
    exists tidx, _pivot, _args. unfold do_bucketing. fold tidx.
    rewrite Hp, Ha. simpl. split; [done|]. split; [done|].
    split; [by apply gather_Forall2|].
    split; [by apply gather_each_Forall2|].
    split.
    { apply Sorted_by_length.
      by rewrite (gather_omap _ _ _ Hp), fmap_length_omap_lookup. }
    split; [by eapply gather_Permutation|].
    split; [by rewrite (gather_length _ _ _ Hp), Hperm, length_seq|].
    apply gather_each_Forall2 in Ha.
    induction Ha as [|ele _ele args _args Hele _ IH]; [constructor|].
    inversion_clear Hargs as [|?? Hlen Hargs']. constructor; [|by apply IH].
    apply gather_Forall2 in Hele. split.
    - eapply gather_Permutation; [|done]. by rewrite Hlen.
    - by rewrite (gather_length _ _ _ Hele), Hperm, length_seq.
Qed.
End do_bucketing_correct.

Lemma do_bucketing_sorts_by_one_permutation_witness :
  ∃ tidx _pivot _args,
    do_bucketing argsort_ties_first [[5; 5; 5]; [6]; [7; 7]] [[1; 2; 3]]
    = Ok (_pivot, _args) ∧
    tidx ≡ₚ seq 0 3 ∧
    Forall2 (λ i x, [[5; 5; 5]; [6]; [7; 7]] !! i = Some x) tidx _pivot ∧
    Forall2 (λ ele _ele, Forall2 (λ i y, ele !! i = Some y) tidx _ele)
            [[1; 2; 3]] _args ∧
    Sorted (λ s t, length s ≤ length t)%nat _pivot ∧
    _pivot ≡ₚ [[5; 5; 5]; [6]; [7; 7]] ∧ length _pivot = 3%nat ∧
    Forall2 (λ ele _ele, _ele ≡ₚ ele ∧ length _ele = length ele)
            [[1; 2; 3]] _args.
Proof.
  apply (do_bucketing_sorts_by_one_permutation argsort_ties_first
           [[5; 5; 5]; [6]; [7; 7]] [[1; 2; 3]]).
  - compute_done.
  - repeat constructor.
Defined.

(** C4, as stated, fails: the index sort is not stable.  On a pivot whose
    sequences have the lengths 3, 2, 1 and 1, numpy's default [argsort]
    returns the index array 3, 2, 1, 0, which is the one [argsort_ties_last]
    computes on these keys.  It is within the contract, and [do_bucketing]
    returns the two sequences of length one in the reverse of their original
    order, in the pivot and in the other list alike. *)
Lemma do_bucketing_not_stable :
  argsort_ties_last (length <$> [[5; 5; 5]; [6; 6]; [7]; [8]])
  = [3; 2; 1; 0]%nat ∧
  is_argsort (length <$> [[5; 5; 5]; [6; 6]; [7]; [8]])
             (argsort_ties_last (length <$> [[5; 5; 5]; [6; 6]; [7]; [8]])) ∧
  do_bucketing argsort_ties_last [[5; 5; 5]; [6; 6]; [7]; [8]]
               [[[1]; [2]; [3]; [4]]]
  = Ok ([[8]; [7]; [6; 6]; [5; 5; 5]], [[[4]; [3]; [2]; [1]]]) ∧
  ¬ stable_index (length <$> [[5; 5; 5]; [6; 6]; [7]; [8]])
                 (argsort_ties_last
                    (length <$> [[5; 5; 5]; [6; 6]; [7]; [8]])).
Proof.
  split; [|split; [|split]].
  - reflexivity.
  - compute_done.
  - reflexivity.
  - intros Hstable.
    specialize (Hstable 0 1 3 2)%nat. vm_compute in Hstable.
    specialize (Hstable ltac:(lia) eq_refl eq_refl eq_refl). lia.
Qed.

(** ** Slices *)

Section slice_lemmas.
Context {A : Type}.
Implicit Types (l : list A).

Lemma slice_bound_of_nat n (a : nat) :
  slice_bound n (Z.of_nat a) = (a `min` n)%nat.
Proof. unfold slice_bound. case_decide; [lia|]. by rewrite Nat2Z.id. Qed.

Lemma slice_bound_nonneg n (i : Z) :
  0 ≤ i → slice_bound n i = (Z.to_nat i `min` n)%nat.
Proof. intros. unfold slice_bound. case_decide; [lia|done]. Qed.

Lemma slice_bound_le n (i : Z) : (slice_bound n i ≤ n)%nat.
Proof. unfold slice_bound. case_decide; lia. Qed.

Lemma py_slice_of_nat l (a b : nat) :
  py_slice l (Z.of_nat a) (Z.of_nat b) = take (b - a) (drop a l).
Proof.
  unfold py_slice. rewrite !slice_bound_of_nat.
  destruct (decide (a ≤ length l)%nat).
  - rewrite (Nat.min_l a) by done.
    destruct (decide (b ≤ length l)%nat).
    + by rewrite (Nat.min_l b).
    + rewrite (Nat.min_r b) by lia.
      rewrite !take_ge; [done|rewrite length_drop; lia..].
  - rewrite (Nat.min_r a) by lia.
    rewrite !drop_ge by lia. by rewrite !take_nil.
Qed.

Lemma py_prefix_nonneg l (b : Z) : 0 ≤ b → py_prefix l b = take (Z.to_nat b) l.
Proof.
  intros. unfold py_prefix. rewrite slice_bound_nonneg by done.
  destruct (decide (Z.to_nat b ≤ length l)%nat).
  - by rewrite Nat.min_l.
  - rewrite Nat.min_r by lia. by rewrite !take_ge by lia.
Qed.

Lemma py_del_prefix_nonneg l (b : Z) :
  0 ≤ b → py_del_prefix l b = drop (Z.to_nat b) l.
Proof.
  intros. unfold py_del_prefix. rewrite slice_bound_nonneg by done.
  destruct (decide (Z.to_nat b ≤ length l)%nat).
  - by rewrite Nat.min_l.
  - rewrite Nat.min_r by lia. by rewrite !drop_ge by lia.
Qed.

Lemma py_prefix_del_prefix l (b : Z) : py_prefix l b ++ py_del_prefix l b = l.
Proof. apply take_drop. Qed.

Lemma py_prefix_length l (b : Z) :
  length (py_prefix l b) = slice_bound (length l) b.
Proof.
  unfold py_prefix. rewrite length_take. pose proof (slice_bound_le (length l) b).
  lia.
Qed.
End slice_lemmas.

(** ** The device partition of [pack_feed_dict] *)

Section device_partition_proofs.
Local Open Scope nat_scope.
Import Constants.
Context (input_fields : list (gmap string placeholder)).
Implicit Types (d : list Sequence) (dt : batch_record).



Lemma slot_block_length d per i :
  length (slot_block d per i) = slot_count (length d) per i.
Proof. unfold slot_block, slot_count. rewrite length_take, length_drop. lia. Qed.

Lemma n_samples_per_gpu_is_ceil B D :
  1 ≤ D →
  B ≤ n_samples_per_gpu_of B D * D ∧
  ∀ q, B ≤ q * D → n_samples_per_gpu_of B D ≤ q.
Proof.
  intros HD. unfold n_samples_per_gpu_of.
  pose proof (Nat.div_mod_eq B D) as Hdm.
  pose proof (Nat.mod_upper_bound B D ltac:(lia)) as Hmod.
  set (q0 := B / D) in *. set (r0 := B mod D) in *.
  case_decide as Hr.
  - split; [nia|]. intros q Hq.
    destruct (decide (q0 + 1 ≤ q)); [done|]. exfalso.
    assert (q ≤ q0) as Hle by lia.
    assert (q * D ≤ q0 * D) by (apply Nat.mul_le_mono_r; lia). lia.
  - split; [nia|]. intros q Hq.
    destruct (decide (q0 ≤ q)); [done|]. exfalso.
    assert (q + 1 ≤ q0) as Hle by lia.
    assert ((q + 1) * D ≤ q0 * D) by (apply Nat.mul_le_mono_r; lia). lia.
Qed.

Lemma sum_slot_counts_past B per k a :
  B ≤ a * per → sum_list (slot_count B per <$> seq a k) = 0.
Proof.
  revert a. induction k as [|k IH]; intros a Ha; csimpl; [done|].
  rewrite IH by (rewrite Nat.mul_succ_l; lia). unfold slot_count. lia.
Qed.

Lemma sum_slot_counts B per k a :
  a * per ≤ B →
  sum_list (slot_count B per <$> seq a k) = (B - a * per) `min` (k * per).
Proof.
  revert a. induction k as [|k IH]; intros a Ha; csimpl; [lia|].
  unfold slot_count at 1.
  destruct (decide (S a * per ≤ B)) as [Hle|Hgt].
  - rewrite IH by done. rewrite Nat.mul_succ_l in *. lia.
  - rewrite sum_slot_counts_past by lia. rewrite Nat.mul_succ_l in *. lia.
Qed.

Lemma concat_slot_blocks d per k a :
  concat (slot_block d per <$> seq a k) = take (k * per) (drop (a * per) d).
Proof.
  revert a. induction k as [|k IH]; intros a; csimpl; [done|].
  rewrite IH. unfold slot_block. rewrite <-take_take_drop, drop_drop.
  do 3 f_equal. lia.
Qed.





Lemma feed_batchs_run n d p per i inpf ki kl dt :
  inpf !! concat_name n IDS_NAME = Some ki →
  inpf !! concat_name n LENGTH_NAME = Some kl →
  _feed_batchs n d p (length d) per i inpf dt
  = (if decide (length d ≤ i * per) then dt
     else set_feed kl (slot_lengths d per i)
            (set_feed ki (slot_ids d p per i) dt),
     Ok (slot_count (length d) per i)).
Proof.
  intros Hki Hkl. unfold _feed_batchs.
  case_decide as Hle.
  - unfold ret, slot_count. do 2 f_equal. lia.
  - rewrite py_slice_of_nat.
    replace ((i + 1) * per - i * per) with per by lia.
    fold (slot_block d per i).
    unfold padding_batch_data, bind, lift, modify, ret, getitem.
    rewrite Hki, Hkl. simpl.
    by rewrite length_fmap, slot_block_length.
Qed.

Lemma repeat_feed_batchs n d p per fs a dt :
  Forall (has_placeholders n) fs →
  ∃ dt',
    repeat_n_times (length fs) (_feed_batchs n d p (length d) per)
                   (seq a (length fs)) fs dt
    = (dt', Ok (slot_count (length d) per <$> seq a (length fs))) ∧
    data_ids dt' = data_ids dt ∧
    parallels dt' = parallels dt ∧
    (∀ k v, feed_dict dt' !! k = Some v →
            feed_dict dt !! k = Some v ∨ fed_by n d p per a fs k v) ∧
    (∀ k, k ∉ fs ≫= slot_placeholders n →
          feed_dict dt' !! k = feed_dict dt !! k) ∧
    (NoDup (fs ≫= slot_placeholders n) →
     ∀ k v, fed_by n d p per a fs k v → feed_dict dt' !! k = Some v).
Proof.
  intros Hfs. revert a dt.
  induction Hfs as [|inpf fs [[ki Hki] [kl Hkl]] _ IH]; intros a dt.
  - exists dt. simpl. do 3 (split; [done|]). split; [by left|].
    split; [done|].
    intros _ k v (j & inpf & Hj & _). by rewrite lookup_nil in Hj.
  - simpl. unfold bind at 1. rewrite (feed_batchs_run _ _ _ _ _ _ _ _ _ Hki Hkl).
    set (dt1 := if decide (length d ≤ a * per) then dt else _).
    destruct (IH (S a) dt1) as (dt' & Hrun & Hids & Hpar & Hfrom & Hkeep & Hfed).
    exists dt'. unfold bind at 1. rewrite Hrun. unfold ret.
    assert (data_ids dt1 = data_ids dt ∧ parallels dt1 = parallels dt)
      as [Hids1 Hpar1] by (unfold dt1; by case_decide).
    split; [done|]. split; [congruence|]. split; [congruence|].
    assert (slot_placeholders n inpf = [ki; kl]) as Hbind.
    { unfold slot_placeholders. by rewrite Hki, Hkl. }
    split; [|split].
    + intros k v Hk. destruct (Hfrom k v Hk) as [Hk1|(j & f & Hj & Hlt & Hv)].
      * unfold dt1 in Hk1. case_decide as Hle; [by left|]. simpl in Hk1.
        destruct (decide (k = kl)) as [->|Hne1].
        { rewrite lookup_insert_eq in Hk1. right. exists 0, inpf.
          rewrite Nat.add_0_r. split; [done|]. split; [lia|].
          right. split; congruence. }
        rewrite lookup_insert_ne in Hk1 by done.
        destruct (decide (k = ki)) as [->|Hne2].
        { rewrite lookup_insert_eq in Hk1. right. exists 0, inpf.
          rewrite Nat.add_0_r. split; [done|]. split; [lia|].
          left. split; congruence. }
        rewrite lookup_insert_ne in Hk1 by done. by left.
      * right. exists (S j), f. rewrite <-Nat.add_succ_comm. done.
    + intros k Hk. rewrite Hbind in Hk. simpl in Hk.
      apply not_elem_of_cons in Hk as [Hne1 Hk].
      apply not_elem_of_cons in Hk as [Hne2 Hk].
      rewrite (Hkeep k Hk). unfold dt1. case_decide; [done|]. simpl.
      by rewrite !lookup_insert_ne.
    + intros Hnd k v (j & f & Hj & Hlt & Hv). rewrite Hbind in Hnd.
      simpl in Hnd. apply NoDup_cons in Hnd as [Hki_notin Hnd].
      apply NoDup_cons in Hnd as [Hkl_notin Hnd].
      apply not_elem_of_cons in Hki_notin as [Hne Hki_notin].
      destruct j as [|j].
      * simpl in Hj. injection Hj as <-. rewrite Nat.add_0_r in Hlt, Hv.
        assert (k ∉ fs ≫= slot_placeholders n) as Hk.
        { destruct Hv as [[Hk _]|[Hk _]].
          - assert (k = ki) as -> by congruence. done.
          - assert (k = kl) as -> by congruence. done. }
        rewrite (Hkeep k Hk). unfold dt1. rewrite decide_False by lia. simpl.
        destruct Hv as [[Hk' ->]|[Hk' ->]].
        -- assert (k = ki) as -> by congruence.
           rewrite lookup_insert_ne by done.
           by rewrite lookup_insert_eq.
        -- assert (k = kl) as -> by congruence. by rewrite lookup_insert_eq.
      * apply (Hfed Hnd). exists j, f. rewrite Nat.add_succ_comm. done.
Qed.

(** One call of [map_fn] on a batch of [B] sequences. *)
Lemma map_fn_run n d p dt :
  1 ≤ length input_fields →
  Forall (has_placeholders n) input_fields →
  let per := n_samples_per_gpu_of (length d) (length input_fields) in
  ∃ dt',
    map_fn input_fields n d p dt = (dt', Ok ()) ∧
    data_ids dt' = <[concat_name n IDS_NAME := d]> (data_ids dt) ∧
    parallels dt'
    = Some (slot_count (length d) per <$> seq 0 (length input_fields)) ∧
    (∀ k v, feed_dict dt' !! k = Some v →
            feed_dict dt !! k = Some v ∨ fed_by n d p per 0 input_fields k v) ∧
    (∀ k, k ∉ input_fields ≫= slot_placeholders n →
          feed_dict dt' !! k = feed_dict dt !! k) ∧
    (NoDup (input_fields ≫= slot_placeholders n) →
     ∀ k v, fed_by n d p per 0 input_fields k v → feed_dict dt' !! k = Some v).
Proof.
  intros HD Hfs per. unfold map_fn.
  unfold bind at 1. unfold modify at 1.
  rewrite decide_False by lia. fold per.
  destruct (repeat_feed_batchs n d p per input_fields 0
              (set_ids (concat_name n IDS_NAME) d dt) Hfs)
    as (dt1 & Hrun & Hids & Hpar & Hfrom & Hkeep & Hfed).
  exists (set_parallels
            (slot_count (length d) per <$> seq 0 (length input_fields)) dt1).
  unfold bind. rewrite Hrun. unfold modify. simpl.
  split; [done|]. split; [by rewrite Hids|]. done.
Qed.

(** C6: for every batch of [B] sequences and every non-empty list of [D]
    device slots that hold the placeholders, [pack_feed_dict] returns a batch
    record whose [parallels] field lists one count per slot; with
    [per = ceil(B/D)], slot [i] gets the block of the sequences at positions
    [i*per .. i*per + per - 1] that exist; the blocks in slot order make up
    the batch; a slot gets [per] sequences unless it is a trailing one, and
    after a slot with fewer than [per] all slots get none; the counts add up
    to [B]; and every entry of the feed dictionary is the padded block or the
    length vector of a slot that got at least one sequence.  When the
    placeholders are all distinct, every such slot is fed its own block. *)
Theorem device_partition n d p :
  let D := length input_fields in
  let B := length d in
  let per := n_samples_per_gpu_of B D in
  1 ≤ D →
  Forall (has_placeholders n) input_fields →
  ∃ dt,
    pack_feed_dict input_fields [(n, d, p)] = Ok dt ∧
    (B ≤ per * D ∧ ∀ q, B ≤ q * D → per ≤ q) ∧
    parallels dt = Some (slot_count B per <$> seq 0 D) ∧
    (∀ i, length (slot_block d per i) = slot_count B per i) ∧
    concat (slot_block d per <$> seq 0 D) = d ∧
    (∀ i, i < D →
       slot_count B per i = per
       ∨ (slot_count B per i < per ∧ ∀ j, i < j → slot_count B per j = 0)) ∧
    sum_list (slot_count B per <$> seq 0 D) = B ∧
    (∀ k v, feed_dict dt !! k = Some v → fed_by n d p per 0 input_fields k v) ∧
    (NoDup (input_fields ≫= slot_placeholders n) →
     ∀ k v, fed_by n d p per 0 input_fields k v → feed_dict dt !! k = Some v).
Proof.
  intros D B per HD Hfs.
  destruct (map_fn_run n d p empty_data HD Hfs)
    as (dt & Hrun & Hids & Hpar & Hfrom & _ & Hfed).
  destruct (n_samples_per_gpu_is_ceil B D HD) as [Hceil Hleast].
  fold D B per in Hpar, Hfrom, Hfed, Hceil, Hleast.
  exists dt. unfold pack_feed_dict. simpl. unfold bind. rewrite Hrun. simpl.
  split; [done|]. split; [done|]. split; [done|].
  split; [intros i; apply slot_block_length|].
  split.
  { rewrite concat_slot_blocks. change (drop (0 * per) d) with d.
    rewrite take_ge; [done|]. unfold B in Hceil. lia. }
  split.
  { intros i Hi. unfold slot_count.
    destruct (decide (per ≤ B - i * per)); [left; lia|right].
    split; [lia|]. intros j Hj.
    assert (S i * per ≤ j * per) by (apply Nat.mul_le_mono_r; lia).
    rewrite Nat.mul_succ_l in *. lia. }
  split.
  { rewrite sum_slot_counts by lia. lia. }
  split; [|done].
  intros k v Hk. destruct (Hfrom k v Hk) as [Hk0|?]; [|done].
  simpl in Hk0. by rewrite lookup_empty in Hk0.
Qed.
End device_partition_proofs.

Lemma device_partition_witness :
  ∃ dt,
    pack_feed_dict (example_slots 3)
      [("feature", [[1]; [2; 2]; [3]; [4; 4; 4]], 0)] = Ok dt ∧
    parallels dt = Some [2; 2; 0]%nat ∧
    feed_dict dt !! "feature_ids_1" = Some (Padded [[3; 0; 0]; [4; 4; 4]]) ∧
    feed_dict dt !! "feature_ids_2" = None.
Proof.
  destruct (device_partition (example_slots 3)
              "feature" [[1]; [2; 2]; [3]; [4; 4; 4]] 0)
    as (dt & Hrun & _ & Hpar & _).
  - simpl. lia.
  - repeat constructor; by eexists.
  - exists dt. split; [exact Hrun|]. split; [exact Hpar|].
    vm_compute in Hrun. injection Hrun as <-. split; reflexivity.
Defined.

(** ** The token-budget growth of the batch *)

Section token_budget.
Import ParallelTextInputter._BigParallelDataIterator.
Implicit Types (features_len_buffer labels_len_buffer : list nat).


Lemma numpy_sum_app (l k : list nat) :
  numpy_sum (l ++ k) = numpy_sum l + numpy_sum k.
Proof. unfold numpy_sum. induction l as [|x l IH]; simpl; lia. Qed.

Lemma numpy_sum_take_S (l : list nat) n x :
  l !! n = Some x → numpy_sum (take (S n) l) = numpy_sum (take n l) + Z.of_nat x.
Proof.
  intros Hx. rewrite (take_S_r _ _ _ Hx), numpy_sum_app.
  unfold numpy_sum. simpl. lia.
Qed.

Lemma py_index_of_nat {A} (l : list A) (n : nat) x :
  l !! n = Some x → py_index l (Z.of_nat n) = Ok x.
Proof.
  intros Hx. unfold py_index.
  destruct (decide (Z.of_nat n < 0)) as [|_]; [lia|].
  rewrite decide_False by lia. by rewrite Nat2Z.id, Hx.
Qed.

Lemma grow_loop_run features_len_buffer labels_len_buffer T fuel (n : nat) :
  length labels_len_buffer = length features_len_buffer →
  (length features_len_buffer - n ≤ fuel)%nat →
  ∃ n' : nat,
    grow_loop fuel features_len_buffer labels_len_buffer T
      (numpy_sum (take n features_len_buffer))
      (numpy_sum (take n labels_len_buffer)) (Z.of_nat n)
    = Ok (Z.of_nat n') ∧
    (n ≤ n')%nat ∧
    (∀ m, (n ≤ m < n')%nat →
          may_grow features_len_buffer labels_len_buffer T m) ∧
    ¬ may_grow features_len_buffer labels_len_buffer T n'.
Proof.
  intros Hlen. revert n. induction fuel as [|fuel IH]; intros n Hfuel.
  - exists n. simpl. unfold may_grow.
    repeat case_decide; try (exfalso; lia);
      (split; [done|]); (split; [done|]); (split; [intros; lia|]); lia.
  - simpl. unfold may_grow.
    repeat case_decide; try (exists n; (split; [done|]); (split; [done|]);
                             (split; [intros; lia|]); lia).
    destruct (lookup_lt_is_Some_2 features_len_buffer n ltac:(lia)) as [s Hs].
    destruct (lookup_lt_is_Some_2 labels_len_buffer n ltac:(lia)) as [t Ht].
    rewrite (py_index_of_nat _ _ _ Hs), (py_index_of_nat _ _ _ Ht). simpl.
    rewrite <-(numpy_sum_take_S _ _ _ Hs), <-(numpy_sum_take_S _ _ _ Ht).
    replace (Z.of_nat n + 1) with (Z.of_nat (S n)) by lia.
    destruct (IH (S n) ltac:(lia)) as (n' & Hrun & Hle & Hgrow & Hstop).
    exists n'. split; [done|]. split; [lia|]. split; [|done].
    intros m Hm. destruct (decide (m = n)) as [->|]; [|apply Hgrow; lia].
    unfold may_grow. lia.
Qed.

(** C3: when [batch_tokens_size] is configured, [local_batch_size] starts at
    [batch_size] and grows by one exactly as long as both running sums, taken
    over the pairs already in, are strictly below [batch_tokens_size], both
    margins are at least 20, and the buffer holds a further pair.  The pair
    that was added last may take a sum over [batch_tokens_size]: a buffer with
    lengths 10 and 95 under a budget of 100 gives a batch of 105 tokens. *)
Theorem token_budget_growth features_len_buffer labels_len_buffer
    (batch_size batch_tokens_size : Z) :
  length labels_len_buffer = length features_len_buffer →
  0 ≤ batch_size →
  (∃ local_batch_size : nat,
     local_batch_size_of features_len_buffer labels_len_buffer
                         batch_size (Some batch_tokens_size)
     = Ok (Z.of_nat local_batch_size) ∧
     (Z.to_nat batch_size ≤ local_batch_size)%nat ∧
     (∀ m, (Z.to_nat batch_size ≤ m < local_batch_size)%nat →
           may_grow features_len_buffer labels_len_buffer
                    batch_tokens_size m) ∧
     ¬ may_grow features_len_buffer labels_len_buffer batch_tokens_size
                local_batch_size) ∧
  (local_batch_size_of [10; 95]%nat [1; 1]%nat 1 (Some 100) = Ok 2 ∧
   100 < numpy_sum (take 2 [10; 95]%nat)).
Proof.
  intros Hlen Hbs. split; [|by split].
  unfold local_batch_size_of.
  rewrite !py_prefix_nonneg by done.
  assert (batch_size = Z.of_nat (Z.to_nat batch_size)) as Hn by lia.
  set (n := Z.to_nat batch_size) in *. clearbody n. subst batch_size.
  apply grow_loop_run; [done|lia].
Qed.

Lemma token_budget_growth_witness :
  ∃ local_batch_size : nat,
    local_batch_size_of [10; 10; 10; 10; 10; 10; 10; 10; 10; 10; 90]%nat
                        [10; 10; 10; 10; 10; 10; 10; 10; 10; 10; 90]%nat
                        1 (Some 100)
    = Ok (Z.of_nat local_batch_size) ∧ local_batch_size = 9%nat.
Proof.
  destruct (token_budget_growth
              [10; 10; 10; 10; 10; 10; 10; 10; 10; 10; 90]%nat
              [10; 10; 10; 10; 10; 10; 10; 10; 10; 10; 90]%nat 1 100)
    as [(n & Hrun & _) _]; [reflexivity|lia|].
  exists n. split; [exact Hrun|].
  assert (local_batch_size_of
            [10; 10; 10; 10; 10; 10; 10; 10; 10; 10; 90]%nat
            [10; 10; 10; 10; 10; 10; 10; 10; 10; 10; 90]%nat 1 (Some 100)
          = Ok 9) as H9 by reflexivity.
  rewrite H9 in Hrun. injection Hrun as Hn. lia.
Defined.
End token_budget.

(** ** The equations of the method monad *)

Section method_equations.
Context {S A B : Type}.

Lemma bind_get (k : S → M S B) s : bind get k s = k s s.
Proof. reflexivity. Qed.

Lemma bind_ret (a : A) (k : A → M S B) s : bind (ret a) k s = k a s.
Proof. reflexivity. Qed.

Lemma bind_modify (f : S → S) (k : unit → M S B) s :
  bind (modify f) k s = k () (f s).
Proof. reflexivity. Qed.

Lemma bind_raise e (k : A → M S B) s : bind (raise e) k s = (s, Raise e).
Proof. reflexivity. Qed.

Lemma bind_lift_Ok (a : A) (k : A → M S B) s : bind (lift (Ok a)) k s = k a s.
Proof. reflexivity. Qed.

Lemma bind_lift_Raise e (k : A → M S B) s :
  bind (lift (Raise e)) k s = (s, Raise e).
Proof. reflexivity. Qed.

Lemma bind_run (m : M S A) (k : A → M S B) s s' a :
  m s = (s', Ok a) → bind m k s = k a s'.
Proof. intros Hm. unfold bind. by rewrite Hm. Qed.

Lemma bind_run_Raise (m : M S A) (k : A → M S B) s s' e :
  m s = (s', Raise e) → bind m k s = (s', Raise e).
Proof. intros Hm. unfold bind. by rewrite Hm. Qed.
End method_equations.

(** ** Which exceptions a method can raise *)

Section raises_only.
Local Open Scope method_scope.
Context (E : exn → Prop).



Lemma only_Ok {A} (a : A) : only E (Ok a).
Proof. by intros e. Qed.

Lemma only_Raise {A} e : E e → only E (@Raise A e).
Proof. intros He e' [= <-]. done. Qed.

Lemma only_bind {A B} (r : result A) (k : A → result B) :
  only E r → (∀ a, only E (k a)) → only E (r ≫= k).
Proof.
  intros Hr Hk e. destruct r as [a|e']; simpl; [apply Hk|].
  intros [= <-]. by apply Hr.
Qed.

Lemma only_fmap {A B} (r : result A) (f : A → B) :
  only E r → only E (f <$> r).
Proof. intros Hr e. destruct r as [a|e']; simpl; [done|]. intros [= <-]. by apply Hr. Qed.

Lemma raises_only_ret {S A} (a : A) : raises_only E (@ret S A a).
Proof. by intros s e. Qed.

Lemma raises_only_raise {S A} e : E e → raises_only E (@raise S A e).
Proof. intros He s e' [= <-]. done. Qed.

Lemma raises_only_get {S} : raises_only E (@get S).
Proof. by intros s e. Qed.

Lemma raises_only_modify {S} (f : S → S) : raises_only E (modify f).
Proof. by intros s e. Qed.

Lemma raises_only_lift {S A} (r : result A) :
  only E r → raises_only E (@lift S A r).
Proof. intros Hr s. exact Hr. Qed.

Lemma raises_only_bind {S A B} (m : M S A) (k : A → M S B) :
  raises_only E m → (∀ a, raises_only E (k a)) → raises_only E (bind m k).
Proof.
  intros Hm Hk s e. unfold bind. specialize (Hm s).
  destruct (m s) as [s' [a|e']]; simpl in *; [apply Hk|].
  intros [= <-]. by apply Hm.
Qed.

Lemma raises_only_when {S} (c : bool) (m : M S unit) :
  raises_only E m → raises_only E (when c m).
Proof. intros Hm. destruct c; [done|]. apply raises_only_ret. Qed.
End raises_only.

Lemma only_impl (E1 E2 : exn → Prop) {A} (r : result A) :
  (∀ e, E1 e → E2 e) → only E1 r → only E2 r.
Proof. intros HE Hr e He. by apply HE, Hr. Qed.

Lemma raises_only_impl (E1 E2 : exn → Prop) {S A} (m : M S A) :
  (∀ e, E1 e → E2 e) → raises_only E1 m → raises_only E2 m.
Proof. intros HE Hm s. eapply only_impl; [done|apply Hm]. Qed.

Create HintDb raises discriminated.
#[export] Hint Resolve only_Ok only_Raise only_bind only_fmap
  raises_only_ret raises_only_raise raises_only_get raises_only_modify
  raises_only_lift raises_only_bind raises_only_when : raises.

(** The steps of a proof that a method raises only what its parts raise. *)
Ltac raises_step :=
  first
    [ apply raises_only_bind; [|intros ?]
    | apply raises_only_ret
    | apply raises_only_get
    | apply raises_only_modify
    | apply raises_only_when
    | apply raises_only_raise
    | apply raises_only_lift
    | apply only_bind; [|intros ?]
    | apply only_fmap
    | apply only_Ok
    | apply only_Raise ].

Section raises_of_the_parts.
Local Open Scope method_scope.
Context (E : exn → Prop).

Lemma raises_only_LineReader_next : raises_only E LineReader.next.
Proof.
  intros r e. unfold LineReader.next.
  by destruct (LineReader.lines r !! LineReader.cursor r) as [[?|]|].
Qed.

Lemma raises_only_LineReader_close : raises_only E LineReader.close.
Proof. by intros r e. Qed.

Lemma raises_only_LineReader_reset rp do_shuffle file index :
  E IndexError → raises_only E (LineReader.reset rp do_shuffle file index).
Proof.
  intros HE r e. unfold LineReader.reset.
  destruct (truthy do_shuffle); [|done].
  destruct index as [index|]; simpl.
  - destruct (gather _ index) eqn:Hg; simpl; [done|].
    intros [= <-]. by apply gather_only_raises_IndexError in Hg as ->.
  - destruct (gather _ _) eqn:Hg; simpl; [done|].
    intros [= <-]. by apply gather_only_raises_IndexError in Hg as ->.
Qed.

Lemma raises_only_on_features_reader {A} (m : M LineReader.self A) :
  raises_only E m → raises_only E (ParallelTextInputter.on_features_reader m).
Proof.
  intros Hm s. unfold ParallelTextInputter.on_features_reader.
  specialize (Hm (ParallelTextInputter._features_reader s)).
  by destruct (m _).
Qed.

Lemma raises_only_on_labels_reader {A} (m : M LineReader.self A) :
  raises_only E m → raises_only E (ParallelTextInputter.on_labels_reader m).
Proof.
  intros Hm s. unfold ParallelTextInputter.on_labels_reader.
  specialize (Hm (ParallelTextInputter._labels_reader s)).
  by destruct (m _).
Qed.

Lemma raises_only_on_kwargs {A} (m : M ParallelTextInputter.self A) :
  raises_only E m →
  raises_only E (ParallelTextInputter._BigParallelDataIterator.on_kwargs m).
Proof.
  intros Hm s. unfold ParallelTextInputter._BigParallelDataIterator.on_kwargs.
  specialize (Hm (ParallelTextInputter._BigParallelDataIterator.kwargs s)).
  by destruct (m _).
Qed.

Lemma only_gather {A} (l : list A) idx : E IndexError → only E (gather l idx).
Proof. intros HE e Hg. by apply gather_only_raises_IndexError in Hg as ->. Qed.

Lemma only_gather_each {A} (args : list (list A)) tidx :
  E IndexError → only E (gather_each args tidx).
Proof.
  intros HE. induction args as [|ele args IH]; simpl; [apply only_Ok|].
  apply only_bind; [by apply only_gather|intros ?].
  apply only_bind; [done|intros ?]. apply only_Ok.
Qed.

Lemma only_py_index {A} (l : list A) i : E IndexError → only E (py_index l i).
Proof.
  intros HE e. unfold py_index. case_decide; [by intros [= <-]|].
  destruct (l !! _); [done|]. by intros [= <-].
Qed.

Lemma only_bucket_pair argsort ss_buf tt_buf :
  E IndexError →
  only E (ParallelTextInputter.bucket_pair argsort ss_buf tt_buf).
Proof.
  intros HE. unfold ParallelTextInputter.bucket_pair, do_bucketing.
  apply only_bind.
  - apply only_bind; [by apply only_gather|intros ?].
    apply only_bind; [by apply only_gather_each|intros ?]. apply only_Ok.
  - intros [tt_buf' ss_bufs].
    apply only_bind; [by apply only_py_index|intros ?]. apply only_Ok.
Qed.

Lemma raises_only_repeat_n_times {S X Y R} times (fn : X → Y → M S R) xs ys :
  E IndexError → (∀ x y, raises_only E (fn x y)) →
  raises_only E (repeat_n_times times fn xs ys).
Proof.
  intros HE Hfn. revert xs ys.
  induction times as [|times IH]; intros xs ys; simpl.
  - apply raises_only_ret.
  - destruct xs as [|x xs]; [by apply raises_only_raise|].
    destruct ys as [|y ys]; [by apply raises_only_raise|].
    repeat raises_step; [apply Hfn|apply IH].
Qed.

Lemma only_getitem {V} (d : gmap string V) key :
  E KeyError → only E (getitem d key).
Proof. intros HE e. unfold getitem. destruct (d !! key); [done|]. by intros [= <-]. Qed.

Lemma raises_only_map_fn input_fields n d p :
  E IndexError → E KeyError → E ZeroDivisionError →
  raises_only E (map_fn input_fields n d p).
Proof.
  intros H1 H2 H3. unfold map_fn.
  raises_step; [raises_step|]. case_decide; [by raises_step|].
  raises_step; [|raises_step].
  apply raises_only_repeat_n_times; [done|]. intros i inpf.
  unfold _feed_batchs. case_decide; [raises_step|].
  destruct (padding_batch_data _ _) as [x x_len].
  repeat raises_step; by apply only_getitem.
Qed.

Lemma only_pack_feed_dict input_fields components :
  E IndexError → E KeyError → E ZeroDivisionError →
  only E (pack_feed_dict input_fields components).
Proof.
  intros H1 H2 H3. unfold pack_feed_dict.
  assert (raises_only E (map_fn_each input_fields components)) as Hm.
  { induction components as [|[[n d] p] cs IH]; simpl; [raises_step|].
    raises_step; [by apply raises_only_map_fn|done]. }
  specialize (Hm empty_data).
  destruct (map_fn_each _ _ _) as [dt [[]|e]]; simpl in *; [apply only_Ok|].
  intros e' [= <-]. by apply Hm.
Qed.
End raises_of_the_parts.

(** ** Configuration errors *)

Section configuration.
Local Open Scope method_scope.
Import ParallelTextInputter.
Context (argsort : list nat → list nat).
Context (random_permutation : nat → nat → list nat).

Lemma raises_only_read_loop E fuel ss_buf tt_buf :
  E Diverge → raises_only E (read_loop fuel ss_buf tt_buf).
Proof.
  intros HE. revert ss_buf tt_buf.
  induction fuel as [|fuel IH]; intros ss_buf tt_buf; simpl.
  - by apply raises_only_raise.
  - raises_step.
    { apply raises_only_on_features_reader, raises_only_LineReader_next. }
    raises_step.
    { apply raises_only_on_labels_reader, raises_only_LineReader_next. }
    destruct (pair_step_of _ _); [raises_step|apply IH..].
Qed.

Lemma only_batch_loop E input_fields this fuel ss_buf tt_buf idx data :
  E Diverge → E IndexError → E KeyError → E ZeroDivisionError →
  only E (batch_loop input_fields this fuel ss_buf tt_buf idx data).
Proof.
  intros H0 H1 H2 H3. revert idx data.
  induction fuel as [|fuel IH]; intros idx data; simpl.
  - case_decide; [by apply only_Raise|apply only_Ok].
  - case_decide; [|apply only_Ok].
    apply only_bind; [by apply only_pack_feed_dict|intros ?]. apply IH.
Qed.

Lemma raises_only_small_parallel_data E input_fields :
  E Diverge → E IndexError → E KeyError → E ZeroDivisionError →
  raises_only E (_small_parallel_data argsort input_fields).
Proof.
  intros H0 H1 H2 H3. unfold _small_parallel_data.
  raises_step; [raises_step|].
  raises_step; [by apply raises_only_read_loop|].
  raises_step.
  { apply raises_only_on_features_reader, raises_only_LineReader_close. }
  raises_step.
  { apply raises_only_on_labels_reader, raises_only_LineReader_close. }
  raises_step.
  { destruct (_bucketing _); [|raises_step].
    by apply raises_only_lift, only_bucket_pair. }
  by apply raises_only_lift, only_batch_loop.
Qed.

End configuration.

(** ** The single-corpus batcher *)

Section single_corpus.
Local Open Scope method_scope.
Import Constants.

(** Reading on from the cursor up to the end of the lines. *)
Lemma LineReader_next_remaining r :
  match LineReader.remaining r with
  | [] => LineReader.next r = (r, Ok EndOfStream)
  | l :: rest =>
      ∃ r', LineReader.next r
            = (r', Ok (if l is Some s then Encoded s else Malformed)) ∧
            LineReader.remaining r' = rest ∧
            LineReader.corpus r' = LineReader.corpus r ∧
            LineReader.lines r' = LineReader.lines r ∧
            LineReader.cursor r' = S (LineReader.cursor r) ∧
            LineReader.closed r' = LineReader.closed r ∧
            LineReader.resets r' = LineReader.resets r ∧
            LineReader.draws r' = LineReader.draws r
  end.
Proof.
  unfold LineReader.remaining, LineReader.next.
  destruct (drop _ _) as [|l rest] eqn:Hdrop.
  - apply drop_nil_inv in Hdrop.
    by rewrite lookup_ge_None_2.
  - assert (LineReader.lines r !! LineReader.cursor r = Some l) as ->.
    { rewrite <-(Nat.add_0_r (LineReader.cursor r)), <-lookup_drop.
      by rewrite Hdrop. }
    assert (drop (S (LineReader.cursor r)) (LineReader.lines r) = rest)
      as Hrest.
    { rewrite <-(Nat.add_1_r (LineReader.cursor r)), <-drop_drop.
      by rewrite Hdrop. }
    destruct l as [s|]; eexists; simpl; done.
Qed.

(** The lines a reader still has to give, without the malformed ones. *)
Lemma TextLineInputter_read_loop_run fuel r ss_buf :
  (length (LineReader.remaining r) < fuel)%nat →
  ∃ r',
    TextLineInputter.read_loop fuel ss_buf r
    = (r', Ok (ss_buf ++ omap id (LineReader.remaining r))) ∧
    LineReader.remaining r' = [] ∧
    LineReader.corpus r' = LineReader.corpus r ∧
    LineReader.lines r' = LineReader.lines r ∧
    LineReader.closed r' = LineReader.closed r ∧
    LineReader.resets r' = LineReader.resets r.
Proof.
  revert r ss_buf. induction fuel as [|fuel IH]; intros r ss_buf Hfuel; [lia|].
  simpl. pose proof (LineReader_next_remaining r) as Hnext.
  destruct (LineReader.remaining r) as [|l rest] eqn:Hrem.
  - exists r. rewrite (bind_run _ _ _ _ _ Hnext). simpl.
    by rewrite app_nil_r.
  - destruct Hnext as (r1 & Hnext & Hrem1 & Hc & Hl & _ & Hcl & Hrs & _).
    rewrite (bind_run _ _ _ _ _ Hnext).
    destruct (IH r1 (if l is Some s then ss_buf ++ [s] else ss_buf))
      as (r' & Hrun & ? & ? & ? & ? & ?).
    { rewrite Hrem1. simpl in Hfuel. lia. }
    exists r'. rewrite Hrem1 in Hrun.
    split; [|repeat split; congruence].
    destruct l as [s|]; simpl; rewrite Hrun; [|done].
    by rewrite <-app_assoc.
Qed.

Lemma pack_feed_dict_single_run input_fields n d p :
  (1 ≤ length input_fields)%nat →
  Forall (has_placeholders n) input_fields →
  ∃ dt, pack_feed_dict input_fields [(n, d, p)] = Ok dt ∧
        data_ids dt = {[concat_name n IDS_NAME := d]}.
Proof.
  intros HD Hfs.
  destruct (map_fn_run input_fields n d p empty_data HD Hfs)
    as (dt & Hrun & Hids & _).
  exists dt. unfold pack_feed_dict. simpl. unfold bind. rewrite Hrun. simpl.
  split; [done|]. by rewrite Hids.
Qed.

Section batches.
Context (this : TextLineInputter.self).
Context (input_fields : list (gmap string placeholder)).
Context (name_prefix : string).
Context (batch_size : nat).
Hypothesis Hbatch_size :
  TextLineInputter._batch_size this = Z.of_nat batch_size.
Hypothesis Hpositive : (1 ≤ batch_size)%nat.
Hypothesis Hdevices : (1 ≤ length input_fields)%nat.
Hypothesis Hplaceholders : Forall (has_placeholders name_prefix) input_fields.

Lemma TextLineInputter_batch_loop_run fuel ss_buf (k : nat) data :
  (length ss_buf - k ≤ fuel)%nat →
  ∃ data',
    TextLineInputter.batch_loop this input_fields name_prefix
      fuel ss_buf (Z.of_nat k) data = Ok (data ++ data') ∧
    (∀ j, (j < length data')%nat ↔ (k + j * batch_size < length ss_buf)%nat) ∧
    (∀ j dt, data' !! j = Some dt →
       data_ids dt
       = {[concat_name name_prefix IDS_NAME
           := take batch_size (drop (k + j * batch_size) ss_buf)]}).
Proof.
  revert k data. induction fuel as [|fuel IH]; intros k data Hfuel; simpl.
  - rewrite decide_False by lia. exists []. rewrite app_nil_r.
    split; [done|]. split; [|by intros j dt; rewrite lookup_nil].
    intros j. simpl. lia.
  - case_decide as Hk.
    + destruct (pack_feed_dict_single_run input_fields name_prefix
                  (py_slice ss_buf (Z.of_nat k)
                            (Z.of_nat k + TextLineInputter._batch_size this))
                  (TextLineInputter._padding_id this) Hdevices Hplaceholders)
        as (dt & -> & Hids).
      simpl. rewrite Hbatch_size in Hids |- *.
      replace (Z.of_nat k + Z.of_nat batch_size)
        with (Z.of_nat (k + batch_size)) in Hids |- * by lia.
      rewrite py_slice_of_nat in Hids.
      replace (k + batch_size - k)%nat with batch_size in Hids by lia.
      destruct (IH (k + batch_size)%nat (data ++ [dt]) ltac:(lia))
        as (data' & -> & Hlen & Hdata).
      exists (dt :: data'). rewrite <-app_assoc. split; [done|]. split.
      * intros [|j]; simpl; [lia|]. rewrite <-Nat.succ_lt_mono, Hlen. lia.
      * intros [|j] dt'; simpl.
        -- intros [= <-]. by rewrite Nat.add_0_r.
        -- intros Hj. rewrite (Hdata j dt' Hj). do 3 f_equal. lia.
    + exists []. rewrite app_nil_r. split; [done|].
      split; [|by intros j dt; rewrite lookup_nil].
      intros j. simpl. lia.
Qed.

(** C8: for every reader, a batch size of at least one and device slots that
    hold the placeholders, [_make_feeding_data_from] returns; it leaves the
    reader drained and closed; and the batches are the consecutive chunks of
    [batch_size] lines of what the reader had left, malformed lines dropped,
    in reading order: batch [i] holds the lines
    [i*batch_size .. (i+1)*batch_size - 1] that exist, there are as many
    batches as chunks that start inside the list, and the batches put end to
    end are the list itself. *)
Theorem single_corpus_batches_in_read_order (reader : LineReader.self) :
  let drained := omap id (LineReader.remaining reader) in
  ∃ reader' data,
    TextLineInputter._make_feeding_data_from this input_fields name_prefix
      reader = (reader', Ok data) ∧
    LineReader.remaining reader' = [] ∧
    LineReader.closed reader' = true ∧
    (∀ i, (i < length data)%nat ↔ (i * batch_size < length drained)%nat) ∧
    (∀ i dt, data !! i = Some dt →
       data_ids dt !! concat_name name_prefix IDS_NAME
       = Some (take batch_size (drop (i * batch_size) drained))) ∧
    (∀ i dt, data !! i = Some dt → (S i < length data)%nat →
       ∃ ids, data_ids dt !! concat_name name_prefix IDS_NAME = Some ids
              ∧ length ids = batch_size).
Proof.
  intros drained. unfold TextLineInputter._make_feeding_data_from.
  rewrite bind_get.
  destruct (TextLineInputter_read_loop_run
              (S (length (LineReader.remaining reader))) reader [])
    as (r1 & Hread & Hrem & _); [lia|].
  rewrite (bind_run _ _ _ _ _ Hread). simpl. fold drained.
  unfold bind, LineReader.close, lift. simpl.
  destruct (TextLineInputter_batch_loop_run (length drained) drained 0 [])
    as (data & Hrun & Hlen & Hdata); [lia|].
  change (Z.of_nat 0) with 0 in Hrun. rewrite Hrun. simpl.
  eexists _, data. split; [done|].
  split; [done|]. split; [done|]. split; [exact Hlen|]. split.
  - intros i dt Hi. rewrite (Hdata i dt Hi). by rewrite lookup_singleton_eq.
  - intros i dt Hi Hnext. rewrite (Hdata i dt Hi), lookup_singleton_eq.
    eexists. split; [done|]. apply Hlen in Hnext. simpl in Hnext.
    rewrite length_take, length_drop. lia.
Qed.
End batches.
End single_corpus.

Lemma single_corpus_batches_in_read_order_witness :
  ∃ reader' data,
    TextLineInputter._make_feeding_data_from
      (TextLineInputter.mk (inl (LineReader.open example_corpus)) 3 0)
      (example_slots 2) "feature" (LineReader.open example_corpus)
    = (reader', Ok data) ∧
    data_ids <$> data
    = [ {[ "feature_ids" := [[1]; [2; 2]; [3]] ]};
        {[ "feature_ids" := [[4; 4; 4]] ]} ].
Proof.
  destruct (single_corpus_batches_in_read_order
              (TextLineInputter.mk (inl (LineReader.open example_corpus)) 3 0)
              (example_slots 2) "feature" 3 eq_refl)
    with (reader := LineReader.open example_corpus)
    as (reader' & data & Hrun & _).
  - lia.
  - simpl. lia.
  - repeat constructor; by eexists.
  - exists reader', data. split; [exact Hrun|].
    vm_compute in Hrun. injection Hrun as _ <-. reflexivity.
Defined.

(** ** Reading two corpora side by side *)

Section side_by_side.
Local Open Scope method_scope.
Import ParallelTextInputter.

Lemma read_on_refl r : read_on r r.
Proof. done. Qed.

Lemma read_on_trans r1 r2 r3 : read_on r1 r2 → read_on r2 r3 → read_on r1 r3.
Proof. unfold read_on. intros (?&?&?&?) (?&?&?&?). repeat split; congruence. Qed.

Lemma LineReader_next_read_on r :
  ∃ r',
    LineReader.next r
    = (r', Ok match LineReader.remaining r with
              | [] => EndOfStream
              | Some s :: _ => Encoded s
              | None :: _ => Malformed
              end) ∧
    LineReader.remaining r' = drop 1 (LineReader.remaining r) ∧
    LineReader.closed r' = LineReader.closed r ∧
    read_on r r'.
Proof.
  pose proof (LineReader_next_remaining r) as Hnext.
  destruct (LineReader.remaining r) as [|l rest] eqn:Hr.
  - exists r. by rewrite Hnext.
  - destruct Hnext as (r' & Hnext & Hrem & ? & ? & _ & ? & ? & ?).
    exists r'. rewrite Hnext. by destruct l.
Qed.

Lemma paired_nil_l L : paired [] L = [].
Proof. done. Qed.

Lemma paired_nil_r F : paired F [] = [].
Proof. by destruct F. Qed.


(** The reading loop of [_small_parallel_data]. *)
Lemma small_read_loop_run fuel this ss_buf tt_buf F L :
  LineReader.remaining (_features_reader this) = F →
  LineReader.remaining (_labels_reader this) = L →
  (length F < fuel)%nat →
  ∃ rf rl,
    read_loop fuel ss_buf tt_buf this
    = (set_labels_reader rl (set_features_reader rf this),
       Ok (ss_buf ++ (paired F L).*1, tt_buf ++ (paired F L).*2)) ∧
    LineReader.remaining rf = drop (length F `min` S (length L))%nat F ∧
    LineReader.remaining rl = drop (length L `min` S (length F))%nat L ∧
    LineReader.closed rf = LineReader.closed (_features_reader this) ∧
    LineReader.closed rl = LineReader.closed (_labels_reader this) ∧
    read_on (_features_reader this) rf ∧
    read_on (_labels_reader this) rl.
Proof.
  revert this ss_buf tt_buf F L.
  induction fuel as [|fuel IH]; intros this ss_buf tt_buf F L HF HL Hfuel;
    [lia|].
  simpl.
  destruct (LineReader_next_read_on (_features_reader this))
    as (rf1 & Hf & Hremf & Hclf & Hronf).
  destruct (LineReader_next_read_on (_labels_reader this))
    as (rl1 & Hl & Hreml & Hcll & Hronl).
  rewrite HF in Hf, Hremf. rewrite HL in Hl, Hreml.
  unfold bind at 1, on_features_reader at 1. rewrite Hf.
  unfold bind at 1, on_labels_reader at 1. simpl. rewrite Hl.
  set (this1 := set_labels_reader rl1 (set_features_reader rf1 this)).
  destruct F as [|f F'].
  { exists rf1, rl1. rewrite paired_nil_l. csimpl. rewrite !app_nil_r.
    destruct L as [|[?|] ?]; simpl in *; rewrite ?Nat.min_0_r;
      repeat first [done|split]. }
  destruct L as [|l L'].
  { exists rf1, rl1. rewrite paired_nil_r. csimpl. rewrite !app_nil_r.
    destruct f; simpl in *; rewrite ?Nat.min_0_r;
      repeat first [done|split]. }
  simpl in Hremf, Hreml. rewrite drop_0 in Hremf, Hreml.
  assert (∀ ss tt,
    ∃ rf rl,
      read_loop fuel ss tt this1
      = (set_labels_reader rl (set_features_reader rf this),
         Ok (ss ++ (paired F' L').*1, tt ++ (paired F' L').*2)) ∧
      LineReader.remaining rf = drop (length F' `min` S (length L'))%nat F' ∧
      LineReader.remaining rl = drop (length L' `min` S (length F'))%nat L' ∧
      LineReader.closed rf = LineReader.closed (_features_reader this) ∧
      LineReader.closed rl = LineReader.closed (_labels_reader this) ∧
      read_on (_features_reader this) rf ∧
      read_on (_labels_reader this) rl) as Hrest.
  { intros ss tt.
    destruct (IH this1 ss tt F' L') as (rf & rl & Hrun & ? & ? & ? & ? & ? & ?);
      [done|done|simpl in Hfuel; lia|].
    exists rf, rl. rewrite Hrun.
    split; [done|]. split; [done|]. split; [done|].
    split; [simpl in *; congruence|]. split; [simpl in *; congruence|].
    split; eapply read_on_trans; done. }
  destruct f as [s|], l as [t|]; simpl.
  - destruct (Hrest (ss_buf ++ [s]) (tt_buf ++ [t]))
      as (rf & rl & -> & ? & ? & ? & ? & ? & ?).
    exists rf, rl. unfold paired. simpl. fold (paired F' L').
    by rewrite <-!app_assoc.
  - destruct (Hrest ss_buf tt_buf) as (rf & rl & -> & ? & ? & ? & ? & ? & ?).
    by exists rf, rl.
  - destruct (Hrest ss_buf tt_buf) as (rf & rl & -> & ? & ? & ? & ? & ? & ?).
    by exists rf, rl.
  - destruct (Hrest ss_buf tt_buf) as (rf & rl & -> & ? & ? & ? & ? & ? & ?).
    by exists rf, rl.
Qed.

Lemma paired_cons_Some s t F L :
  paired (Some s :: F) (Some t :: L) = (s, t) :: paired F L.
Proof. done. Qed.

Lemma paired_cons_None_l l F L : paired (None :: F) (l :: L) = paired F L.
Proof. done. Qed.

Lemma paired_cons_None_r f F L : paired (f :: F) (None :: L) = paired F L.
Proof. by destruct f. Qed.

Import _BigParallelDataIterator.

(** The refill loop of [next]: it appends the first pairs of the
    side-by-side reading, as many as the cache still takes, and leaves the
    rest of that reading to be read. *)
Lemma refill_loop_run fuel it cnt F L :
  LineReader.remaining (_features_reader (kwargs it)) = F →
  LineReader.remaining (_labels_reader (kwargs it)) = L →
  (length F < fuel)%nat →
  ∃ rf rl,
    refill_loop fuel cnt it
    = (set_buffers
         (_features_buffer it
          ++ (take (Z.to_nat (_cache_size (kwargs it) - cnt)) (paired F L)).*1)
         (_labels_buffer it
          ++ (take (Z.to_nat (_cache_size (kwargs it) - cnt)) (paired F L)).*2)
         (set_kwargs
            (set_labels_reader rl (set_features_reader rf (kwargs it))) it),
       Ok ()) ∧
    paired (LineReader.remaining rf) (LineReader.remaining rl)
    = drop (Z.to_nat (_cache_size (kwargs it) - cnt)) (paired F L) ∧
    read_on (_features_reader (kwargs it)) rf ∧
    read_on (_labels_reader (kwargs it)) rl.
Proof.
  revert it cnt F L.
  induction fuel as [|fuel IH]; intros it cnt F L HF HL Hfuel; [lia|].
  simpl. rewrite bind_get. case_decide as Hcnt; cycle 1.
  { exists (_features_reader (kwargs it)), (_labels_reader (kwargs it)).
    replace (Z.to_nat (_cache_size (kwargs it) - cnt)) with 0%nat by lia.
    rewrite drop_0, HF, HL. csimpl. rewrite !app_nil_r.
    split; [by destruct it as [[]]|]. done. }
  destruct (LineReader_next_read_on (_features_reader (kwargs it)))
    as (rf1 & Hf & Hremf & _ & Hronf).
  destruct (LineReader_next_read_on (_labels_reader (kwargs it)))
    as (rl1 & Hl & Hreml & _ & Hronl).
  rewrite HF in Hf, Hremf. rewrite HL in Hl, Hreml.
  unfold bind at 1, on_kwargs at 1, on_features_reader at 1. rewrite Hf.
  unfold bind at 1, on_kwargs at 1, on_labels_reader at 1. simpl. rewrite Hl.
  set (it1 := set_kwargs
                (set_labels_reader rl1 (set_features_reader rf1 (kwargs it)))
                it).
  destruct F as [|f F'].
  { exists rf1, rl1. rewrite !paired_nil_l, Hremf. csimpl.
    rewrite take_nil, drop_nil. csimpl. rewrite !app_nil_r.
    destruct L as [|[?|] ?]; simpl; (split; [by destruct it|done]). }
  destruct L as [|l L'].
  { exists rf1, rl1. rewrite !paired_nil_r, Hreml. csimpl.
    rewrite paired_nil_r, take_nil, drop_nil. csimpl. rewrite !app_nil_r.
    destruct f; simpl; (split; [by destruct it|done]). }
  simpl in Hremf, Hreml. rewrite drop_0 in Hremf, Hreml.
  assert (∀ it2 cnt2,
    kwargs it2 = kwargs it1 →
    ∃ rf rl,
      refill_loop fuel cnt2 it2
      = (set_buffers
           (_features_buffer it2
            ++ (take (Z.to_nat (_cache_size (kwargs it) - cnt2))
                     (paired F' L')).*1)
           (_labels_buffer it2
            ++ (take (Z.to_nat (_cache_size (kwargs it) - cnt2))
                     (paired F' L')).*2)
           (set_kwargs
              (set_labels_reader rl (set_features_reader rf (kwargs it)))
              it2),
         Ok ()) ∧
      paired (LineReader.remaining rf) (LineReader.remaining rl)
      = drop (Z.to_nat (_cache_size (kwargs it) - cnt2)) (paired F' L') ∧
      read_on (_features_reader (kwargs it)) rf ∧
      read_on (_labels_reader (kwargs it)) rl) as Hrest.
  { intros it2 cnt2 Hk.
    destruct (IH it2 cnt2 F' L') as (rf & rl & Hrun & ? & ? & ?);
      [by rewrite Hk|by rewrite Hk|simpl in Hfuel; lia|].
    rewrite Hk in *. exists rf, rl. rewrite Hrun.
    split; [done|]. split; [done|].
    split; eapply read_on_trans; done. }
  destruct f as [s|], l as [t|]; simpl.
  - rewrite bind_modify.
    destruct (Hrest (set_buffers (_features_buffer it1 ++ [s])
                                 (_labels_buffer it1 ++ [t]) it1) (cnt + 1))
      as (rf & rl & Hrun & Hpaired & ? & ?); [done|].
    exists rf, rl. rewrite paired_cons_Some.
    replace (Z.to_nat (_cache_size (kwargs it) - cnt))
      with (S (Z.to_nat (_cache_size (kwargs it) - (cnt + 1)))) by lia.
    split; [|done]. etrans; [exact Hrun|].
    csimpl. rewrite <-!app_assoc. done.
  - destruct (Hrest it1 cnt) as (rf & rl & Hrun & ? & ? & ?); [done|].
    exists rf, rl. split; [exact Hrun|done].
  - destruct (Hrest it1 cnt) as (rf & rl & Hrun & ? & ? & ?); [done|].
    exists rf, rl. split; [exact Hrun|done].
  - destruct (Hrest it1 cnt) as (rf & rl & Hrun & ? & ? & ?); [done|].
    exists rf, rl. split; [exact Hrun|done].
Qed.

End side_by_side.

(** ** Running a method against a postcondition *)

Section weakest_preconditions.
Context {S A B : Type}.
Implicit Types (s : S).

Lemma wp_bind (m : M S A) (k : A → M S B) s Φ :
  wp m s (λ s' r, match r with
                  | Ok a => wp (k a) s' Φ
                  | Raise e => Φ s' (Raise e)
                  end) →
  wp (bind m k) s Φ.
Proof. unfold wp, bind. by destruct (m s) as [s' [a|e]]. Qed.

Lemma wp_ret (a : A) s Φ : Φ s (Ok a) → wp (ret a) s Φ.
Proof. done. Qed.

Lemma wp_get s (Φ : S → result S → Prop) : Φ s (Ok s) → wp get s Φ.
Proof. done. Qed.

Lemma wp_modify (f : S → S) s Φ : Φ (f s) (Ok ()) → wp (modify f) s Φ.
Proof. done. Qed.

Lemma wp_raise e s (Φ : S → result A → Prop) :
  Φ s (Raise e) → wp (raise e) s Φ.
Proof. done. Qed.

Lemma wp_lift (r : result A) s Φ : Φ s r → wp (lift r) s Φ.
Proof. done. Qed.

Lemma wp_conseq (m : M S A) s (Ψ Φ : S → result A → Prop) :
  wp m s Ψ → (∀ s' r, Ψ s' r → Φ s' r) → wp m s Φ.
Proof. unfold wp. auto. Qed.

Lemma wp_run (m : M S A) s s' r Φ : m s = (s', r) → Φ s' r → wp m s Φ.
Proof. unfold wp. by intros ->. Qed.

Lemma wp_elim (m : M S A) s s' r Φ : wp m s Φ → m s = (s', r) → Φ s' r.
Proof. unfold wp. intros H Hm. by rewrite Hm in H. Qed.
End weakest_preconditions.

(** One step through a method: the leading [get], [modify], [ret], [raise]
    or [lift] is run. *)
Ltac wp_step :=
  cbv beta iota;
  lazymatch goal with
  | |- wp (bind get _) _ _ => apply wp_bind, wp_get
  | |- wp (bind (modify _) _) _ _ => apply wp_bind, wp_modify
  | |- wp (bind (ret _) _) _ _ => apply wp_bind, wp_ret
  | |- wp (bind (raise _) _) _ _ => apply wp_bind, wp_raise
  | |- wp (bind (lift _) _) _ _ => apply wp_bind, wp_lift
  | |- wp get _ _ => apply wp_get
  | |- wp (modify _) _ _ => apply wp_modify
  | |- wp (ret _) _ _ => apply wp_ret
  | |- wp (raise _) _ _ => apply wp_raise
  | |- wp (lift _) _ _ => apply wp_lift
  end.

(** ** Resetting the readers *)

Section resetting.
Local Open Scope method_scope.
Import ParallelTextInputter ParallelTextInputter._BigParallelDataIterator.
Context (random_permutation : nat → nat → list nat).

Lemma LineReader_reset_run do_shuffle file index r :
  ∃ r' res,
    LineReader.reset random_permutation do_shuffle file index r = (r', res) ∧
    was_reset r r' ∧
    match res with
    | Ok None =>
        truthy do_shuffle = false ∧ LineReader.lines r' = LineReader.corpus r
    | Ok (Some index') =>
        (truthy do_shuffle = false ∧ index = Some index'
         ∧ LineReader.lines r' = LineReader.corpus r)
        ∨ (truthy do_shuffle = true
           ∧ (∀ i, index = Some i → i = index')
           ∧ gather (LineReader.corpus r) index' = Ok (LineReader.lines r'))
    | Raise e => e = IndexError ∧ truthy do_shuffle = true
    end.
Proof.
  unfold LineReader.reset. destruct (truthy do_shuffle) eqn:Hsh.
  - destruct index as [index|]; simpl.
    + destruct (gather _ index) as [shuffled|e] eqn:Hg.
      * eexists _, _. split; [done|]. split; [done|]. right.
        split; [done|]. split; [by intros ? [= <-]|done].
      * eexists _, _. split; [done|]. split; [done|].
        by apply gather_only_raises_IndexError in Hg as ->.
    + destruct (gather _ _) as [shuffled|e] eqn:Hg.
      * eexists _, _. split; [done|]. split; [done|]. right. done.
      * eexists _, _. split; [done|]. split; [done|].
        by apply gather_only_raises_IndexError in Hg as ->.
  - eexists _, _. split; [done|]. split; [done|].
    destruct index; [left|]; done.
Qed.

(** [_reset]: it leaves the settings, the cache and the flag alone; it resets
    the features reader; and unless it raises, which it does with
    [IndexError] only, it resets the labels reader too, with the same
    permutation when it shuffles. *)
Lemma reset_run it :
  wp (_reset random_permutation) it (λ it' r,
    settings (kwargs it') = settings (kwargs it) ∧
    cache it' = cache it ∧
    _end_of_data it' = _end_of_data it ∧
    _input_fields it' = _input_fields it ∧
    was_reset (features_reader_of it) (features_reader_of it') ∧
    LineReader.corpus (labels_reader_of it')
    = LineReader.corpus (labels_reader_of it) ∧
    match r with
    | Ok _ =>
        was_reset (labels_reader_of it) (labels_reader_of it') ∧
        linked (shuffles it') (features_reader_of it') (labels_reader_of it')
    | Raise e => e = IndexError
    end).
Proof.
  unfold _reset. wp_step. simpl.
  match goal with
  | |- wp (bind _ ?k) _ ?Φ =>
      assert (∀ it0,
        kwargs it0 = kwargs it → cache it0 = cache it →
        _end_of_data it0 = _end_of_data it →
        _input_fields it0 = _input_fields it →
        wp (k ()) it0 Φ) as Hbody
  end; cycle 1.
  { apply wp_bind. unfold when. case_bool_decide; wp_step; by apply Hbody. }
  intros it0 Hk Hc He Hi. wp_step. simpl.
  apply wp_bind. unfold wp, on_kwargs, on_features_reader. rewrite Hk.
  destruct (LineReader_reset_run (_shuffle_every_epoch (kwargs it))
              (default "" (_shuffled_features_file it0)) None
              (_features_reader (kwargs it)))
    as (rf & resf & -> & Hrf & Hresf).
  simpl. destruct resf as [argsort_index|e]; simpl; cycle 1.
  { destruct Hresf as [-> _]. unfold features_reader_of, labels_reader_of.
    unfold cache in *. simpl. done. }
  apply wp_bind. unfold wp, on_kwargs, on_labels_reader. simpl.
  destruct (LineReader_reset_run (_shuffle_every_epoch (kwargs it))
              (default "" (_shuffled_labels_file it0)) argsort_index
              (_labels_reader (kwargs it)))
    as (rl & resl & -> & Hrl & Hresl).
  simpl. unfold features_reader_of, labels_reader_of.
  unfold cache in *. simpl.
  destruct resl as [index'|e]; simpl; cycle 1.
  { destruct Hresl as [-> _]. destruct Hrl as (? & _). done. }
  do 5 (split; [done|]). split; [by destruct Hrl|]. split; [done|].
  destruct Hrf as (Hcf & _), Hrl as (Hcl & _).
  unfold linked, shuffles. simpl. rewrite Hcf, Hcl.
  destruct argsort_index as [index|].
  - destruct Hresf as [(Hsh & ? & _)|(Hsh & _ & Hgf)]; [done|].
    destruct index' as [index'|]; [|by destruct Hresl; congruence].
    destruct Hresl as [(? & _)|(_ & Hi' & Hgl)]; [congruence|].
    rewrite <-(Hi' index eq_refl) in Hgl. rewrite Hsh. by exists index.
  - destruct Hresf as [Hsh Hlf].
    destruct index' as [index'|].
    + destruct Hresl as [(_ & ? & _)|(? & _)]; congruence.
    + destruct Hresl as [_ Hll]. by rewrite Hsh.
Qed.
End resetting.

(** ** What [pack_feed_dict] records of the sequences *)

Section pack_records.
Local Open Scope method_scope.
Import Constants.
Context (input_fields : list (gmap string placeholder)).

Lemma feed_batchs_keeps n d p B per i inpf dt :
  wp (_feed_batchs n d p B per i inpf) dt (λ dt' _,
    data_ids dt' = data_ids dt ∧ parallels dt' = parallels dt).
Proof.
  unfold _feed_batchs. case_decide; [by wp_step|].
  destruct (padding_batch_data _ _) as [x x_len].
  apply wp_bind. unfold getitem.
  destruct (inpf !! concat_name n IDS_NAME); wp_step; [|done].
  wp_step. apply wp_bind.
  destruct (inpf !! concat_name n LENGTH_NAME); wp_step; [|done].
  wp_step. by wp_step.
Qed.

Lemma repeat_feed_batchs_keeps n d p B per times idxs fs dt :
  wp (repeat_n_times times (_feed_batchs n d p B per) idxs fs) dt (λ dt' _,
    data_ids dt' = data_ids dt ∧ parallels dt' = parallels dt).
Proof.
  revert idxs fs dt. induction times as [|times IH]; intros idxs fs dt; simpl.
  - by wp_step.
  - destruct idxs as [|i idxs]; [by wp_step|].
    destruct fs as [|inpf fs]; [by wp_step|].
    apply wp_bind. eapply wp_conseq; [apply feed_batchs_keeps|].
    intros dt1 [c|e] [Hids Hpar]; [|done].
    apply wp_bind. eapply wp_conseq; [apply IH|].
    intros dt2 [cs|e] [Hids2 Hpar2]; [wp_step|]; split; congruence.
Qed.

Lemma map_fn_records n d p dt :
  wp (map_fn input_fields n d p) dt (λ dt' r,
    r = Ok () →
    data_ids dt' = <[concat_name n IDS_NAME := d]> (data_ids dt)
    ∧ is_Some (parallels dt')).
Proof.
  unfold map_fn. wp_step. case_decide; [by wp_step|].
  apply wp_bind. eapply wp_conseq; [apply repeat_feed_batchs_keeps|].
  intros dt1 [ps|e] [Hids Hpar]; [|done].
  wp_step. intros _. split; [done|]. by eexists.
Qed.

(** The batch record of a features and labels pair holds the sequences it
    was given, under the two names, and a [parallels] field. *)
Lemma pack_feed_dict_pair_records features fp labels lp ret_data :
  pack_feed_dict input_fields
    [(FEATURE_NAME_PREFIX, features, fp); (LABEL_NAME_PREFIX, labels, lp)]
  = Ok ret_data →
  data_ids ret_data
  = {[ concat_name LABEL_NAME_PREFIX IDS_NAME := labels;
       concat_name FEATURE_NAME_PREFIX IDS_NAME := features ]}
  ∧ is_Some (parallels ret_data).
Proof.
  unfold pack_feed_dict. simpl.
  pose proof (map_fn_records FEATURE_NAME_PREFIX features fp empty_data) as H1.
  unfold wp in H1. unfold bind at 1.
  destruct (map_fn input_fields FEATURE_NAME_PREFIX features fp empty_data)
    as [dt1 [[]|e]]; [|done].
  destruct (H1 eq_refl) as [Hids1 _]. simpl in Hids1.
  pose proof (map_fn_records LABEL_NAME_PREFIX labels lp dt1) as H2.
  unfold wp in H2. unfold bind at 1.
  destruct (map_fn input_fields LABEL_NAME_PREFIX labels lp dt1)
    as [dt2 [[]|e]]; [|done].
  destruct (H2 eq_refl) as [Hids2 Hpar2]. simpl in Hids2, Hpar2 |- *.
  intros [= <-]. split; [|done]. rewrite Hids2, Hids1.
  by rewrite insert_empty.
Qed.
End pack_records.

(** ** The step relation describes [next] *)

Section pull_sound.
Local Open Scope method_scope.
Import ParallelTextInputter ParallelTextInputter._BigParallelDataIterator.
Import Constants.
Context (argsort : list nat → list nat).
Context (random_permutation : nat → nat → list nat).

Lemma end_of_epoch_run {A} it :
  wp (@end_of_epoch random_permutation A) it (λ it' r,
    ∃ e, r = Raise e ∧ epoch_ended it it' e).
Proof.
  unfold end_of_epoch. wp_step. apply wp_bind.
  eapply wp_conseq; [apply reset_run|].
  intros it' r (Hs & Hc & He & Hi & Hrf & Hcl & Hr).
  destruct r as [[]|e].
  - wp_step. exists StopIteration. split; [done|].
    destruct Hr as [Hrl Hlinked]. unfold epoch_ended.
    do 6 (split; [done|]). by left.
  - exists e. split; [done|]. subst e. unfold epoch_ended.
    do 6 (split; [done|]). by right.
Qed.

Lemma bucket_pair_run ss_buf tt_buf ss_buf' tt_buf' :
  bucket_pair argsort ss_buf tt_buf = Ok (ss_buf', tt_buf') →
  ∃ tidx, gather ss_buf tidx = Ok ss_buf' ∧ gather tt_buf tidx = Ok tt_buf'.
Proof.
  unfold bucket_pair, do_bucketing. simpl.
  set (tidx := argsort (length <$> tt_buf)).
  unfold mbind, result_bind.
  destruct (@gather (list Z) tt_buf tidx) as [_pivot|e] eqn:Ht; simpl; [|done].
  destruct (gather ss_buf tidx) as [_ele|e] eqn:Hs; simpl; [|done].
  cbv [py_index]. simpl. intros [= <- <-]. by exists tidx.
Qed.

Lemma refill_sound it :
  wp (refill argsort random_permutation) it (refill_outcome it).
Proof.
  unfold refill. wp_step. case_decide as Hlen; cycle 1.
  { wp_step. apply refill_not_needed. lia. }
  apply wp_bind.
  destruct (refill_loop_run
              (S (length (LineReader.remaining
                            (_features_reader (kwargs it)))))
              it (Z.of_nat (length (_features_buffer it))) _ _
              eq_refl eq_refl ltac:(lia))
    as (rf & rl & Hrun & Hpaired & Hrf & Hrl).
  eapply wp_run; [exact Hrun|].
  match type of Hrun with _ = (?s, _) => set (it1 := s) in * end.
  assert (refilled it it1) as Hrefilled by (by exists rf, rl).
  clearbody it1. clear Hrun.
  wp_step. apply wp_bind. case_decide as Hempty.
  { eapply wp_conseq; [apply end_of_epoch_run|].
    intros it' r (e & -> & Hend). eapply refill_nothing; [done..| |done].
    destruct Hempty as [H|H]; [left|right]; by apply nil_length_inv. }
  wp_step.
  assert (_features_buffer it1 ≠ [] ∧ _labels_buffer it1 ≠ []) as [Hf Hl].
  { split; intros H; rewrite H in Hempty; apply Hempty; [by left|by right]. }
  apply wp_bind. destruct (_bucketing (kwargs it1)) eqn:Hbucketing.
  - apply wp_bind.
    destruct (bucket_pair argsort (_features_buffer it1) (_labels_buffer it1))
      as [[features labels]|e] eqn:Hb; wp_step.
    + wp_step. wp_step. eapply refill_done; [done..|].
      apply bucket_pair_run in Hb as (tidx & ? & ?).
      exists features, labels. rewrite Hbucketing. split; [by exists tidx|done].
    + apply (only_bucket_pair (λ e, e = IndexError)) in Hb as ->; [|done].
      by eapply refill_sort_error.
  - wp_step. wp_step. eapply refill_done; [done..|].
    exists (_features_buffer it1), (_labels_buffer it1).
    rewrite Hbucketing. split; [done|]. by destruct it1.
Qed.

Lemma emit_sound it :
  wp (emit random_permutation) it (emit_outcome it).
Proof.
  unfold emit. wp_step. apply wp_bind.
  destruct (local_batch_size_of _ _ _ _) as [local_batch_size|e] eqn:Hlocal;
    wp_step; [|by apply emit_growth_error].
  apply wp_bind.
  match goal with
  | |- wp ?m _ _ =>
      assert (m it = (after_cut it local_batch_size, Ok ())) as Hcut
  end.
  { unfold after_cut. by case_decide. }
  eapply wp_run; [exact Hcut|]. clear Hcut. cbv beta iota.
  apply wp_bind. case_decide as Hempty.
  { eapply wp_conseq; [apply end_of_epoch_run|].
    intros it' r (e & -> & Hend). eapply emit_nothing; [done| |done].
    destruct Hempty as [H|H]; [left|right]; apply nil_length_inv; lia. }
  wp_step.
  assert (py_prefix (_features_buffer it) local_batch_size ≠ []
          ∧ py_prefix (_labels_buffer it) local_batch_size ≠ []) as [Hf Hl].
  { split; intros H; rewrite H in Hempty; apply Hempty; [left|right];
      simpl; lia. }
  apply wp_bind.
  destruct (pack_feed_dict _ _) as [ret_data|e] eqn:Hpack; wp_step;
    [|by eapply emit_pack_error].
  destruct (pack_feed_dict_pair_records _ _ _ _ _ _ Hpack) as [_ [ps Hps]].
  pose proof (emit_batch it local_batch_size ret_data ps
                Hlocal Hf Hl Hpack Hps) as Hbatch.
  destruct (_fill_full_batch (kwargs it)).
  - wp_step. unfold pop_parallels. rewrite Hps. simpl. exact Hbatch.
  - wp_step. exact Hbatch.
Qed.

(** Every call of [next] is a step of the relation [pull]. *)
Lemma next_sound it :
  wp (next argsort random_permutation) it (pull it).
Proof.
  unfold next. wp_step. apply wp_bind.
  destruct (_end_of_data it) eqn:Hflag.
  { eapply wp_conseq; [apply end_of_epoch_run|].
    intros it' r (e & -> & Hend). by eapply pull_flag_up. }
  wp_step. apply wp_bind. case_decide as Hlen; wp_step;
    [|by apply pull_buffers_differ].
  apply wp_bind. eapply wp_conseq; [apply refill_sound|].
  intros it1 [[]|e] Hrefill; [|by apply pull_refill_raises].
  wp_step. apply wp_bind.
  destruct (_fill_full_batch (kwargs it1)) eqn:Hffb; simpl.
  - case_bool_decide as Hshort.
    + eapply wp_conseq; [apply end_of_epoch_run|].
      intros it' r (e & -> & Hend). by eapply pull_short_of_a_batch.
    + wp_step. eapply wp_conseq; [apply emit_sound|].
      intros it' r Hemit. eapply pull_emit; [done..| |done].
      by intros [_ ?].
  - wp_step. eapply wp_conseq; [apply emit_sound|].
    intros it' r Hemit. eapply pull_emit; [done..| |done].
    intros [? _]. congruence.
Qed.

(** The step a call of [next] makes. *)
Lemma next_pull it it' r :
  next argsort random_permutation it = (it', r) → pull it it' r.
Proof. intros Hnext. by apply (wp_elim _ _ _ _ _ (next_sound it)). Qed.
End pull_sound.

(** ** What a step leaves alone *)

Section frames.
Import ParallelTextInputter ParallelTextInputter._BigParallelDataIterator.
Implicit Types (it : ParallelTextInputter._BigParallelDataIterator.self).

Lemma read_on_was_reset r1 r2 r3 :
  read_on r1 r2 → was_reset r2 r3 → was_reset r1 r3.
Proof.
  unfold read_on, was_reset. intros (?&?&?&?) (?&?&?).
  repeat split; congruence.
Qed.

Lemma refilled_frame it it1 :
  refilled it it1 →
  settings (kwargs it1) = settings (kwargs it) ∧
  _end_of_data it1 = _end_of_data it ∧
  _input_fields it1 = _input_fields it ∧
  read_on (features_reader_of it) (features_reader_of it1) ∧
  read_on (labels_reader_of it) (labels_reader_of it1) ∧
  (length (_features_buffer it) = length (_labels_buffer it) →
   length (_features_buffer it1) = length (_labels_buffer it1)).
Proof.
  intros (rf & rl & -> & _ & Hrf & Hrl). simpl.
  do 5 (split; [done|]). intros Hlen.
  by rewrite !length_app, !length_fmap, Hlen.
Qed.

Lemma arranged_frame it1 it2 :
  arranged it1 it2 →
  kwargs it2 = kwargs it1 ∧
  _end_of_data it2 = _end_of_data it1 ∧
  _input_fields it2 = _input_fields it1 ∧
  (length (_features_buffer it1) = length (_labels_buffer it1) →
   length (_features_buffer it2) = length (_labels_buffer it2)).
Proof.
  intros (features & labels & Hfl & ->). simpl.
  do 3 (split; [done|]). intros Hlen.
  destruct (_bucketing (kwargs it1)).
  - destruct Hfl as (tidx & Hf & Hl).
    by rewrite (gather_length _ _ _ Hf), (gather_length _ _ _ Hl).
  - by destruct Hfl as [-> ->].
Qed.

Lemma after_cut_frame it local_batch_size :
  kwargs (after_cut it local_batch_size) = kwargs it ∧
  _end_of_data (after_cut it local_batch_size) = _end_of_data it ∧
  _input_fields (after_cut it local_batch_size) = _input_fields it.
Proof. unfold after_cut. by case_decide. Qed.

Lemma refill_outcome_frame it it1 :
  refill_outcome it it1 (Ok ()) →
  settings (kwargs it1) = settings (kwargs it) ∧
  _end_of_data it1 = _end_of_data it ∧
  _input_fields it1 = _input_fields it ∧
  read_on (features_reader_of it) (features_reader_of it1) ∧
  read_on (labels_reader_of it) (labels_reader_of it1) ∧
  (length (_features_buffer it) = length (_labels_buffer it) →
   length (_features_buffer it1) = length (_labels_buffer it1)).
Proof.
  inversion 1 as [|it0 ? ? Hrefilled _ _ Harranged| |]; subst.
  - split_and!; done.
  - apply refilled_frame in Hrefilled as (? & ? & ? & ? & ? & ?).
    apply arranged_frame in Harranged as (Hk & ? & ? & ?).
    unfold features_reader_of, labels_reader_of. rewrite Hk.
    split_and!; try congruence; try done; auto.
Qed.

(** The flag is down after every step. *)
Lemma pull_flag_down it it' r : pull it it' r → _end_of_data it' = false.
Proof.
  assert (∀ it0 it1 e, epoch_ended it0 it1 e → _end_of_data it1 = false)
    as Hended by (by intros ??? (_ & _ & ? & _)).
  assert (∀ it1 it2 r', emit_outcome it1 it2 r' →
            _end_of_data it1 = false → _end_of_data it2 = false) as Hemit.
  { intros it1 it2 r'. inversion 1; subst; intros Hflag;
      [done|by eapply Hended|..];
      by rewrite (proj1 (proj2 (after_cut_frame _ _))). }
  inversion 1 as [| |? ? ? ? Hrefill|? ? ? ? ? Hrefill|? ? ? ? ? Hrefill];
    subst; [by eapply Hended|done| |by eapply Hended|].
  - inversion Hrefill as [| |? ? ? ? Hrefilled|? ? Hrefilled]; subst;
      [by eapply Hended|].
    apply refilled_frame in Hrefilled as (_ & ? & _). congruence.
  - apply refill_outcome_frame in Hrefill as (_ & ? & _).
    eapply Hemit; [done|congruence].
Qed.
End frames.

(** ** What a step does to the readers *)

Section readers_of_a_step.
Import ParallelTextInputter ParallelTextInputter._BigParallelDataIterator.
Implicit Types (it : ParallelTextInputter._BigParallelDataIterator.self).


Lemma readers_after_refl it {A} (r : result A) :
  r ≠ Raise StopIteration → readers_after it it r.
Proof. intros Hr. unfold readers_after. split_and!; done. Qed.

Lemma readers_after_read_on it it1 it' {A} (r : result A) :
  settings (kwargs it1) = settings (kwargs it) →
  _input_fields it1 = _input_fields it →
  read_on (features_reader_of it) (features_reader_of it1) →
  read_on (labels_reader_of it) (labels_reader_of it1) →
  readers_after it1 it' r → readers_after it it' r.
Proof.
  intros Hs Hi Hf Hl (Hs' & Hi' & Hcf & Hcl & Hstop & Hother).
  pose proof Hf as (Hcf1 & _). pose proof Hl as (Hcl1 & _).
  unfold readers_after. split_and!; try congruence.
  - intros Hr. destruct (Hstop Hr) as (? & ? & ?).
    split_and!; [by eapply read_on_was_reset..|done].
  - intros Hr1 Hr2. destruct (Hother Hr1 Hr2).
    split; by eapply read_on_trans.
Qed.

Lemma epoch_ended_readers it it' e {A} :
  epoch_ended it it' e → readers_after it it' (@Raise A e).
Proof.
  intros (Hs & _ & _ & Hi & Hrf & Hcl & He).
  pose proof Hrf as (Hcf & _).
  unfold readers_after. split_and!; try done.
  - intros [= ->]. destruct He as [(_ & Hrl & Hlinked)|He]; done.
  - intros H1 H2. destruct He as [(-> & _) | ->]; done.
Qed.

Lemma only_local_batch_size_of E fl ll batch_size batch_tokens_size :
  E IndexError → E Diverge →
  only E (local_batch_size_of fl ll batch_size batch_tokens_size).
Proof.
  intros H1 H2. unfold local_batch_size_of.
  destruct batch_tokens_size as [T|]; [|apply only_Ok].
  generalize (Z.to_nat (Z.of_nat (length fl) - batch_size)).
  generalize (numpy_sum (py_prefix fl batch_size)).
  generalize (numpy_sum (py_prefix ll batch_size)).
  generalize batch_size.
  intros b st ss fuel. revert b st ss.
  induction fuel as [|fuel IH]; intros b st ss; simpl;
    repeat case_decide; try apply only_Ok; try by apply only_Raise.
  apply only_bind; [by apply only_py_index|intros ?].
  apply only_bind; [by apply only_py_index|intros ?]. apply IH.
Qed.

Lemma emit_outcome_readers it it' r :
  emit_outcome it it' r → readers_after it it' r.
Proof.
  intros Hemit.
  destruct Hemit as [e Hlocal|local it' e Hlocal Hempty Hend
                     |local e Hlocal Hf Hl Hpack
                     |local ret_data ps Hlocal Hf Hl Hpack Hps].
  - apply readers_after_refl. intros [= ->].
    by apply (only_local_batch_size_of (λ e, e ≠ StopIteration)) in Hlocal.
  - destruct (after_cut_frame it local) as (Hk & _ & Hi).
    apply (epoch_ended_readers _ _ _ (A:=batch_record)) in Hend.
    eapply readers_after_read_on; [..|exact Hend];
      unfold features_reader_of, labels_reader_of; rewrite ?Hk; done.
  - destruct (after_cut_frame it local) as (Hk & _ & Hi).
    eapply readers_after_read_on; [..|apply readers_after_refl];
      unfold features_reader_of, labels_reader_of; rewrite ?Hk; try done.
    intros [= ->].
    by apply (only_pack_feed_dict (λ e, e ≠ StopIteration)) in Hpack.
  - destruct (after_cut_frame it local) as (Hk & _ & Hi).
    eapply readers_after_read_on; [..|by apply readers_after_refl];
      unfold features_reader_of, labels_reader_of; rewrite ?Hk; done.
Qed.

Lemma pull_readers it it' r : pull it it' r → readers_after it it' r.
Proof.
  inversion 1 as [? e ? Hend| |? e ? ? Hrefill|? ? e ? ? Hrefill ? ? Hend
                  |? ? ? ? ? Hrefill ? Hemit]; subst.
  - by apply epoch_ended_readers.
  - by apply readers_after_refl.
  - inversion Hrefill as [| |it1 ? ? ? Hrefilled ? Hend|it1 ? Hrefilled];
      subst.
    + apply refilled_frame in Hrefilled as (? & ? & ? & ? & ? & _).
      eapply readers_after_read_on; [done..|].
      by apply epoch_ended_readers.
    + apply refilled_frame in Hrefilled as (? & ? & ? & Hf & Hl & _).
      pose proof Hf as (? & _). pose proof Hl as (? & _).
      unfold readers_after. split_and!; done.
  - apply refill_outcome_frame in Hrefill as (? & ? & ? & ? & ? & _).
    eapply readers_after_read_on; [done..|].
    by apply epoch_ended_readers.
  - apply refill_outcome_frame in Hrefill as (? & ? & ? & ? & ? & _).
    eapply readers_after_read_on; [done..|].
    by apply emit_outcome_readers.
Qed.
End readers_of_a_step.

(** ** The epoch boundary *)

Section epoch_boundary.
Import ParallelTextInputter ParallelTextInputter._BigParallelDataIterator.
Context (argsort : list nat → list nat).
Context (random_permutation : nat → nat → list nat).

(** C2, as amended: the flag [_end_of_data] is down after every pull, so no
    pull finds it up once the iterator is built.  The pull that signals the
    end of the sequence has itself reset both readers, to linked views; a
    pull that returns a batch has reset none.  The pull that finds the cache
    empty and the readers without a pair left is the one that ends the
    epoch: it raises [StopIteration], or the [IndexError] of a reset that
    fails. *)
Theorem epoch_boundary_in_one_pull it it' r :
  next argsort random_permutation it = (it', r) →
  _end_of_data it' = false ∧
  (r = Raise StopIteration →
   was_reset (features_reader_of it) (features_reader_of it') ∧
   was_reset (labels_reader_of it) (labels_reader_of it') ∧
   linked (shuffles it') (features_reader_of it') (labels_reader_of it')) ∧
  (∀ ret_data, r = Ok ret_data →
   _end_of_data it = false ∧
   read_on (features_reader_of it) (features_reader_of it') ∧
   read_on (labels_reader_of it) (labels_reader_of it')) ∧
  (_end_of_data it = false →
   _features_buffer it = [] → _labels_buffer it = [] →
   0 < _batch_size (kwargs it) →
   paired (LineReader.remaining (features_reader_of it))
          (LineReader.remaining (labels_reader_of it)) = [] →
   r = Raise StopIteration ∨ r = Raise IndexError).
Proof.
  intros Hnext. apply next_pull in Hnext as Hpull.
  pose proof (pull_readers _ _ _ Hpull) as (_ & _ & _ & _ & Hstop & Hread).
  split; [by eapply pull_flag_down|]. split; [done|]. split.
  { intros ret_data ->. split; [|by apply Hread].
    by inversion Hpull. }
  intros Hflag Hfb Hlb Hbs Hnone.
  assert (∀ it1 it2 e, epoch_ended it1 it2 e →
            @Raise batch_record e = Raise StopIteration
            ∨ @Raise batch_record e = Raise IndexError) as Hended.
  { intros ??? (_ & _ & _ & _ & _ & _ & [(-> & _) | ->]); [by left|by right]. }
  assert (∀ it1, refilled it it1 → _features_buffer it1 = []) as Hnothing.
  { intros it1 (rf & rl & -> & _). cbn [_features_buffer set_buffers].
    by rewrite Hfb, Hnone, take_nil. }
  inversion Hpull as [| |? e ? ? Hrefill|? ? e ? ? Hrefill ? ? Hend
                      |? ? ? ? ? Hrefill ? Hemit]; subst.
  - congruence.
  - rewrite Hfb, Hlb in *. done.
  - inversion Hrefill; subst; [by eapply Hended|by right].
  - by eapply Hended.
  - exfalso. inversion Hrefill as [Hle|it0 ? ? Hrefilled Hne| |]; subst.
    + rewrite Hfb in Hle. simpl in Hle. lia.
    + by apply Hnothing in Hrefilled.
Qed.
End epoch_boundary.

Lemma epoch_boundary_in_one_pull_witness :
  let it := (example_run 1 (example_iterator
               (example_inputter [Some [1]] [Some [10]]
                  (Some 2) None None false false))).1 in
  ∃ it',
    ParallelTextInputter._BigParallelDataIterator.next
      argsort_ties_first reversal it = (it', Raise StopIteration) ∧
    ParallelTextInputter._BigParallelDataIterator._end_of_data it' = false ∧
    LineReader.resets (features_reader_of it')
    = S (LineReader.resets (features_reader_of it)).
Proof.
  intros it.
  destruct (ParallelTextInputter._BigParallelDataIterator.next
              argsort_ties_first reversal it) as [it' r] eqn:Hnext.
  destruct (epoch_boundary_in_one_pull _ _ _ _ _ Hnext)
    as (Hflag & Hstop & _ & _).
  assert (r = Raise StopIteration) as ->.
  { vm_compute in Hnext. by injection Hnext as _ <-. }
  exists it'. split; [done|]. split; [done|].
  by destruct (Hstop eq_refl) as ((_ & ? & _) & _).
Defined.

(** C2, as stated, fails.  With one pair in the corpora and a batch size of
    two, the first pull returns the pair; the second finds the cache empty
    and reads nothing, and it is this pull that resets the readers (for the
    second time, after the constructor) and raises [StopIteration], leaving
    the flag down; the third pull returns a batch of the next epoch. *)
Lemma end_of_data_flag_is_never_raised :
  let it1 := (example_run 1 (example_iterator
                (example_inputter [Some [1]] [Some [10]]
                   (Some 2) None None false false))).1 in
  let step2 := ParallelTextInputter._BigParallelDataIterator.next
                 argsort_ties_first reversal it1 in
  let step3 := ParallelTextInputter._BigParallelDataIterator.next
                 argsort_ties_first reversal step2.1 in
  ParallelTextInputter._BigParallelDataIterator._features_buffer it1 = [] ∧
  LineReader.remaining (features_reader_of it1) = [] ∧
  step2.2 = Raise StopIteration ∧
  ParallelTextInputter._BigParallelDataIterator._end_of_data step2.1 = false ∧
  LineReader.resets (features_reader_of it1) = 1%nat ∧
  LineReader.resets (features_reader_of step2.1) = 2%nat ∧
  LineReader.resets (labels_reader_of step2.1) = 2%nat ∧
  (∃ ret_data, step3.2 = Ok ret_data) ∧
  LineReader.resets (features_reader_of step3.1) = 2%nat.
Proof. vm_compute. split_and!; try done. by eexists. Qed.

(** ** Resets at construction and at the end of every epoch *)

Section reset_counts.
Local Open Scope method_scope.
Import ParallelTextInputter ParallelTextInputter._BigParallelDataIterator.
Context (argsort : list nat → list nat).
Context (random_permutation : nat → nat → list nat).

Lemma init_run input_fields this :
  ∃ it r,
    __init__ random_permutation input_fields this = (it, r) ∧
    settings (kwargs it) = settings this ∧
    was_reset (_features_reader this) (features_reader_of it) ∧
    LineReader.corpus (labels_reader_of it)
    = LineReader.corpus (_labels_reader this) ∧
    match r with
    | Ok _ =>
        cache it = ([], [], [], []) ∧
        _end_of_data it = false ∧
        _input_fields it = input_fields ∧
        was_reset (_labels_reader this) (labels_reader_of it) ∧
        linked (shuffles it) (features_reader_of it) (labels_reader_of it)
    | Raise e => e = IndexError
    end.
Proof.
  unfold __init__.
  set (it0 := _BigParallelDataIterator.mk this None None [] [] [] [] false []).
  pose proof (reset_run random_permutation it0) as Hreset.
  unfold wp in Hreset. unfold bind at 1.
  destruct (_reset random_permutation it0) as [it1 [[]|e]]; simpl in Hreset.
  - destruct Hreset as (Hs & Hc & He & Hi & Hrf & Hcl & Hrl & Hlinked).
    eexists _, _. split; [done|]. simpl.
    unfold features_reader_of, labels_reader_of in *. simpl.
    split_and!; done.
  - destruct Hreset as (Hs & Hc & He & Hi & Hrf & Hcl & ->).
    eexists _, _. split; [done|]. done.
Qed.

Lemma epochs_ended_cons {A} (r : result A) rs :
  epochs_ended (r :: rs)
  = ((if signals_end r then 1 else 0) + epochs_ended rs)%nat.
Proof.
  unfold epochs_ended. rewrite filter_cons.
  destruct (signals_end r); by case_decide.
Qed.

Lemma pulls_resets n it :
  Forall (λ r, r ≠ Raise IndexError)
         (pulls argsort random_permutation n it).2 →
  let it' := (pulls argsort random_permutation n it).1 in
  let outcomes := (pulls argsort random_permutation n it).2 in
  LineReader.resets (features_reader_of it')
  = (LineReader.resets (features_reader_of it) + epochs_ended outcomes)%nat ∧
  LineReader.resets (labels_reader_of it')
  = (LineReader.resets (labels_reader_of it) + epochs_ended outcomes)%nat.
Proof.
  revert it. induction n as [|n IH]; intros it; simpl.
  { intros _. unfold epochs_ended. simpl. lia. }
  destruct (next argsort random_permutation it) as [it1 r] eqn:Hnext.
  specialize (IH it1).
  destruct (pulls argsort random_permutation n it1) as [it2 rs]. simpl in *.
  intros Hall. apply Forall_cons in Hall as [Hr Hrs].
  destruct (IH Hrs) as [IHf IHl]. rewrite IHf, IHl, epochs_ended_cons.
  apply next_pull, pull_readers in Hnext
    as (_ & _ & _ & _ & Hstop & Hread).
  destruct (signals_end r) eqn:Hend.
  - assert (r = Raise StopIteration) as -> by (by destruct r as [?|[]]).
    destruct (Hstop eq_refl) as ((_ & -> & _) & (_ & -> & _) & _). lia.
  - assert (r ≠ Raise StopIteration) as Hne by (by intros ->).
    destruct (Hread Hne Hr) as ((_ & _ & -> & _) & (_ & _ & -> & _)). lia.
Qed.

(** C10: every call of [make_feeding_data] with [in_memory=False] resets the
    features reader; unless the call raises, which it does with [IndexError]
    only, it returns an iterator with an empty cache whose readers are the
    inputter's, both reset once, cursors at the start, and reading linked
    views of their sources (the same permutation of both when shuffling);
    and after any number of pulls none of which raised [IndexError], each
    reader has been reset once at construction and once more for every
    pull that signalled the end of an epoch. *)
Theorem reset_at_construction_and_every_epoch input_fields this this' r :
  make_feeding_data argsort random_permutation input_fields false this
  = (this', r) →
  was_reset (_features_reader this) (_features_reader this') ∧
  (∀ e, r = Raise e → e = IndexError) ∧
  (∀ feeding, r = Ok feeding →
   ∃ it,
     feeding = Iterator it ∧ kwargs it = this' ∧
     cache it = ([], [], [], []) ∧
     was_reset (_labels_reader this) (labels_reader_of it) ∧
     linked (shuffles it) (features_reader_of it) (labels_reader_of it) ∧
     ∀ n,
       let it' := (pulls argsort random_permutation n it).1 in
       let outcomes := (pulls argsort random_permutation n it).2 in
       Forall (λ r, r ≠ Raise IndexError) outcomes →
       LineReader.resets (features_reader_of it')
       = (LineReader.resets (_features_reader this) + 1
          + epochs_ended outcomes)%nat ∧
       LineReader.resets (labels_reader_of it')
       = (LineReader.resets (_labels_reader this) + 1
          + epochs_ended outcomes)%nat).
Proof.
  unfold make_feeding_data. rewrite bind_get. simpl.
  destruct (init_run input_fields this)
    as (it & r0 & -> & Hs & Hrf & Hcl & Hr0).
  rewrite bind_modify. intros Hrun.
  destruct r0 as [[]|e]; simpl in Hrun; injection Hrun as <- <-.
  - destruct Hr0 as (Hc & He & Hi & Hrl & Hlinked).
    split; [done|]. split; [done|].
    intros feeding [= <-]. exists it. split_and!; try done.
    intros n Hall.
    destruct (pulls_resets n it Hall) as [Hf Hl].
    destruct Hrf as (_ & Hrf & _), Hrl as (_ & Hrl & _).
    rewrite Hf, Hl, Hrf, Hrl. lia.
  - subst e. split; [done|]. split; [by intros ? [= <-]|done].
Qed.
End reset_counts.

Lemma reset_at_construction_and_every_epoch_witness :
  let this := example_inputter example_features example_labels
                (Some 2) None (Some "seed") false true in
  ∃ this' it,
    ParallelTextInputter.make_feeding_data argsort_ties_first reversal
      (example_slots 1) false this
    = (this', Ok (ParallelTextInputter.Iterator it)) ∧
    LineReader.resets (features_reader_of it) = 1%nat ∧
    LineReader.lines (features_reader_of it) = reverse example_features ∧
    LineReader.lines (labels_reader_of it) = reverse example_labels.
Proof.
  intros this.
  destruct (ParallelTextInputter.make_feeding_data argsort_ties_first reversal
              (example_slots 1) false this) as [this' r] eqn:Hrun.
  destruct (reset_at_construction_and_every_epoch _ _ _ _ _ _ Hrun)
    as ((_ & Hresets & _) & _ & Hit).
  vm_compute in Hrun. injection Hrun as <- <-.
  eexists _, _. split; [reflexivity|]. split; [exact Hresets|]. done.
Defined.

(** ** Full batches *)

Section full_batches.
Local Open Scope method_scope.
Import ParallelTextInputter ParallelTextInputter._BigParallelDataIterator.
Import Constants.
Context (argsort : list nat → list nat).
Context (random_permutation : nat → nat → list nat).

Lemma grow_loop_ge fuel fl ll T ss st b local_batch_size :
  grow_loop fuel fl ll T ss st b = Ok local_batch_size →
  b ≤ local_batch_size.
Proof.
  revert ss st b. induction fuel as [|fuel IH]; intros ss st b; simpl;
    repeat case_decide; try (intros [= <-]; lia); try done.
  destruct (py_index fl b); simpl; [|done].
  destruct (py_index ll b); simpl; [|done].
  intros Hrun. apply IH in Hrun. lia.
Qed.

Lemma local_batch_size_of_ge fl ll batch_size batch_tokens_size local :
  local_batch_size_of fl ll batch_size batch_tokens_size = Ok local →
  batch_size ≤ local.
Proof.
  unfold local_batch_size_of. destruct batch_tokens_size as [T|].
  - apply grow_loop_ge.
  - intros [= <-]. lia.
Qed.

Lemma py_prefix_length_ge {A} (l : list A) (b local : Z) :
  b ≤ local → b ≤ Z.of_nat (length l) →
  b ≤ Z.of_nat (length (py_prefix l local)).
Proof.
  intros H1 H2. rewrite py_prefix_length. unfold slice_bound.
  case_decide; lia.
Qed.

Lemma py_prefix_length_eq {A B} (l : list A) (k : list B) (local : Z) :
  length l = length k → length (py_prefix l local) = length (py_prefix k local).
Proof. intros Hlen. by rewrite !py_prefix_length, Hlen. Qed.

Lemma end_of_epoch_bind {A B} (k : A → M self B) it :
  bind (end_of_epoch random_permutation) k it
  = end_of_epoch random_permutation it.
Proof.
  unfold end_of_epoch, bind, modify, raise.
  by destruct (_reset random_permutation _) as [? [[]|?]].
Qed.

(** The pull that finds the cache short of a batch once refilled, under
    [fill_full_batch], is the three lines that end the epoch, run on the
    refilled iterator. *)
Lemma next_short_of_a_batch it it1 :
  _end_of_data it = false →
  length (_features_buffer it) = length (_labels_buffer it) →
  refill argsort random_permutation it = (it1, Ok ()) →
  _fill_full_batch (kwargs it1) = true →
  Z.of_nat (length (_features_buffer it1)) < _batch_size (kwargs it1) →
  next argsort random_permutation it = end_of_epoch random_permutation it1.
Proof.
  intros Hflag Hlen Hrefill Hffb Hshort. unfold next.
  rewrite bind_get, Hflag, bind_ret.
  rewrite decide_True by done. rewrite bind_ret.
  rewrite (bind_run _ _ _ _ _ Hrefill), bind_get, Hffb.
  rewrite bool_decide_eq_true_2 by done. simpl.
  apply end_of_epoch_bind.
Qed.

(** C5, as amended: with [fill_full_batch] every batch that [next] returns
    holds at least [batch_size] features and as many labels; and the pull
    that finds the cache short of [batch_size] pairs once refilled returns no
    batch: it ends the epoch (with [StopIteration], or the [IndexError] of a
    reset that fails) and leaves the cache as the refill left it. *)
Theorem full_batches_only it it' r :
  _fill_full_batch (kwargs it) = true →
  next argsort random_permutation it = (it', r) →
  (∀ ret_data, r = Ok ret_data →
   ∃ features labels,
     data_ids ret_data !! concat_name FEATURE_NAME_PREFIX IDS_NAME
     = Some features ∧
     data_ids ret_data !! concat_name LABEL_NAME_PREFIX IDS_NAME
     = Some labels ∧
     _batch_size (kwargs it) ≤ Z.of_nat (length features) ∧
     length labels = length features) ∧
  (∀ it1,
     _end_of_data it = false →
     length (_features_buffer it) = length (_labels_buffer it) →
     refill argsort random_permutation it = (it1, Ok ()) →
     Z.of_nat (length (_features_buffer it1)) < _batch_size (kwargs it) →
     (r = Raise StopIteration ∨ r = Raise IndexError) ∧
     cache it' = cache it1).
Proof.
  intros Hffb Hnext. split.
  - intros ret_data ->. apply next_pull in Hnext.
    inversion Hnext as [| | | |? ? ? Hflag Hlen Hrefill Hfull Hemit]; subst.
    apply refill_outcome_frame in Hrefill as (Hs & _ & _ & _ & _ & Hlen1).
    specialize (Hlen1 Hlen).
    injection Hs as _ _ Hbs _ _ Hffb1 _ _.
    rewrite Hffb in Hffb1. rewrite <-Hbs.
    assert (_batch_size (kwargs it1)
            ≤ Z.of_nat (length (_features_buffer it1))) as Hge.
    { destruct (decide (Z.of_nat (length (_features_buffer it1))
                        < _batch_size (kwargs it1))); [|lia].
      by destruct Hfull. }
    inversion Hemit as [| | |local ret_data0 ps Hlocal Hf Hl Hpack Hps];
      subst.
    apply pack_feed_dict_pair_records in Hpack as [Hids _].
    apply local_batch_size_of_ge in Hlocal.
    eexists _, _.
    assert (data_ids (if _fill_full_batch (kwargs it1)
                      then mk_data (data_ids ret_data0)
                                   (feed_dict ret_data0) None
                      else ret_data0) = data_ids ret_data0) as ->
      by (by destruct (_fill_full_batch (kwargs it1))).
    rewrite Hids. split; [|split; [|split]].
    + rewrite lookup_insert_ne by (by vm_compute).
      by rewrite lookup_singleton_eq.
    + by rewrite lookup_insert_eq.
    + by apply py_prefix_length_ge.
    + symmetry. by apply py_prefix_length_eq.
  - intros it1 Hflag Hlen Hrefill Hshort.
    pose proof (wp_elim _ _ _ _ _ (refill_sound argsort random_permutation it)
                  Hrefill) as Hout.
    apply refill_outcome_frame in Hout as (Hs & _).
    injection Hs as _ _ Hbs _ _ Hffb1 _ _.
    rewrite Hffb in Hffb1. rewrite <-Hbs in Hshort.
    rewrite (next_short_of_a_batch it it1) in Hnext by done.
    pose proof (wp_elim _ _ _ _ _
                  (end_of_epoch_run random_permutation it1) Hnext)
      as (e & -> & (_ & Hc & _ & _ & _ & _ & He)).
    split; [|done]. destruct He as [(-> & _) | ->]; [by left|by right].
Qed.
End full_batches.

Lemma full_batches_only_witness :
  let it := example_iterator
              (example_inputter example_features example_labels
                 (Some 2) None None true false) in
  ∃ it' ret_data,
    ParallelTextInputter._BigParallelDataIterator.next
      argsort_ties_first reversal it = (it', Ok ret_data) ∧
    data_ids ret_data
    = {[ "feature_ids" := [[1]; [2; 2]];
         "label_ids" := [[10; 10; 10]; [20; 20]] ]}.
Proof.
  intros it.
  destruct (ParallelTextInputter._BigParallelDataIterator.next
              argsort_ties_first reversal it) as [it' r] eqn:Hnext.
  destruct (full_batches_only argsort_ties_first reversal it it' r
              eq_refl Hnext) as [Hbatch _].
  vm_compute in Hnext. injection Hnext as <- <-.
  eexists _, _. split; [reflexivity|]. reflexivity.
Defined.

(** C5, as stated, fails in what it says of the remainder.  With three pairs
    in the corpora, a batch size of two, [fill_full_batch] and no bucketing,
    the first pull
    returns pairs one and two, and the second ends the epoch; but the third
    pair is not thrown away: it stays in the cache, and the third pull
    returns it together with the first pair of the next epoch. *)
Lemma remainder_is_carried_over :
  let it := example_iterator
              (example_inputter example_features example_labels
                 (Some 2) None None true false) in
  ids_of <$> (example_run 3 it).2
  = [ Ok {[ "feature_ids" := [[1]; [2; 2]];
            "label_ids" := [[10; 10; 10]; [20; 20]] ]};
      Raise StopIteration;
      Ok {[ "feature_ids" := [[3; 3; 3]; [1]];
            "label_ids" := [[30]; [10; 10; 10]] ]} ] ∧
  ParallelTextInputter._BigParallelDataIterator._features_buffer
    (example_run 2 it).1 = [[3; 3; 3]] ∧
  ParallelTextInputter._BigParallelDataIterator._labels_buffer
    (example_run 2 it).1 = [[30]].
Proof. vm_compute. done. Qed.

(** ** The pairing of features and labels *)

Section pairing.
Local Open Scope method_scope.
Import ParallelTextInputter ParallelTextInputter._BigParallelDataIterator.
Import Constants.
Context (F0 L0 : list (option Sequence)).
Implicit Types (it : ParallelTextInputter._BigParallelDataIterator.self).

Lemma paired_originally F L :
  Forall (λ fl, originally_paired F L fl.1 fl.2) (paired F L).
Proof.
  revert L. induction F as [|f F IH]; intros [|l L]; try by constructor.
  assert (Forall (λ fl, originally_paired (f :: F) (l :: L) fl.1 fl.2)
                 (paired F L)) as Hrest.
  { eapply Forall_impl; [apply IH|]. intros [s t] (j & ? & ?).
    by exists (S j). }
  destruct f as [s|], l as [t|]; try done.
  rewrite paired_cons_Some. constructor; [|done]. by exists 0%nat.
Qed.

Lemma paired_gather F L index F' L' :
  gather F index = Ok F' → gather L index = Ok L' →
  Forall (λ fl, originally_paired F L fl.1 fl.2) (paired F' L').
Proof.
  intros HF HL. apply gather_Forall2 in HF, HL.
  eapply Forall_impl; [apply paired_originally|].
  intros [s t] (j & Hs & Ht). simpl in *.
  destruct (Forall2_lookup_r _ _ _ _ _ HF Hs) as (i & Hi & ?).
  destruct (Forall2_lookup_r _ _ _ _ _ HL Ht) as (i' & Hi' & ?).
  exists i. split; [done|]. congruence.
Qed.

Lemma Forall2_unzip {A B} (R : A → B → Prop) (l : list (A * B)) :
  Forall (λ ab, R ab.1 ab.2) l → Forall2 R l.*1 l.*2.
Proof. induction 1; csimpl; by constructor. Qed.

Lemma gather_Forall2_pair {A B} (R : A → B → Prop) l k tidx l' k' :
  Forall2 R l k → gather l tidx = Ok l' → gather k tidx = Ok k' →
  Forall2 R l' k'.
Proof.
  intros HR Hl Hk. apply gather_Forall2 in Hl, Hk.
  revert k' Hk. induction Hl as [|i x tidx l' Hx _ IH]; intros k' Hk;
    inversion Hk as [|? y ? k'' Hy Hk']; subst; constructor; [|by apply IH].
  by eapply Forall2_lookup_lr.
Qed.

Lemma py_prefix_Forall2 {A B} (R : A → B → Prop) l k b :
  Forall2 R l k → Forall2 R (py_prefix l b) (py_prefix k b).
Proof.
  intros HR. unfold py_prefix. rewrite (Forall2_length _ _ _ HR).
  by apply Forall2_take.
Qed.

Lemma py_del_prefix_Forall2 {A B} (R : A → B → Prop) l k b :
  Forall2 R l k → Forall2 R (py_del_prefix l b) (py_del_prefix k b).
Proof.
  intros HR. unfold py_del_prefix. rewrite (Forall2_length _ _ _ HR).
  by apply Forall2_drop.
Qed.

Lemma py_slice_Forall2 {A B} (R : A → B → Prop) l k a b :
  Forall2 R l k → Forall2 R (py_slice l a b) (py_slice k a b).
Proof.
  intros HR. unfold py_slice. rewrite (Forall2_length _ _ _ HR).
  by apply Forall2_take, Forall2_drop.
Qed.

Lemma keeps_pairing_refilled it it1 :
  refilled it it1 → keeps_pairing F0 L0 it → keeps_pairing F0 L0 it1.
Proof.
  intros (rf & rl & -> & Hrest & (Hcf & _) & (Hcl & _)) (HF & HL & Hread & Hbuf).
  unfold keeps_pairing, features_reader_of, labels_reader_of in *. simpl.
  split; [congruence|]. split; [congruence|]. split.
  - rewrite Hrest. by apply Forall_drop.
  - apply Forall2_app; [done|]. by apply Forall2_unzip, Forall_take.
Qed.

Lemma keeps_pairing_arranged it1 it2 :
  arranged it1 it2 → keeps_pairing F0 L0 it1 → keeps_pairing F0 L0 it2.
Proof.
  intros (features & labels & Hfl & ->) (HF & HL & Hread & Hbuf).
  unfold keeps_pairing, features_reader_of, labels_reader_of in *. simpl.
  do 3 (split; [done|]).
  destruct (_bucketing (kwargs it1)).
  - destruct Hfl as (tidx & ? & ?). by eapply gather_Forall2_pair.
  - by destruct Hfl as [-> ->].
Qed.

Lemma keeps_pairing_refill_outcome it it1 :
  refill_outcome it it1 (Ok ()) →
  keeps_pairing F0 L0 it → keeps_pairing F0 L0 it1.
Proof.
  inversion 1; subst; [done|]. intros Hkeeps.
  by eapply keeps_pairing_arranged, keeps_pairing_refilled.
Qed.

Lemma keeps_pairing_after_cut it local_batch_size :
  keeps_pairing F0 L0 it → keeps_pairing F0 L0 (after_cut it local_batch_size).
Proof.
  intros (HF & HL & Hread & Hbuf).
  unfold keeps_pairing, features_reader_of, labels_reader_of, after_cut in *.
  case_decide; simpl; do 3 (split; [done|]); [constructor|].
  by apply py_del_prefix_Forall2.
Qed.

Lemma keeps_pairing_epoch_ended it it' :
  epoch_ended it it' StopIteration →
  keeps_pairing F0 L0 it → keeps_pairing F0 L0 it'.
Proof.
  intros (_ & Hc & _ & _ & Hrf & _ & He) (HF & HL & _ & Hbuf).
  destruct He as [(_ & Hrl & Hlinked)|?]; [|done].
  destruct Hrf as (Hcf & _ & Hposf), Hrl as (Hcl & _ & Hposl).
  injection Hc as Hfb Hlb _ _.
  unfold keeps_pairing. rewrite Hcf, Hcl, Hfb, Hlb.
  do 2 (split; [done|]). split; [|done].
  unfold LineReader.remaining. rewrite Hposf, Hposl, !drop_0.
  unfold linked in Hlinked. rewrite Hcf, Hcl, HF, HL in Hlinked.
  destruct (shuffles it').
  - destruct Hlinked as (index & Hgf & Hgl). by eapply paired_gather.
  - destruct Hlinked as [-> ->]. apply paired_originally.
Qed.

(** One step keeps the pairing, unless a reset or a sort failed, and the
    batch it returns is paired. *)
Lemma pull_keeps_pairing it it' r :
  pull it it' r → keeps_pairing F0 L0 it →
  (r ≠ Raise IndexError → keeps_pairing F0 L0 it') ∧
  (∀ ret_data, r = Ok ret_data → batch_paired F0 L0 ret_data).
Proof.
  assert (∀ it1 it2 e, epoch_ended it1 it2 e → keeps_pairing F0 L0 it1 →
            @Raise batch_record e ≠ Raise IndexError →
            keeps_pairing F0 L0 it2) as Hended.
  { intros it1 it2 e Hend Hkeeps He.
    assert (e = StopIteration) as ->; [|by eapply keeps_pairing_epoch_ended].
    destruct Hend as (_ & _ & _ & _ & _ & _ & [(-> & _) | ->]); done. }
  intros Hpull Hkeeps.
  destruct Hpull as [it' e Hflag Hend| |it' e Hflag Hlen Hrefill
                     |it1 it' e Hflag Hlen Hrefill Hffb Hshort Hend
                     |it1 it' r Hflag Hlen Hrefill Hfull Hemit].
  - split; [by eapply Hended|done].
  - done.
  - split; [|done]. intros He.
    inversion Hrefill as [| |it1 ? ? ? Hrefilled ? Hend|]; subst; [|done].
    eapply Hended; [done| |done]. by eapply keeps_pairing_refilled.
  - split; [|done]. eapply Hended; [done|].
    by eapply keeps_pairing_refill_outcome.
  - apply (keeps_pairing_refill_outcome _ _ Hrefill) in Hkeeps.
    destruct Hemit as [e Hlocal|local it' e Hlocal Hempty Hend
                       |local e Hlocal Hf Hl Hpack
                       |local ret_data ps Hlocal Hf Hl Hpack Hps].
    + done.
    + split; [|done]. eapply Hended; [done|].
      by apply keeps_pairing_after_cut.
    + split; [|done]. intros _. by apply keeps_pairing_after_cut.
    + split; [intros _; by apply keeps_pairing_after_cut|].
      intros ? [= <-].
      apply pack_feed_dict_pair_records in Hpack as [Hids _].
      exists (py_prefix (_features_buffer it1) local),
             (py_prefix (_labels_buffer it1) local).
      assert (data_ids (if _fill_full_batch (kwargs it1)
                        then mk_data (data_ids ret_data)
                                     (feed_dict ret_data) None
                        else ret_data) = data_ids ret_data) as ->
        by (by destruct (_fill_full_batch (kwargs it1))).
      rewrite Hids. split; [|split].
      * rewrite lookup_insert_ne by (by vm_compute).
        by rewrite lookup_singleton_eq.
      * by rewrite lookup_insert_eq.
      * destruct Hkeeps as (_ & _ & _ & Hbuf). by apply py_prefix_Forall2.
Qed.

Lemma pulls_keep_pairing argsort random_permutation n it k ret_data :
  keeps_pairing F0 L0 it →
  (pulls argsort random_permutation n it).2 !! k = Some (Ok ret_data) →
  (∀ j r, (j < k)%nat →
     (pulls argsort random_permutation n it).2 !! j = Some r →
     r ≠ Raise IndexError) →
  batch_paired F0 L0 ret_data.
Proof.
  revert it k. induction n as [|n IH]; intros it k Hkeeps; simpl; [done|].
  destruct (next argsort random_permutation it) as [it1 r] eqn:Hnext.
  apply next_pull in Hnext.
  destruct (pull_keeps_pairing _ _ _ Hnext Hkeeps) as [Hkeeps1 Hbatch].
  specialize (IH it1).
  destruct (pulls argsort random_permutation n it1) as [it2 rs]. simpl in *.
  destruct k as [|k]; simpl.
  - intros [= ->] _. by apply Hbatch.
  - intros Hk Hbefore. apply (IH k); [|done|].
    + apply Hkeeps1. by apply (Hbefore 0%nat); [lia|].
    + intros j r' Hj Hr'. apply (Hbefore (S j)); [lia|done].
Qed.

Lemma keeps_pairing_init argsort random_permutation input_fields this this' it :
  LineReader.corpus (_features_reader this) = F0 →
  LineReader.corpus (_labels_reader this) = L0 →
  make_feeding_data argsort random_permutation input_fields false this
  = (this', Ok (Iterator it)) →
  keeps_pairing F0 L0 it.
Proof.
  intros HF HL. unfold make_feeding_data. rewrite bind_get. simpl.
  destruct (init_run random_permutation input_fields this)
    as (it0 & r0 & -> & _ & Hrf & _ & Hr0).
  rewrite bind_modify. intros Hrun.
  destruct r0 as [[]|e]; simpl in Hrun; [|done]. injection Hrun as _ <-.
  destruct Hr0 as (Hc & _ & _ & Hrl & Hlinked).
  destruct Hrf as (Hcf & _ & Hposf), Hrl as (Hcl & _ & Hposl).
  injection Hc as Hfb Hlb _ _.
  unfold keeps_pairing. rewrite Hcf, Hcl, Hfb, Hlb.
  do 2 (split; [done|]). split; [|constructor].
  unfold LineReader.remaining. rewrite Hposf, Hposl, !drop_0.
  unfold linked in Hlinked. rewrite Hcf, Hcl, HF, HL in Hlinked.
  destruct (shuffles it0).
  - destruct Hlinked as (index & Hgf & Hgl). by eapply paired_gather.
  - destruct Hlinked as [-> ->]. apply paired_originally.
Qed.

Lemma batch_loop_paired input_fields this fuel ss_buf tt_buf idx data data' :
  Forall2 (originally_paired F0 L0) ss_buf tt_buf →
  Forall (batch_paired F0 L0) data →
  batch_loop input_fields this fuel ss_buf tt_buf idx data = Ok data' →
  Forall (batch_paired F0 L0) data'.
Proof.
  intros Hbuf. revert idx data.
  induction fuel as [|fuel IH]; intros idx data Hdata; simpl.
  - case_decide; [done|]. by intros [= <-].
  - case_decide; [|by intros [= <-]].
    destruct (pack_feed_dict _ _) as [d|e] eqn:Hpack; simpl; [|done].
    apply IH. apply Forall_app. split; [done|]. constructor; [|done].
    apply pack_feed_dict_pair_records in Hpack as [Hids _].
    eexists _, _. rewrite Hids. split; [|split].
    + rewrite lookup_insert_ne by (by vm_compute).
      by rewrite lookup_singleton_eq.
    + by rewrite lookup_insert_eq.
    + by apply py_slice_Forall2.
Qed.

Lemma small_parallel_data_paired argsort input_fields this this' data :
  LineReader.remaining (_features_reader this) = F0 →
  LineReader.remaining (_labels_reader this) = L0 →
  _small_parallel_data argsort input_fields this = (this', Ok data) →
  Forall (batch_paired F0 L0) data.
Proof.
  intros HF HL. unfold _small_parallel_data. rewrite bind_get.
  destruct (small_read_loop_run
              (S (length (LineReader.remaining (_features_reader this))))
              this [] [] F0 L0 HF HL ltac:(rewrite HF; lia))
    as (rf & rl & Hrun & _).
  rewrite (bind_run _ _ _ _ _ Hrun). simpl.
  unfold bind at 1, on_features_reader at 1. simpl.
  unfold bind at 1, on_labels_reader at 1. simpl.
  assert (Forall2 (originally_paired F0 L0)
                  (paired F0 L0).*1 (paired F0 L0).*2) as Hbuf
    by apply Forall2_unzip, paired_originally.
  unfold bind at 1. destruct (_bucketing this).
  - unfold lift at 1.
    destruct (bucket_pair argsort _ _) as [[ss tt]|e] eqn:Hb; [|done].
    apply bucket_pair_run in Hb as (tidx & Hs & Ht). unfold lift. simpl.
    intros [= _ Hloop]. eapply batch_loop_paired; [|constructor|exact Hloop].
    by eapply gather_Forall2_pair.
  - unfold ret, lift. simpl.
    intros [= _ Hloop]. eapply batch_loop_paired; [|constructor|exact Hloop].
    done.
Qed.

(** C1: for every inputter over two corpora, whatever its batch sizes and
    whether it buckets or shuffles, every batch that the streaming iterator
    returns, in any pull of any epoch, as long as no pull before it failed
    with [IndexError], and every batch that the in-memory reader returns
    when the readers stand at the start of their corpora, holds as many
    features as labels, and the feature at each position is the one that
    stands on the line of the label at that position. *)
Theorem pairing_invariant argsort random_permutation input_fields this :
  LineReader.corpus (_features_reader this) = F0 →
  LineReader.corpus (_labels_reader this) = L0 →
  (∀ this' it n k ret_data,
     make_feeding_data argsort random_permutation input_fields false this
     = (this', Ok (Iterator it)) →
     (pulls argsort random_permutation n it).2 !! k = Some (Ok ret_data) →
     (∀ j r, (j < k)%nat →
        (pulls argsort random_permutation n it).2 !! j = Some r →
        r ≠ Raise IndexError) →
     batch_paired F0 L0 ret_data) ∧
  (∀ this' data,
     LineReader.remaining (_features_reader this) = F0 →
     LineReader.remaining (_labels_reader this) = L0 →
     make_feeding_data argsort random_permutation input_fields true this
     = (this', Ok (InMemory data)) →
     Forall (batch_paired F0 L0) data).
Proof.
  intros HF HL. split.
  - intros this' it n k ret_data Hmake Hk Hbefore.
    eapply pulls_keep_pairing; [|done..].
    by eapply keeps_pairing_init.
  - intros this' data HF' HL'. unfold make_feeding_data.
    rewrite bind_get.
    destruct (_fill_full_batch this); [done|].
    destruct (truthy (_shuffle_every_epoch this)); [done|]. simpl.
    unfold bind.
    destruct (_small_parallel_data argsort input_fields this)
      as [this1 [data1|e]] eqn:Hsmall; [|done].
    intros [= _ <-]. by eapply small_parallel_data_paired.
Qed.
End pairing.

Lemma pairing_invariant_witness :
  let this := example_inputter example_features example_labels
                (Some 2) None (Some "seed") false true in
  let ret_data := example_batch 3 0 (example_iterator this) in
  (ParallelTextInputter._BigParallelDataIterator.pulls
     argsort_ties_first reversal 3 (example_iterator this)).2 !! 0%nat
  = Some (Ok ret_data) ∧
  ids_of (Ok ret_data)
  = Ok {[ "feature_ids" := [[3; 3; 3]; [2; 2]];
          "label_ids" := [[30]; [20; 20]] ]} ∧
  batch_paired example_features example_labels ret_data.
Proof.
  intros this ret_data.
  assert ((ParallelTextInputter._BigParallelDataIterator.pulls
             argsort_ties_first reversal 3 (example_iterator this)).2 !! 0%nat
          = Some (Ok ret_data)) as Hk by (vm_compute; reflexivity).
  assert (ParallelTextInputter.make_feeding_data
            argsort_ties_first reversal (example_slots 1) false this
          = ((ParallelTextInputter.make_feeding_data
                argsort_ties_first reversal (example_slots 1) false this).1,
             Ok (ParallelTextInputter.Iterator (example_iterator this))))
    as Hmake by (vm_compute; reflexivity).
  assert (LineReader.corpus (ParallelTextInputter._features_reader this)
          = example_features) as HF by (vm_compute; reflexivity).
  assert (LineReader.corpus (ParallelTextInputter._labels_reader this)
          = example_labels) as HL by (vm_compute; reflexivity).
  split; [exact Hk|]. split; [vm_compute; reflexivity|].
  pose proof (proj1 (pairing_invariant example_features example_labels
                       argsort_ties_first reversal (example_slots 1) this
                       HF HL)) as Hstreaming.
  apply (Hstreaming _ (example_iterator this) 3%nat 0%nat ret_data Hmake Hk).
  intros j r Hj. lia.
Defined.

(** * Further properties *)

(** ** [do_bucketing] on lists of other lengths *)

Section do_bucketing_lengths.
Context (argsort : list nat → list nat).
Context {A B : Type}.
Implicit Types (pivot : list (list A)) (args : list (list B)).

Lemma omap_lookup_seq_take {X} (l : list X) n :
  (n ≤ length l)%nat → omap (λ i, l !! i) (seq 0 n) = take n l.
Proof.
  intros Hn. rewrite <-(omap_lookup_seq (take n l)).
  rewrite length_take_le by done.
  apply list_omap_ext, Forall2_same_length_lookup. split; [done|].
  intros i x y Hx Hy. assert (x = y) as <- by congruence.
  apply lookup_seq in Hx as [-> Hi]. simpl. by rewrite lookup_take_lt.
Qed.

Lemma gather_prefix_Permutation {X} (l : list X) idx n l' :
  idx ≡ₚ seq 0 n → (n ≤ length l)%nat → gather l idx = Ok l' →
  l' ≡ₚ take n l.
Proof.
  intros Hp Hn Hg. apply gather_omap in Hg as ->.
  rewrite Hp. by rewrite omap_lookup_seq_take.
Qed.

Lemma gather_out_of_range {X} (l : list X) idx i :
  i ∈ idx → (length l ≤ i)%nat → gather l idx = Raise IndexError.
Proof.
  intros Hi Hlen. induction idx as [|j idx IH]; [by apply elem_of_nil in Hi|].
  simpl. destruct (l !! j) as [x|] eqn:Hj; [|done].
  apply elem_of_cons in Hi as [->|Hi].
  - apply lookup_lt_Some in Hj. lia.
  - by rewrite IH.
Qed.

Lemma gather_each_out_of_range args tidx :
  Exists (λ ele, gather ele tidx = Raise IndexError) args →
  gather_each args tidx = Raise IndexError.
Proof.
  induction 1 as [ele args Hele|ele args _ IH]; simpl.
  - by rewrite Hele.
  - destruct (gather ele tidx) as [_ele|e] eqn:Hele; simpl.
    + by rewrite IH.
    + by apply gather_only_raises_IndexError in Hele as ->.
Qed.

(** X1: [do_bucketing] indexes every other list with the index array of the
    pivot.  A list longer than the pivot loses what lies past the pivot's
    length, without a word; a list shorter than the pivot makes the call
    raise [IndexError]. *)
Theorem do_bucketing_lists_of_other_lengths pivot args :
  is_argsort (length <$> pivot) (argsort (length <$> pivot)) →
  (Forall (λ ele, length pivot ≤ length ele)%nat args →
   ∃ _pivot _args,
     do_bucketing argsort pivot args = Ok (_pivot, _args) ∧
     _pivot ≡ₚ pivot ∧
     Forall2 (λ ele _ele, _ele ≡ₚ take (length pivot) ele) args _args) ∧
  (Exists (λ ele, length ele < length pivot)%nat args →
   do_bucketing argsort pivot args = Raise IndexError).
Proof.
  intros [Hperm _]. rewrite length_fmap in Hperm.
  unfold do_bucketing. set (tidx := argsort (length <$> pivot)) in *.
  pose proof (Permutation_seq_in_range _ _ Hperm) as Hrange.
  destruct (gather_in_range pivot tidx Hrange) as [_pivot Hpivot].
  rewrite Hpivot. simpl. split.
  - intros Hargs.
    destruct (gather_each_in_range args tidx) as [_args H_args].
    { eapply Forall_impl; [exact Hargs|]. intros ele Hele. simpl in Hele.
      eapply Forall_impl; [exact Hrange|]. simpl. lia. }
    rewrite H_args. simpl. exists _pivot, _args. split; [done|].
    split; [by eapply gather_Permutation|].
    apply gather_each_Forall2 in H_args.
    induction H_args as [|ele _ele args _args H _ IH]; [constructor|].
    apply Forall_cons in Hargs as [Hle Hargs]. constructor; [|by apply IH].
    apply gather_Forall2 in H. by eapply gather_prefix_Permutation.
  - intros Hshort. rewrite gather_each_out_of_range; [done|].
    eapply Exists_impl; [exact Hshort|]. intros ele Hele. simpl in Hele.
    apply (gather_out_of_range _ _ (length pivot - 1)%nat); [|lia].
    rewrite Hperm. apply elem_of_seq. lia.
Qed.
End do_bucketing_lengths.

Lemma do_bucketing_lists_of_other_lengths_witness :
  (∃ _pivot _args,
     do_bucketing argsort_ties_first [[5; 5]; [6]] [[1; 2; 3]]
     = Ok (_pivot, _args) ∧
     _pivot ≡ₚ [[5; 5]; [6]] ∧
     Forall2 (λ ele _ele, _ele ≡ₚ take 2 ele) [[1; 2; 3]] _args) ∧
  do_bucketing argsort_ties_first [[5; 5]; [6]] [[1]] = Raise IndexError.
Proof.
  destruct (do_bucketing_lists_of_other_lengths argsort_ties_first
              [[5; 5]; [6]] [[1; 2; 3]]) as [Hlong _]; [compute_done|].
  destruct (do_bucketing_lists_of_other_lengths argsort_ties_first
              [[5; 5]; [6]] [[1%Z]]) as [_ Hshort]; [compute_done|].
  split.
  - apply Hlong. repeat constructor.
  - apply Hshort. apply Exists_cons_hd. simpl. lia.
Defined.

(** ** The errors of [pack_feed_dict] *)

Section errors_of_pack_feed_dict.
Local Open Scope nat_scope.
Import Constants.
Context (input_fields : list (gmap string placeholder)).
Implicit Types (d : list Sequence) (dt : batch_record).

Lemma feed_batchs_past_the_data n d p per i inpf dt :
  length d ≤ i * per →
  _feed_batchs n d p (length d) per i inpf dt = (dt, Ok 0).
Proof. intros Hle. unfold _feed_batchs. by rewrite decide_True. Qed.

Lemma feed_batchs_KeyError n d p per i inpf dt :
  i * per < length d → ¬ has_placeholders n inpf →
  (_feed_batchs n d p (length d) per i inpf dt).2 = Raise KeyError.
Proof.
  intros Hi Hno. unfold _feed_batchs. rewrite decide_False by lia.
  unfold padding_batch_data, bind, lift, modify, ret, getitem.
  destruct (inpf !! concat_name n IDS_NAME) as [ki|] eqn:Hki; [|done].
  destruct (inpf !! concat_name n LENGTH_NAME) as [kl|] eqn:Hkl; [|done].
  exfalso. apply Hno. split; by eexists.
Qed.

Lemma repeat_feed_batchs_result n d p per fs a dt :
  ∃ dt' r,
    repeat_n_times (length fs) (_feed_batchs n d p (length d) per)
                   (seq a (length fs)) fs dt = (dt', r) ∧
    data_ids dt' = data_ids dt ∧
    parallels dt' = parallels dt ∧
    ((served n d per a fs
      ∧ r = Ok (slot_count (length d) per <$> seq a (length fs)))
     ∨ (¬ served n d per a fs ∧ r = Raise KeyError)).
Proof.
  revert a dt. induction fs as [|inpf fs IH]; intros a dt.
  { exists dt, (Ok []). simpl. split_and!; try done. left. split; [|done].
    intros j inpf Hj. by rewrite lookup_nil in Hj. }
  assert (served n d per a (inpf :: fs)
          ↔ (a * per < length d → has_placeholders n inpf)
            ∧ served n d per (S a) fs) as Hserved.
  { unfold served. split.
    - intros H. split.
      + intros Hlt. apply (H 0 inpf); [done|]. by rewrite Nat.add_0_r.
      + intros j f Hj Hlt. apply (H (S j) f); [done|].
        by rewrite Nat.add_succ_r.
    - intros [H0 H] [|j] f Hj Hlt.
      + injection Hj as <-. apply H0. by rewrite Nat.add_0_r in Hlt.
      + apply (H j f); [done|]. by rewrite Nat.add_succ_r in Hlt. }
  simpl.
  pose proof (feed_batchs_keeps n d p (length d) per a inpf dt) as Hkeep.
  unfold wp in Hkeep. unfold bind at 1.
  destruct (_feed_batchs n d p (length d) per a inpf dt) as [dt1 r1] eqn:Hrun.
  simpl in Hkeep. destruct Hkeep as [Hids1 Hpar1].
  destruct (decide (length d ≤ a * per)) as [Hpast|Hin].
  - rewrite feed_batchs_past_the_data in Hrun by done.
    injection Hrun as <- <-.
    destruct (IH (S a) dt) as (dt' & r & Hrec & Hids & Hpar & Hr).
    unfold bind. rewrite Hrec.
    destruct Hr as [[Hs ->]|[Hs ->]].
    + eexists _, _. split; [done|]. split_and!; try done. left. split.
      * apply Hserved. split; [lia|done].
      * unfold ret. simpl. do 2 f_equal. unfold slot_count. lia.
    + eexists _, _. split; [done|]. split_and!; try done. right.
      split; [|done]. rewrite Hserved. tauto.
  - destruct (decide (is_Some (inpf !! concat_name n IDS_NAME)
                      ∧ is_Some (inpf !! concat_name n LENGTH_NAME)))
      as [Hhas|Hno].
    + destruct Hhas as [[ki Hki] [kl Hkl]].
      rewrite (feed_batchs_run _ _ _ _ _ _ _ _ _ Hki Hkl) in Hrun.
      rewrite decide_False in Hrun by done.
      injection Hrun as <- <-.
      destruct (IH (S a) (set_feed kl (slot_lengths d per a)
                            (set_feed ki (slot_ids d p per a) dt)))
        as (dt' & r & Hrec & Hids & Hpar & Hr).
      unfold bind. rewrite Hrec.
      destruct Hr as [[Hs ->]|[Hs ->]].
      * eexists _, _. split; [done|].
        split; [by rewrite Hids|]. split; [by rewrite Hpar|]. left. split.
        -- apply Hserved. split; [|done]. intros _. split; by eexists.
        -- done.
      * eexists _, _. split; [done|].
        split; [by rewrite Hids|]. split; [by rewrite Hpar|]. right.
        split; [|done]. rewrite Hserved. tauto.
    + pose proof (feed_batchs_KeyError n d p per a inpf dt
                    ltac:(lia) Hno) as Hr1.
      rewrite Hrun in Hr1. simpl in Hr1. subst r1.
      eexists _, _. split; [done|]. split_and!; try done. right.
      split; [|done]. rewrite Hserved. intros [H _]. apply Hno, H. lia.
Qed.

(** What one call of [map_fn] gives, whatever record it finds. *)
Lemma map_fn_result n d p dt :
  let per := n_samples_per_gpu_of (length d) (length input_fields) in
  ∃ dt' r,
    map_fn input_fields n d p dt = (dt', r) ∧
    data_ids dt' = <[concat_name n IDS_NAME := d]> (data_ids dt) ∧
    ((input_fields = [] ∧ r = Raise ZeroDivisionError)
     ∨ (input_fields ≠ [] ∧ slots_serve input_fields (n, d, p) ∧ r = Ok ()
        ∧ parallels dt'
          = Some (slot_count (length d) per <$> seq 0 (length input_fields)))
     ∨ (input_fields ≠ [] ∧ ¬ slots_serve input_fields (n, d, p)
        ∧ r = Raise KeyError)).
Proof.
  intros per. unfold map_fn. unfold bind at 1. unfold modify at 1.
  case_decide as HD.
  { eexists _, _. split; [done|]. split; [done|]. left.
    split; [|done]. by apply nil_length_inv. }
  assert (input_fields ≠ []) as Hne by (by intros ->).
  fold per.
  destruct (repeat_feed_batchs_result n d p per input_fields 0
              (set_ids (concat_name n IDS_NAME) d dt))
    as (dt1 & r1 & Hrun & Hids & Hpar & Hr).
  unfold bind. rewrite Hrun.
  destruct Hr as [[Hs ->]|[Hs ->]]; unfold modify; simpl.
  - eexists _, _. split; [done|]. simpl. split; [by rewrite Hids|].
    right; left. split_and!; done.
  - eexists _, _. split; [done|]. split; [by rewrite Hids|].
    right; right. split_and!; done.
Qed.

Lemma map_fn_each_result components dt :
  ∃ dt' r,
    map_fn_each input_fields components dt = (dt', r) ∧
    ((components = [] ∧ dt' = dt ∧ r = Ok ())
     ∨ (components ≠ [] ∧ input_fields = [] ∧ r = Raise ZeroDivisionError)
     ∨ (components ≠ [] ∧ input_fields ≠ []
        ∧ Forall (slots_serve input_fields) components ∧ r = Ok ())
     ∨ (components ≠ [] ∧ input_fields ≠ []
        ∧ ¬ Forall (slots_serve input_fields) components
        ∧ r = Raise KeyError)).
Proof.
  revert dt. induction components as [|[[n d] p] rest IH]; intros dt.
  { exists dt, (Ok ()). split; [done|]. by left. }
  simpl.
  destruct (map_fn_result n d p dt) as (dt1 & r1 & Hrun & _ & Hr1).
  unfold bind. rewrite Hrun.
  destruct Hr1 as [[HD ->]|[(HD & Hs & -> & _)|(HD & Hs & ->)]].
  - eexists _, _. split; [done|]. right; left. done.
  - destruct (IH dt1) as (dt' & r & Hrec & Hr). rewrite Hrec.
    eexists _, _. split; [done|].
    destruct Hr as [(-> & _ & ->)|[(_ & ? & _)|[(_ & _ & Hall & ->)
                                              |(_ & _ & Hall & ->)]]].
    + right; right; left. split_and!; try done. by constructor.
    + done.
    + right; right; left. split_and!; try done. by constructor.
    + right; right; right. split_and!; try done.
      intros H. by apply Forall_cons in H as [_ ?].
  - eexists _, _. split; [done|]. right; right; right.
    split_and!; try done. intros H. by apply Forall_cons in H as [? _].
Qed.

(** X2: [pack_feed_dict] fails in two ways only.  Without a device slot it
    divides by zero, as soon as there is a component to pack; with device
    slots it raises [KeyError] exactly when a slot that gets a block of some
    component lacks a placeholder of that component.  A slot past the data
    is never looked into. *)
Theorem pack_feed_dict_raises components :
  (components = [] → pack_feed_dict input_fields components = Ok empty_data) ∧
  (components ≠ [] → input_fields = [] →
   pack_feed_dict input_fields components = Raise ZeroDivisionError) ∧
  (input_fields ≠ [] →
   (is_Ok (pack_feed_dict input_fields components)
    ↔ Forall (slots_serve input_fields) components) ∧
   (¬ Forall (slots_serve input_fields) components →
    pack_feed_dict input_fields components = Raise KeyError)).
Proof.
  unfold pack_feed_dict.
  destruct (map_fn_each_result components empty_data) as (dt & r & -> & Hr).
  split; [|split].
  - intros Hc. by destruct Hr as [(_ & -> & ->)|[(? & _)|[(? & _)|(? & _)]]].
  - intros Hc HD.
    by destruct Hr as [(? & _)|[(_ & _ & ->)|[(_ & ? & _)|(_ & ? & _)]]].
  - intros HD.
    destruct Hr as [(-> & _ & ->)|[(_ & ? & _)|[(_ & _ & Hall & ->)
                                              |(_ & _ & Hall & ->)]]];
      [|done| |].
    + split; [|by intros []]. split; [by constructor|by eexists].
    + split; [|done]. split; [done|by eexists].
    + split; [|done]. split; [by intros [? ?]|done].
Qed.
End errors_of_pack_feed_dict.

(** ** One call of [next], stage by stage *)

Section next_by_stages.
Local Open Scope method_scope.
Import ParallelTextInputter ParallelTextInputter._BigParallelDataIterator.
Import Constants.
Context (argsort : list nat → list nat).
Context (random_permutation : nat → nat → list nat).
Implicit Types (it : ParallelTextInputter._BigParallelDataIterator.self).

Lemma refill_skip it :
  _batch_size (kwargs it) ≤ Z.of_nat (length (_features_buffer it)) →
  refill argsort random_permutation it = (it, Ok ()).
Proof.
  intros Hle. unfold refill. rewrite bind_get.
  by rewrite decide_False by lia.
Qed.

Lemma refill_run it :
  Z.of_nat (length (_features_buffer it)) < _batch_size (kwargs it) →
  ∃ it1,
    refilled it it1 ∧
    refill argsort random_permutation it
    = if decide (_features_buffer it1 = [] ∨ _labels_buffer it1 = [])
      then end_of_epoch random_permutation it1
      else put_in_order argsort it1.
Proof.
  intros Hlt. unfold refill. rewrite bind_get.
  rewrite decide_True by done.
  destruct (refill_loop_run
              (S (length (LineReader.remaining
                            (_features_reader (kwargs it)))))
              it (Z.of_nat (length (_features_buffer it))) _ _
              eq_refl eq_refl ltac:(lia))
    as (rf & rl & Hrun & Hpaired & Hrf & Hrl).
  match type of Hrun with _ = (?s, _) => set (it1 := s) in * end.
  assert (refilled it it1) as Hrefilled by (by exists rf, rl).
  exists it1. split; [done|].
  rewrite (bind_run _ _ _ _ _ Hrun). clearbody it1. rewrite bind_get.
  case_decide as Hempty.
  - rewrite decide_True.
    + apply end_of_epoch_bind.
    + destruct Hempty as [H|H]; [left|right]; by apply nil_length_inv.
  - rewrite decide_False.
    + rewrite bind_ret. unfold put_in_order.
      destruct (_bucketing (kwargs it1)).
      * by destruct (bucket_pair argsort _ _) as [bufs|e].
      * rewrite bind_ret. by destruct it1.
    + intros [H|H]; apply Hempty; rewrite H; simpl; auto.
Qed.

Lemma emit_run it local_batch_size :
  local_batch_size_of (_features_len_buffer it) (_labels_len_buffer it)
    (_batch_size (kwargs it)) (_batch_tokens_size (kwargs it))
  = Ok local_batch_size →
  emit random_permutation it
  = if decide (py_prefix (_features_buffer it) local_batch_size = []
               ∨ py_prefix (_labels_buffer it) local_batch_size = [])
    then end_of_epoch random_permutation (after_cut it local_batch_size)
    else match pack_feed_dict (_input_fields it)
                 (cut_components it local_batch_size) with
         | Ok ret_data =>
             (after_cut it local_batch_size,
              Ok (if _fill_full_batch (kwargs it)
                  then mk_data (data_ids ret_data) (feed_dict ret_data) None
                  else ret_data))
         | Raise e => (after_cut it local_batch_size, Raise e)
         end.
Proof.
  intros Hlocal. unfold emit. rewrite bind_get, Hlocal, bind_lift_Ok.
  match goal with
  | |- bind ?m _ _ = _ =>
      assert (m it = (after_cut it local_batch_size, Ok ())) as Hcut
  end.
  { unfold after_cut. by case_decide. }
  rewrite (bind_run _ _ _ _ _ Hcut). clear Hcut.
  case_decide as Hempty.
  - rewrite decide_True.
    + apply end_of_epoch_bind.
    + destruct Hempty as [H|H]; [left|right]; apply nil_length_inv; lia.
  - rewrite decide_False.
    + rewrite bind_ret. unfold cut_components.
      destruct (pack_feed_dict _ _) as [ret_data|e] eqn:Hpack.
      * rewrite bind_lift_Ok.
        destruct (pack_feed_dict_pair_records _ _ _ _ _ _ Hpack)
          as [_ [ps Hps]].
        destruct (_fill_full_batch (kwargs it)); [|done].
        unfold lift, pop_parallels. by rewrite Hps.
      * by rewrite bind_lift_Raise.
    + intros [H|H]; apply Hempty; rewrite H; simpl; auto.
Qed.

Lemma emit_growth_fails it e :
  local_batch_size_of (_features_len_buffer it) (_labels_len_buffer it)
    (_batch_size (kwargs it)) (_batch_tokens_size (kwargs it))
  = Raise e →
  emit random_permutation it = (it, Raise e).
Proof. intros Hlocal. unfold emit. by rewrite bind_get, Hlocal. Qed.

Lemma next_flag_up it :
  _end_of_data it = true →
  next argsort random_permutation it = end_of_epoch random_permutation it.
Proof.
  intros Hflag. unfold next. rewrite bind_get, Hflag.
  apply end_of_epoch_bind.
Qed.

Lemma next_buffers_differ it :
  _end_of_data it = false →
  length (_features_buffer it) ≠ length (_labels_buffer it) →
  next argsort random_permutation it = (it, Raise AssertionError).
Proof.
  intros Hflag Hlen. unfold next. rewrite bind_get, Hflag, bind_ret.
  by rewrite decide_False by done.
Qed.

Lemma next_run it :
  _end_of_data it = false →
  length (_features_buffer it) = length (_labels_buffer it) →
  next argsort random_permutation it
  = match refill argsort random_permutation it with
    | (it2, Ok _) =>
        if _fill_full_batch (kwargs it2)
           && bool_decide (Z.of_nat (length (_features_buffer it2))
                           < _batch_size (kwargs it2))
        then end_of_epoch random_permutation it2
        else emit random_permutation it2
    | (it2, Raise e) => (it2, Raise e)
    end.
Proof.
  intros Hflag Hlen. unfold next.
  rewrite bind_get, Hflag, bind_ret.
  rewrite decide_True by done. rewrite bind_ret.
  destruct (refill argsort random_permutation it) as [it2 [[]|e]] eqn:Hrefill.
  - rewrite (bind_run _ _ _ _ _ Hrefill), bind_get.
    destruct (_ && _); [apply end_of_epoch_bind|by rewrite bind_ret].
  - by rewrite (bind_run_Raise _ _ _ _ _ Hrefill).
Qed.
End next_by_stages.

(** ** Sorting the cache under numpy's contract *)

Section bucket_pair_contract.
Import ParallelTextInputter.
Context (argsort : list nat → list nat).

Lemma gather_zip {X Y} (l : list X) (k : list Y) idx l' k' :
  gather l idx = Ok l' → gather k idx = Ok k' →
  gather (zip l k) idx = Ok (zip l' k').
Proof.
  revert l' k'. induction idx as [|i idx IH]; simpl; intros l' k'.
  { by intros [= <-] [= <-]. }
  rewrite lookup_zip_with.
  destruct (l !! i) as [x|]; [|done]. destruct (k !! i) as [y|]; [|done].
  destruct (gather l idx) as [l1|]; [|done].
  destruct (gather k idx) as [k1|]; [|done]. simpl.
  intros [= <-] [= <-]. by rewrite (IH l1 k1).
Qed.

Global Instance by_length_trans : Transitive by_length.
Proof. unfold by_length. intros s t u. lia. Qed.

Lemma Sorted_take {X} (R : relation X) `{!Transitive R} n (l : list X) :
  Sorted R l → Sorted R (take n l).
Proof.
  intros Hl. apply StronglySorted_Sorted.
  apply (Sorted_StronglySorted R) in Hl.
  rewrite <-(take_drop n l) in Hl. by apply StronglySorted_app_1_l in Hl.
Qed.

Lemma Sorted_drop {X} (R : relation X) `{!Transitive R} n (l : list X) :
  Sorted R l → Sorted R (drop n l).
Proof.
  intros Hl. apply StronglySorted_Sorted.
  apply (Sorted_StronglySorted R) in Hl.
  rewrite <-(take_drop n l) in Hl. by apply StronglySorted_app_1_r in Hl.
Qed.

(** Under numpy's contract for the call, [bucket_pair] returns: the pairs
    are those it was given, in some order, and the labels come in
    non-decreasing order of length. *)
Lemma bucket_pair_sorts ss_buf tt_buf :
  is_argsort (length <$> tt_buf) (argsort (length <$> tt_buf)) →
  length ss_buf = length tt_buf →
  ∃ ss' tt',
    bucket_pair argsort ss_buf tt_buf = Ok (ss', tt') ∧
    zip ss' tt' ≡ₚ zip ss_buf tt_buf ∧
    length ss' = length tt' ∧
    Sorted by_length tt'.
Proof.
  intros [Hperm Hsorted] Hlen. rewrite length_fmap in Hperm.
  unfold bucket_pair, do_bucketing.
  set (tidx := argsort (length <$> tt_buf)) in *.
  pose proof (Permutation_seq_in_range _ _ Hperm) as Hrange.
  destruct (gather_in_range tt_buf tidx Hrange) as [tt' Htt].
  destruct (gather_in_range ss_buf tidx) as [ss' Hss].
  { by rewrite Hlen. }
  simpl. rewrite Htt. simpl. rewrite Hss. simpl.
  exists ss', tt'. split; [done|]. split; [|split].
  - eapply gather_Permutation; [|by apply gather_zip].
    rewrite length_zip, Hlen, Nat.min_id. done.
  - transitivity (length tidx);
      [by eapply gather_length|symmetry; by eapply gather_length].
  - apply gather_omap in Htt as ->.
    apply Sorted_by_length. by rewrite fmap_length_omap_lookup.
Qed.
End bucket_pair_contract.

(** ** The batch size of one call *)

Section local_batch_size.
Import ParallelTextInputter._BigParallelDataIterator.

Lemma grow_loop_ends fuel fl ll T ss st local :
  Z.of_nat (length fl) - local ≤ Z.of_nat fuel →
  grow_loop fuel fl ll T ss st local ≠ Raise Diverge.
Proof.
  revert ss st local. induction fuel as [|fuel IH]; intros ss st local Hfuel.
  - simpl. repeat case_decide; try done. lia.
  - simpl. repeat case_decide; try done.
    destruct (py_index fl local) as [s|e] eqn:Hs; simpl.
    + destruct (py_index ll local) as [t|e] eqn:Ht; simpl.
      * apply IH. lia.
      * apply (only_py_index (λ e, e = IndexError)) in Ht as ->; done.
    + apply (only_py_index (λ e, e = IndexError)) in Hs as ->; done.
Qed.

(** The growth loop always ends: [local_batch_size] is computed, or an
    index is out of range. *)
Lemma local_batch_size_of_ends fl ll batch_size batch_tokens_size e :
  local_batch_size_of fl ll batch_size batch_tokens_size = Raise e →
  e = IndexError.
Proof.
  intros Hlocal.
  assert (e ≠ Diverge) as Hne.
  { intros ->. destruct batch_tokens_size as [T|]; [|done].
    simpl in Hlocal. eapply grow_loop_ends; [|exact Hlocal]. lia. }
  eapply (only_local_batch_size_of (λ e, e = IndexError ∨ e = Diverge))
    in Hlocal as [->| ->]; auto; done.
Qed.

Lemma local_batch_size_of_run fl ll batch_size batch_tokens_size :
  length ll = length fl → 0 ≤ batch_size →
  ∃ local,
    local_batch_size_of fl ll batch_size batch_tokens_size = Ok local ∧
    batch_size ≤ local.
Proof.
  intros Hlen Hbs. destruct batch_tokens_size as [T|]; simpl; [|by eexists].
  rewrite !py_prefix_nonneg by done.
  destruct (grow_loop_run fl ll T
              (Z.to_nat (Z.of_nat (length fl) - batch_size))
              (Z.to_nat batch_size) Hlen ltac:(lia))
    as (n' & Hrun & Hge & _).
  rewrite Z2Nat.id in Hrun by done.
  exists (Z.of_nat n'). split; [done|]. lia.
Qed.
End local_batch_size.

(** ** An index sort within the contract *)

Lemma omap_lookup_total (tlen idx : list nat) :
  Forall (λ i, i < length tlen)%nat idx →
  omap (λ i, tlen !! i) idx = (λ i, tlen !!! i) <$> idx.
Proof.
  induction 1 as [|i idx Hi _ IH]; [done|]. csimpl.
  by rewrite (list_lookup_lookup_total_lt tlen i Hi), IH.
Qed.

Lemma argsort_ties_first_contract tlen :
  is_argsort tlen (argsort_ties_first tlen).
Proof.
  unfold is_argsort, argsort_ties_first.
  split; [apply merge_sort_Permutation|].
  rewrite omap_lookup_total.
  - eapply Sorted_fmap; [|apply Sorted_merge_sort].
    + intros i j. unfold key_then_index. lia.
    + intros i j. unfold key_then_index. lia.
  - eapply Permutation_seq_in_range, merge_sort_Permutation.
Qed.

(** ** What [next] raises *)

Section pulls_raise.
Import ParallelTextInputter ParallelTextInputter._BigParallelDataIterator.
Context (argsort : list nat → list nat).
Context (random_permutation : nat → nat → list nat).
Implicit Types (it : ParallelTextInputter._BigParallelDataIterator.self).

Lemma after_cut_lengths it local_batch_size :
  length (_features_buffer it) = length (_labels_buffer it) →
  length (_features_buffer (after_cut it local_batch_size))
  = length (_labels_buffer (after_cut it local_batch_size)).
Proof.
  intros Hlen. unfold after_cut. case_decide; simpl; [done|].
  unfold py_del_prefix. by rewrite !length_drop, Hlen.
Qed.

Lemma epoch_ended_lengths it it' e :
  epoch_ended it it' e →
  length (_features_buffer it) = length (_labels_buffer it) →
  length (_features_buffer it') = length (_labels_buffer it').
Proof. intros (_ & Hc & _). injection Hc as -> -> _ _. done. Qed.

Lemma epoch_ended_raises it it' e : epoch_ended it it' e → pull_raises e.
Proof.
  intros (_ & _ & _ & _ & _ & _ & [(-> & _)| ->]); unfold pull_raises; auto.
Qed.

Lemma pull_raises_and_lengths it it' r :
  pull it it' r →
  length (_features_buffer it) = length (_labels_buffer it) →
  only pull_raises r ∧
  length (_features_buffer it') = length (_labels_buffer it').
Proof.
  intros Hpull Hlen.
  destruct Hpull as [it' e Hflag Hend|Hflag Hne|it' e Hflag _ Hrefill
                     |it1 it' e Hflag _ Hrefill Hffb Hshort Hend
                     |it1 it' r Hflag _ Hrefill Hfull Hemit].
  - split; [|by eapply epoch_ended_lengths].
    apply only_Raise. by eapply epoch_ended_raises.
  - done.
  - inversion Hrefill as [| |it1 ? ? ? Hrefilled ? Hend
                          |it1 ? Hrefilled]; subst.
    + apply refilled_frame in Hrefilled as (_ & _ & _ & _ & _ & Hlen1).
      split; [|eapply epoch_ended_lengths; eauto].
      apply only_Raise. by eapply epoch_ended_raises.
    + apply refilled_frame in Hrefilled as (_ & _ & _ & _ & _ & Hlen1).
      split; [|by apply Hlen1]. apply only_Raise. unfold pull_raises. auto.
  - apply refill_outcome_frame in Hrefill as (_ & _ & _ & _ & _ & Hlen1).
    split; [|eapply epoch_ended_lengths; eauto].
    apply only_Raise. by eapply epoch_ended_raises.
  - apply refill_outcome_frame in Hrefill as (_ & _ & _ & _ & _ & Hlen1).
    specialize (Hlen1 Hlen).
    destruct Hemit as [e Hlocal|local it' e Hlocal Hempty Hend
                       |local e Hlocal Hf Hl Hpack
                       |local ret_data ps Hlocal Hf Hl Hpack Hps].
    + split; [|done]. apply only_Raise.
      apply local_batch_size_of_ends in Hlocal as ->.
      unfold pull_raises. auto.
    + split.
      * apply only_Raise. by eapply epoch_ended_raises.
      * eapply epoch_ended_lengths; [done|]. by apply after_cut_lengths.
    + split; [|by apply after_cut_lengths]. apply only_Raise.
      eapply (only_pack_feed_dict pull_raises); [..|exact Hpack];
        unfold pull_raises; auto.
    + split; [apply only_Ok|by apply after_cut_lengths].
Qed.

(** X3: An iterator whose token budget, if it has one, is within the range of
    numpy's [int64], and whose two buffers hold equally many sequences, as
    the one [make_feeding_data] builds does, keeps its buffers so over any
    number of calls of [next].  Every call returns, its loops end; and what
    a call raises is [StopIteration], [IndexError], [KeyError] or
    [ZeroDivisionError]: the assertion on the buffer sizes never fails.
    (Past the range of [int64] numpy refuses to compare the budget with a
    token sum, which the integers of the model do not show.) *)
Theorem buffer_size_assertion_never_fails n it :
  budget_in_int64 (kwargs it) →
  length (_features_buffer it) = length (_labels_buffer it) →
  Forall (only pull_raises) (pulls argsort random_permutation n it).2 ∧
  Forall (λ r, r ≠ Raise AssertionError ∧ r ≠ Raise Diverge)
         (pulls argsort random_permutation n it).2 ∧
  length (_features_buffer (pulls argsort random_permutation n it).1)
  = length (_labels_buffer (pulls argsort random_permutation n it).1).
Proof.
  intros _. revert it. induction n as [|n IH]; intros it Hlen; simpl.
  { split_and!; [constructor|constructor|done]. }
  destruct (next argsort random_permutation it) as [it1 r] eqn:Hnext.
  apply next_pull in Hnext.
  destruct (pull_raises_and_lengths _ _ _ Hnext Hlen) as [Hr Hlen1].
  destruct (IH it1 Hlen1) as (Hrs & Hnever & Hlen2).
  destruct (pulls argsort random_permutation n it1) as [it2 rs]. simpl in *.
  split_and!; [by constructor| |done].
  constructor; [|done].
  split; intros ->; by destruct (Hr _ eq_refl) as [?|[?|[?|?]]].
Qed.
End pulls_raise.

Lemma buffer_size_assertion_never_fails_witness :
  let it := example_iterator
              (example_inputter example_features example_labels
                 (Some 2) (Some 24) None false true) in
  Forall (only pull_raises) (example_run 4 it).2 ∧
  Forall (λ r, r ≠ Raise AssertionError ∧ r ≠ Raise Diverge)
         (example_run 4 it).2 ∧
  length (ParallelTextInputter._BigParallelDataIterator._features_buffer
            (example_run 4 it).1)
  = length (ParallelTextInputter._BigParallelDataIterator._labels_buffer
              (example_run 4 it).1).
Proof.
  intros it.
  apply (buffer_size_assertion_never_fails argsort_ties_first reversal 4 it).
  - intros T [= <-]. lia.
  - reflexivity.
Defined.
(** ** The shape of a batch *)

Section batch_shape.
Local Open Scope method_scope.
Import ParallelTextInputter ParallelTextInputter._BigParallelDataIterator.
Import Constants.
Context (argsort : list nat → list nat).
Context (random_permutation : nat → nat → list nat).
Implicit Types (it : ParallelTextInputter._BigParallelDataIterator.self).

(** The record of a pair of components carries the device counts of the
    second one. *)
Lemma pack_feed_dict_pair_parallels input_fields features fp labels lp
    ret_data :
  pack_feed_dict input_fields
    [(FEATURE_NAME_PREFIX, features, fp); (LABEL_NAME_PREFIX, labels, lp)]
  = Ok ret_data →
  input_fields ≠ [] ∧
  parallels ret_data
  = Some (slot_count (length labels)
            (n_samples_per_gpu_of (length labels) (length input_fields))
          <$> seq 0 (length input_fields)).
Proof.
  unfold pack_feed_dict. simpl.
  destruct (map_fn_result input_fields FEATURE_NAME_PREFIX features fp
              empty_data) as (dt1 & r1 & Hrun1 & _ & Hr1).
  unfold bind at 1. rewrite Hrun1.
  destruct Hr1 as [[_ ->]|[(HD & _ & -> & _)|(_ & _ & ->)]]; [done| |done].
  destruct (map_fn_result input_fields LABEL_NAME_PREFIX labels lp dt1)
    as (dt2 & r2 & Hrun2 & _ & Hr2).
  unfold bind at 1. rewrite Hrun2.
  destruct Hr2 as [[_ ->]|[(_ & _ & -> & Hpar)|(_ & _ & ->)]]; [done| |done].
  unfold ret. by intros [= <-].
Qed.

Lemma sum_slot_counts_all B D :
  (1 ≤ D)%nat →
  sum_list (slot_count B (n_samples_per_gpu_of B D) <$> seq 0 D) = B.
Proof.
  intros HD. rewrite sum_slot_counts by lia.
  destruct (n_samples_per_gpu_is_ceil B D HD) as [Hceil _]. lia.
Qed.

(** X4: Every batch that [next] returns holds at least one pair, as many
    features as labels, and nothing but these under the two names.  Without
    a token budget it holds at most [batch_size] pairs.  With
    [fill_full_batch] its feed dictionary has no entry [parallels]; without,
    the entry lists one count per device slot, and the counts add up to the
    size of the batch. *)
Theorem emitted_batch_shape it it' ret_data :
  next argsort random_permutation it = (it', Ok ret_data) →
  ∃ features labels,
    data_ids ret_data
    = {[ concat_name LABEL_NAME_PREFIX IDS_NAME := labels;
         concat_name FEATURE_NAME_PREFIX IDS_NAME := features ]} ∧
    features ≠ [] ∧
    length features = length labels ∧
    (_batch_tokens_size (kwargs it) = None → 0 ≤ _batch_size (kwargs it) →
     Z.of_nat (length features) ≤ _batch_size (kwargs it)) ∧
    (if _fill_full_batch (kwargs it) then parallels ret_data = None
     else ∃ ps, parallels ret_data = Some ps
                ∧ length ps = length (_input_fields it)
                ∧ sum_list ps = length labels).
Proof.
  intros Hnext. apply next_pull in Hnext.
  inversion Hnext as [| | | |? ? ? Hflag Hlen Hrefill Hfull Hemit]; subst.
  apply refill_outcome_frame in Hrefill as (Hs & _ & Hi & _ & _ & Hlen1).
  specialize (Hlen1 Hlen).
  injection Hs as _ _ Hbs Hbts _ Hffb _ _.
  inversion Hemit as [| | |local ret_data0 ps Hlocal Hf Hl Hpack Hps]; subst.
  destruct (pack_feed_dict_pair_records _ _ _ _ _ _ Hpack) as [Hids _].
  destruct (pack_feed_dict_pair_parallels _ _ _ _ _ _ Hpack) as [HD Hpar].
  exists (py_prefix (_features_buffer it1) local),
         (py_prefix (_labels_buffer it1) local).
  split; [by destruct (_fill_full_batch (kwargs it1))|].
  split; [done|]. split; [by apply py_prefix_length_eq|]. split.
  - intros Hnone Hpos. rewrite Hnone in Hbts. rewrite Hbts in Hlocal.
    simpl in Hlocal. injection Hlocal as <-. rewrite Hbs.
    rewrite py_prefix_length, slice_bound_nonneg by lia. lia.
  - rewrite <-Hffb. destruct (_fill_full_batch (kwargs it1)); [done|].
    eexists. split; [exact Hpar|].
    rewrite length_fmap, length_seq, Hi. split; [done|].
    apply sum_slot_counts_all.
    destruct (_input_fields it); [done|simpl; lia].
Qed.
End batch_shape.

Lemma emitted_batch_shape_witness :
  let it := example_iterator
              (example_inputter example_features example_labels
                 (Some 2) None None false false) in
  ∃ it' ret_data,
    ParallelTextInputter._BigParallelDataIterator.next
      argsort_ties_first reversal it = (it', Ok ret_data) ∧
    data_ids ret_data
    = {[ "label_ids" := [[10; 10; 10]; [20; 20]];
         "feature_ids" := [[1]; [2; 2]] ]} ∧
    parallels ret_data = Some [2%nat].
Proof.
  intros it.
  destruct (ParallelTextInputter._BigParallelDataIterator.next
              argsort_ties_first reversal it) as [it' r] eqn:Hnext.
  assert (∃ ret_data, r = Ok ret_data) as [ret_data ->].
  { vm_compute in Hnext. injection Hnext as _ <-. by eexists. }
  destruct (emitted_batch_shape argsort_ties_first reversal it it' ret_data
              Hnext) as (features & labels & Hids & _).
  exists it', ret_data. split; [done|].
  vm_compute in Hnext. injection Hnext as _ <-. split; reflexivity.
Defined.

(** ** Sizes that are not positive *)

Section no_room_for_a_batch.
Local Open Scope method_scope.
Import ParallelTextInputter ParallelTextInputter._BigParallelDataIterator.
Import Constants.
Context (argsort : list nat → list nat).
Context (random_permutation : nat → nat → list nat).
Implicit Types (it : ParallelTextInputter._BigParallelDataIterator.self).

Lemma no_room_settings k k' : settings k' = settings k → no_room k → no_room k'.
Proof.
  intros Hs. injection Hs as _ _ Hbs Hbts _ _ _ Hcs.
  unfold no_room. by rewrite Hbs, Hbts, Hcs.
Qed.

Lemma end_of_epoch_no_room {A} it :
  cache it = ([], [], [], []) → no_room (kwargs it) →
  ∃ it' e,
    @end_of_epoch random_permutation A it = (it', Raise e) ∧
    (e = StopIteration ∨ e = IndexError) ∧
    cache it' = ([], [], [], []) ∧ _end_of_data it' = false ∧
    no_room (kwargs it').
Proof.
  intros Hc Hno.
  destruct (@end_of_epoch random_permutation A it) as [it' r] eqn:Hrun.
  destruct (wp_elim _ _ _ _ _ (end_of_epoch_run random_permutation it) Hrun)
    as (e & -> & Hend).
  exists it', e. split; [done|].
  destruct Hend as (Hs & Hc' & Hflag & _ & _ & _ & He).
  split; [destruct He as [(-> & _)| ->]; auto|].
  split; [congruence|]. split; [done|]. by eapply no_room_settings.
Qed.

Lemma next_no_room it it' r :
  cache it = ([], [], [], []) → _end_of_data it = false →
  no_room (kwargs it) →
  next argsort random_permutation it = (it', r) →
  (r = Raise StopIteration ∨ r = Raise IndexError) ∧
  cache it' = ([], [], [], []) ∧ _end_of_data it' = false ∧
  no_room (kwargs it').
Proof.
  intros Hc Hflag Hno. injection Hc as Hfb Hlb Hfl Hll.
  rewrite next_run by (by rewrite ?Hfb, ?Hlb).
  destruct (decide (_batch_size (kwargs it) ≤ 0)) as [Hbs|Hbs].
  - rewrite refill_skip by (rewrite Hfb; simpl; lia).
    rewrite bool_decide_eq_false_2 by (rewrite Hfb; simpl; lia).
    rewrite andb_false_r.
    assert (local_batch_size_of (_features_len_buffer it)
              (_labels_len_buffer it) (_batch_size (kwargs it))
              (_batch_tokens_size (kwargs it))
            = Ok (_batch_size (kwargs it))) as Hlocal.
    { rewrite Hfl, Hll.
      destruct Hno as [[-> _]|(T & -> & HT & _)]; [done|].
      unfold local_batch_size_of, py_prefix. rewrite take_nil.
      destruct (Z.to_nat _); simpl; by rewrite decide_True by lia. }
    rewrite (emit_run _ _ _ Hlocal).
    rewrite decide_True
      by (left; rewrite Hfb; unfold py_prefix; by rewrite take_nil).
    destruct (end_of_epoch_no_room (A:=batch_record)
                (after_cut it (_batch_size (kwargs it))))
      as (it1 & e & -> & He & Hrest).
    { unfold after_cut, cache, py_del_prefix. rewrite Hfb, Hlb, Hfl, Hll.
      case_decide; simpl; by rewrite ?drop_nil. }
    { by rewrite (proj1 (after_cut_frame _ _)). }
    intros [= <- <-]. split; [|done]. destruct He as [-> | ->]; auto.
  - destruct (refill_run argsort random_permutation it)
      as (it1 & Hrefilled & ->); [rewrite Hfb; simpl; lia|].
    destruct Hno as [[_ ?]|(T & Hbts & HT & Hcs)]; [lia|].
    assert (cache it1 = ([], [], [], []) ∧ no_room (kwargs it1)) as [Hc1 Hno1].
    { destruct Hrefilled as (rf & rl & -> & _). unfold cache. simpl.
      rewrite Hfb, Hlb, Hfl, Hll. simpl.
      replace (Z.to_nat (_cache_size (kwargs it) - Z.of_nat 0))
        with 0%nat by lia.
      rewrite take_0. split; [done|]. right. by exists T. }
    rewrite decide_True by (left; by injection Hc1 as ->).
    destruct (end_of_epoch_no_room (A:=unit) it1 Hc1 Hno1)
      as (it2 & e & -> & He & Hrest).
    intros [= <- <-]. split; [|done]. destruct He as [-> | ->]; auto.
Qed.

Lemma init_no_room input_fields this this' it
    features_reader labels_reader features_padding_id labels_padding_id
    batch_size batch_tokens_size shuffle_every_epoch fill_full_batch
    bucketing :
  ParallelTextInputter.__init__ features_reader labels_reader
    features_padding_id labels_padding_id batch_size batch_tokens_size
    shuffle_every_epoch fill_full_batch bucketing = Ok this →
  (batch_tokens_size = None ∧ ∃ bs, batch_size = Some bs ∧ bs ≤ 0)
  ∨ (∃ T, batch_tokens_size = Some T ∧ T ≤ 0) →
  make_feeding_data argsort random_permutation input_fields false this
  = (this', Ok (Iterator it)) →
  cache it = ([], [], [], []) ∧ _end_of_data it = false ∧ no_room (kwargs it).
Proof.
  intros Hinit Hsizes. unfold make_feeding_data. rewrite bind_get. simpl.
  destruct (init_run random_permutation input_fields this)
    as (it0 & r0 & -> & Hs & _ & _ & Hr0).
  rewrite bind_modify. intros Hrun.
  destruct r0 as [[]|e]; simpl in Hrun; [|done]. injection Hrun as _ <-.
  destruct Hr0 as (Hc & Hflag & _). split; [done|]. split; [done|].
  eapply no_room_settings; [exact Hs|].
  unfold ParallelTextInputter.__init__ in Hinit.
  destruct Hsizes as [(-> & bs & -> & Hbs)|(T & -> & HT)].
  - injection Hinit as <-. by left.
  - destruct batch_size; injection Hinit as <-; right; exists T; simpl;
      split_and!; try done; lia.
Qed.

(** X5: An inputter built with a batch size that is not positive and no token
    budget, or with a token budget that is not positive, gives an iterator
    that never returns a batch: every call of [next] ends the epoch, or
    fails in resetting the readers. *)
Theorem sizes_not_positive_yield_no_batch input_fields this this' it n
    features_reader labels_reader features_padding_id labels_padding_id
    batch_size batch_tokens_size shuffle_every_epoch fill_full_batch
    bucketing :
  ParallelTextInputter.__init__ features_reader labels_reader
    features_padding_id labels_padding_id batch_size batch_tokens_size
    shuffle_every_epoch fill_full_batch bucketing = Ok this →
  (batch_tokens_size = None ∧ ∃ bs, batch_size = Some bs ∧ bs ≤ 0)
  ∨ (∃ T, batch_tokens_size = Some T ∧ T ≤ 0) →
  make_feeding_data argsort random_permutation input_fields false this
  = (this', Ok (Iterator it)) →
  Forall (λ r, r = Raise StopIteration ∨ r = Raise IndexError)
         (pulls argsort random_permutation n it).2.
Proof.
  intros Hinit Hsizes Hmake.
  destruct (init_no_room _ _ _ _ _ _ _ _ _ _ _ _ _ Hinit Hsizes Hmake)
    as (Hc & Hflag & Hno).
  clear Hinit Hsizes Hmake. revert it Hc Hflag Hno.
  induction n as [|n IH]; intros it Hc Hflag Hno; simpl; [constructor|].
  destruct (next argsort random_permutation it) as [it1 r] eqn:Hnext.
  destruct (next_no_room _ _ _ Hc Hflag Hno Hnext) as (Hr & Hc1 & Hflag1 & Hno1).
  specialize (IH it1 Hc1 Hflag1 Hno1).
  destruct (pulls argsort random_permutation n it1) as [it2 rs].
  by constructor.
Qed.
End no_room_for_a_batch.

Lemma sizes_not_positive_yield_no_batch_witness :
  let this := example_inputter example_features example_labels
                (Some 0) None None false true in
  (example_run 3 (example_iterator this)).2
  = [Raise StopIteration; Raise StopIteration; Raise StopIteration] ∧
  Forall (λ r, r = Raise StopIteration ∨ r = Raise IndexError)
         (example_run 3 (example_iterator this)).2.
Proof.
  intros this. split; [by vm_compute|].
  apply (sizes_not_positive_yield_no_batch argsort_ties_first reversal
           (example_slots 1) this
           (ParallelTextInputter.make_feeding_data argsort_ties_first
              reversal (example_slots 1) false this).1
           (example_iterator this) 3
           (LineReader.open example_features) (LineReader.open example_labels)
           0 0 (Some 0) None None false true).
  - reflexivity.
  - left. split; [done|]. exists 0. split; [done|lia].
  - by vm_compute.
Defined.

(** ** Bucketing sorts every batch *)

Section sorted_batches.
Local Open Scope method_scope.
Import ParallelTextInputter ParallelTextInputter._BigParallelDataIterator.
Import Constants.
Context (argsort : list nat → list nat).
Context (random_permutation : nat → nat → list nat).
Hypothesis Hargsort : ∀ tlen, is_argsort tlen (argsort tlen).
Implicit Types (it : ParallelTextInputter._BigParallelDataIterator.self).

Lemma end_of_epoch_in_order {A} it it' (r : result A) :
  in_order it → end_of_epoch random_permutation it = (it', r) →
  in_order it' ∧ ¬ is_Ok r.
Proof.
  intros [Hb Hsorted] Hrun.
  destruct (wp_elim _ _ _ _ _ (end_of_epoch_run random_permutation it) Hrun)
    as (e & -> & Hs & Hc & _).
  injection Hs as _ _ _ _ _ _ Hb' _. injection Hc as _ Hlb _ _.
  split; [|by intros [? ?]]. split; congruence.
Qed.

Lemma after_cut_in_order it local_batch_size :
  in_order it → in_order (after_cut it local_batch_size).
Proof.
  intros [Hb Hsorted]. split; [by rewrite (proj1 (after_cut_frame _ _))|].
  unfold after_cut. case_decide; simpl; [constructor|].
  unfold py_del_prefix. by apply (Sorted_drop by_length).
Qed.

Lemma refill_in_order it it2 r :
  in_order it →
  length (_features_buffer it) = length (_labels_buffer it) →
  refill argsort random_permutation it = (it2, r) →
  in_order it2.
Proof.
  intros [Hb Hsorted] Hlen.
  destruct (decide (Z.of_nat (length (_features_buffer it))
                    < _batch_size (kwargs it))) as [Hlt|Hge]; cycle 1.
  { rewrite refill_skip by lia. by intros [= <- <-]. }
  destruct (refill_run argsort random_permutation it Hlt)
    as (it1 & Hrefilled & ->).
  apply refilled_frame in Hrefilled as (Hs & _ & _ & _ & _ & Hlen1).
  specialize (Hlen1 Hlen). injection Hs as _ _ _ _ _ _ Hb1 _.
  case_decide as Hempty.
  - intros Hrun. eapply (end_of_epoch_in_order it1); [|exact Hrun].
    split; [congruence|].
    assert (_labels_buffer it1 = []) as ->; [|constructor].
    destruct Hempty as [H|H]; [|done].
    apply nil_length_inv. rewrite <-Hlen1, H. done.
  - unfold put_in_order. rewrite Hb1, Hb.
    destruct (bucket_pair_sorts argsort (_features_buffer it1)
                (_labels_buffer it1) (Hargsort _) Hlen1)
      as (ss' & tt' & -> & _ & _ & Hsorted').
    intros [= <- <-]. split; [simpl; congruence|done].
Qed.

Lemma next_in_order it it' r :
  in_order it →
  next argsort random_permutation it = (it', r) →
  in_order it' ∧
  ∀ ret_data, r = Ok ret_data →
    ∃ labels,
      data_ids ret_data !! concat_name LABEL_NAME_PREFIX IDS_NAME
      = Some labels ∧
      Sorted by_length labels.
Proof.
  intros Hin.
  destruct (_end_of_data it) eqn:Hflag.
  { rewrite next_flag_up by done. intros Hrun.
    destruct (end_of_epoch_in_order _ _ _ Hin Hrun) as [Hin' Hr].
    split; [done|]. intros ret_data ->. destruct Hr. by eexists. }
  destruct (decide (length (_features_buffer it)
                    = length (_labels_buffer it))) as [Hlen|Hlen]; cycle 1.
  { rewrite next_buffers_differ by done. by intros [= <- <-]. }
  rewrite next_run by done.
  destruct (refill argsort random_permutation it) as [it2 [[]|e]] eqn:Hrefill;
    apply (refill_in_order _ _ _ Hin Hlen) in Hrefill as Hin2;
    [|by intros [= <- <-]].
  destruct (_ && _).
  { intros Hrun.
    destruct (end_of_epoch_in_order _ _ _ Hin2 Hrun) as [Hin' Hr].
    split; [done|]. intros ret_data ->. destruct Hr. by eexists. }
  destruct (local_batch_size_of (_features_len_buffer it2)
              (_labels_len_buffer it2) (_batch_size (kwargs it2))
              (_batch_tokens_size (kwargs it2))) as [local|e] eqn:Hlocal;
    cycle 1.
  { rewrite (emit_growth_fails _ _ _ Hlocal). by intros [= <- <-]. }
  rewrite (emit_run _ _ _ Hlocal).
  pose proof (after_cut_in_order it2 local Hin2) as Hcut.
  case_decide as Hempty.
  { intros Hrun.
    destruct (end_of_epoch_in_order _ _ _ Hcut Hrun) as [Hin' Hr].
    split; [done|]. intros ret_data ->. destruct Hr. by eexists. }
  unfold cut_components.
  destruct (pack_feed_dict _ _) as [ret_data|e] eqn:Hpack;
    intros [= <- <-]; (split; [done|]); [|done].
  intros ? [= <-].
  apply pack_feed_dict_pair_records in Hpack as [Hids _].
  exists (py_prefix (_labels_buffer it2) local). split.
  - destruct (_fill_full_batch (kwargs it2)); simpl; rewrite Hids;
      by rewrite lookup_insert_eq.
  - unfold py_prefix. apply (Sorted_take by_length). by destruct Hin2.
Qed.

(** X6: With [bucketing], under numpy's contract for [argsort], the labels of
    every batch are in non-decreasing order of length: the cache is sorted
    by the length of the labels at every refill, and batches are cut off its
    front. *)
Theorem bucketing_sorts_every_batch n it :
  _bucketing (kwargs it) = true →
  Sorted by_length (_labels_buffer it) →
  Forall (λ r, ∀ ret_data, r = Ok ret_data →
            ∃ labels,
              data_ids ret_data !! concat_name LABEL_NAME_PREFIX IDS_NAME
              = Some labels ∧
              Sorted by_length labels)
         (pulls argsort random_permutation n it).2.
Proof.
  intros Hb Hsorted. assert (in_order it) as Hin by done.
  clear Hb Hsorted. revert it Hin.
  induction n as [|n IH]; intros it Hin; simpl; [constructor|].
  destruct (next argsort random_permutation it) as [it1 r] eqn:Hnext.
  destruct (next_in_order _ _ _ Hin Hnext) as [Hin1 Hr].
  specialize (IH it1 Hin1).
  destruct (pulls argsort random_permutation n it1) as [it2 rs].
  by constructor.
Qed.
End sorted_batches.

Lemma bucketing_sorts_every_batch_witness :
  let it := example_iterator
              (example_inputter example_features example_labels
                 (Some 2) None None false true) in
  ∃ labels,
    data_ids (example_batch 3 0 it) !! "label_ids" = Some labels ∧
    labels = [[30]; [20; 20]] ∧
    Sorted by_length labels.
Proof.
  intros it.
  pose proof (bucketing_sorts_every_batch argsort_ties_first reversal
                argsort_ties_first_contract 3 it eq_refl
                ltac:(vm_compute; constructor)) as Hall.
  assert ((ParallelTextInputter._BigParallelDataIterator.pulls
             argsort_ties_first reversal 3 it).2 !! 0%nat
          = Some (Ok (example_batch 3 0 it))) as Hk
    by (vm_compute; reflexivity).
  destruct (Forall_lookup_1 _ _ _ _ Hall Hk _ eq_refl)
    as (labels & Hl & Hs).
  exists labels. split; [exact Hl|]. split; [|exact Hs].
  vm_compute in Hl. by injection Hl as <-.
Defined.

(** ** The index sort is called only when bucketing *)

Section without_bucketing.
Local Open Scope method_scope.
Import ParallelTextInputter ParallelTextInputter._BigParallelDataIterator.
Context (argsort argsort' : list nat → list nat).
Context (random_permutation : nat → nat → list nat).
Implicit Types (it : ParallelTextInputter._BigParallelDataIterator.self).

Lemma refill_without_bucketing it :
  _bucketing (kwargs it) = false →
  refill argsort random_permutation it
  = refill argsort' random_permutation it.
Proof.
  intros Hb. unfold refill. rewrite !bind_get. case_decide; [|done].
  destruct (refill_loop_run
              (S (length (LineReader.remaining
                            (_features_reader (kwargs it)))))
              it (Z.of_nat (length (_features_buffer it))) _ _
              eq_refl eq_refl ltac:(lia))
    as (rf & rl & Hrun & _).
  rewrite !(bind_run _ _ _ _ _ Hrun), !bind_get.
  case_decide; [by rewrite !end_of_epoch_bind|].
  rewrite !bind_ret. simpl. by rewrite Hb.
Qed.

Lemma next_without_bucketing it :
  _bucketing (kwargs it) = false →
  next argsort random_permutation it = next argsort' random_permutation it.
Proof.
  intros Hb. destruct (_end_of_data it) eqn:Hflag.
  { by rewrite !next_flag_up. }
  destruct (decide (length (_features_buffer it)
                    = length (_labels_buffer it))) as [Hlen|Hlen].
  - rewrite !next_run by done. by rewrite refill_without_bucketing.
  - by rewrite !next_buffers_differ.
Qed.

Lemma pulls_without_bucketing n it :
  _bucketing (kwargs it) = false →
  pulls argsort random_permutation n it
  = pulls argsort' random_permutation n it.
Proof.
  revert it. induction n as [|n IH]; intros it Hb; simpl; [done|].
  rewrite <-next_without_bucketing by done.
  destruct (next argsort random_permutation it) as [it1 r] eqn:Hnext.
  rewrite IH; [done|].
  pose proof (pull_readers _ _ _ (next_pull _ _ _ _ _ Hnext)) as (Hs & _).
  injection Hs as _ _ _ _ _ _ Hb1 _. congruence.
Qed.
End without_bucketing.

(** ** What an epoch gives *)

Section stock_of_an_epoch.
Local Open Scope method_scope.
Import ParallelTextInputter ParallelTextInputter._BigParallelDataIterator.
Import Constants.
Context (argsort : list nat → list nat).
Context (random_permutation : nat → nat → list nat).
Hypothesis Hargsort : ∀ tlen, is_argsort tlen (argsort tlen).
Implicit Types (it : ParallelTextInputter._BigParallelDataIterator.self).

Lemma refilled_stock it it1 :
  length (_features_buffer it) = length (_labels_buffer it) →
  refilled it it1 → stock it1 = stock it.
Proof.
  intros Hlen (rf & rl & -> & Hrest & _).
  unfold stock, features_reader_of, labels_reader_of in *. simpl.
  rewrite Hrest, zip_with_app by done.
  by rewrite zip_fst_snd, <-app_assoc, take_drop.
Qed.

Lemma put_in_order_run it1 :
  length (_features_buffer it1) = length (_labels_buffer it1) →
  ∃ features labels,
    put_in_order argsort it1
    = (set_len_buffers (length <$> features) (length <$> labels)
         (set_buffers features labels it1), Ok ()) ∧
    zip features labels ≡ₚ zip (_features_buffer it1) (_labels_buffer it1) ∧
    length features = length labels ∧
    (_bucketing (kwargs it1) = false →
     features = _features_buffer it1 ∧ labels = _labels_buffer it1) ∧
    (_bucketing (kwargs it1) = true → Sorted by_length labels).
Proof.
  intros Hlen. unfold put_in_order. destruct (_bucketing (kwargs it1)).
  - destruct (bucket_pair_sorts argsort (_features_buffer it1)
                (_labels_buffer it1) (Hargsort _) Hlen)
      as (ss' & tt' & -> & Hperm & Hlen' & Hsorted).
    exists ss', tt'. split_and!; done.
  - exists (_features_buffer it1), (_labels_buffer it1). split_and!; done.
Qed.

Lemma zip_same_length {X Y} (l l' : list X) (k k' : list Y) :
  zip l k ≡ₚ zip l' k' → length l = length k → length l' = length k' →
  length l = length l'.
Proof.
  intros Hperm Hl Hl'. apply Permutation_length in Hperm.
  rewrite !length_zip in Hperm. lia.
Qed.

(** A refill that returns leaves the stock as it was, up to the order in
    the cache; and the cache is not empty if [batch_size] is positive. *)
Lemma refill_stock it it2 :
  length (_features_buffer it) = length (_labels_buffer it) →
  refill argsort random_permutation it = (it2, Ok ()) →
  stock it2 ≡ₚ stock it ∧
  (_bucketing (kwargs it) = false → stock it2 = stock it) ∧
  length (_features_buffer it2) = length (_labels_buffer it2) ∧
  settings (kwargs it2) = settings (kwargs it) ∧
  _end_of_data it2 = _end_of_data it ∧
  _input_fields it2 = _input_fields it ∧
  (0 < _batch_size (kwargs it) → _features_buffer it2 ≠ []) ∧
  (_features_len_buffer it = length <$> _features_buffer it →
   _labels_len_buffer it = length <$> _labels_buffer it →
   _features_len_buffer it2 = length <$> _features_buffer it2
   ∧ _labels_len_buffer it2 = length <$> _labels_buffer it2).
Proof.
  intros Hlen.
  destruct (decide (Z.of_nat (length (_features_buffer it))
                    < _batch_size (kwargs it))) as [Hlt|Hge]; cycle 1.
  { rewrite refill_skip by lia. intros [= <-]. split_and!; try done.
    intros Hbs Hnil. rewrite Hnil in Hge. simpl in Hge. lia. }
  destruct (refill_run argsort random_permutation it Hlt)
    as (it1 & Hrefilled & ->).
  pose proof (refilled_stock _ _ Hlen Hrefilled) as Hstock.
  apply refilled_frame in Hrefilled as (Hs & Hflag & Hi & _ & _ & Hlen1).
  specialize (Hlen1 Hlen).
  case_decide as Hempty.
  { intros Hrun.
    by destruct (wp_elim _ _ _ _ _
                   (end_of_epoch_run random_permutation it1) Hrun)
      as (e & ? & _). }
  destruct (put_in_order_run it1 Hlen1)
    as (features & labels & -> & Hperm & Hlen2 & Hsame & _).
  intros [= <-]. simpl.
  assert (_bucketing (kwargs it1) = _bucketing (kwargs it)) as Hb
    by (by injection Hs).
  split_and!; try done.
  - unfold stock, features_reader_of, labels_reader_of in *. simpl.
    by rewrite Hperm, Hstock.
  - intros Hno. rewrite <-Hb in Hno. destruct (Hsame Hno) as [-> ->].
    by rewrite <-Hstock.
  - intros _ Hnil. apply Hempty. left. apply nil_length_inv.
    rewrite <-(zip_same_length _ _ _ _ Hperm Hlen2 Hlen1). by rewrite Hnil.
Qed.

Lemma cut_conserves {X Y} (fb : list X) (lb : list Y) local :
  length fb = length lb →
  zip (py_prefix fb local) (py_prefix lb local)
  ++ zip (py_del_prefix fb local) (py_del_prefix lb local)
  = zip fb lb.
Proof.
  intros Hlen. unfold py_prefix, py_del_prefix. rewrite Hlen.
  by rewrite <-zip_with_take, <-zip_with_drop, take_drop.
Qed.

Lemma py_prefix_all {X} (l : list X) local :
  Z.of_nat (length (py_prefix l local)) < local → py_prefix l local = l.
Proof.
  rewrite py_prefix_length. unfold py_prefix, slice_bound.
  case_decide; [lia|]. intros Hlt. apply take_ge. lia.
Qed.

Lemma py_prefix_ne {X} (l : list X) local :
  0 < local → l ≠ [] → py_prefix l local ≠ [].
Proof.
  intros Hpos Hl Hnil. rewrite py_prefix_nonneg in Hnil by lia.
  destruct l; [done|]. by destruct (Z.to_nat local) eqn:?; [lia|].
Qed.

(** Cutting a batch off the cache moves its pairs out of the stock. *)
Lemma after_cut_stock it local :
  length (_features_buffer it) = length (_labels_buffer it) →
  zip (py_prefix (_features_buffer it) local)
      (py_prefix (_labels_buffer it) local)
  ++ stock (after_cut it local)
  = stock it.
Proof.
  intros Hlen. unfold after_cut, stock, features_reader_of, labels_reader_of.
  case_decide as Hshort; simpl.
  - rewrite py_prefix_all by done.
    rewrite py_prefix_all; [done|].
    by rewrite <-(py_prefix_length_eq _ _ _ Hlen).
  - by rewrite app_assoc, cut_conserves.
Qed.

Lemma after_cut_len_buffers it local :
  _features_len_buffer it = length <$> _features_buffer it →
  _labels_len_buffer it = length <$> _labels_buffer it →
  _features_len_buffer (after_cut it local)
  = length <$> _features_buffer (after_cut it local)
  ∧ _labels_len_buffer (after_cut it local)
    = length <$> _labels_buffer (after_cut it local).
Proof.
  intros Hfl Hll. unfold after_cut. case_decide; simpl; [done|].
  unfold py_del_prefix. rewrite Hfl, Hll, !length_fmap, !fmap_drop. done.
Qed.

Lemma pairs_of_pair_record features labels ret_data (b : bool) :
  data_ids ret_data
  = {[ concat_name LABEL_NAME_PREFIX IDS_NAME := labels;
       concat_name FEATURE_NAME_PREFIX IDS_NAME := features ]} →
  pairs_of (if b then mk_data (data_ids ret_data) (feed_dict ret_data) None
            else ret_data)
  = zip features labels.
Proof.
  intros Hids. unfold pairs_of.
  assert (data_ids (if b then mk_data (data_ids ret_data)
                                      (feed_dict ret_data) None
                    else ret_data) = data_ids ret_data) as ->
    by (by destruct b).
  rewrite Hids, lookup_insert_eq.
  rewrite lookup_insert_ne by (by vm_compute).
  by rewrite lookup_singleton_eq.
Qed.

Lemma end_of_epoch_gives_no_batch {A} it it' (a : A) :
  end_of_epoch random_permutation it ≠ (it', Ok a).
Proof.
  intros Hrun.
  by destruct (wp_elim _ _ _ _ _
                 (end_of_epoch_run random_permutation it) Hrun)
    as (e & ? & _).
Qed.

(** A call of [next] that returns a batch has moved the pairs of the batch
    out of the stock, and nothing else. *)
Lemma next_gives it it' ret_data :
  _end_of_data it = false →
  next argsort random_permutation it = (it', Ok ret_data) →
  pairs_of ret_data ++ stock it' ≡ₚ stock it ∧
  (_bucketing (kwargs it) = false →
   pairs_of ret_data ++ stock it' = stock it) ∧
  pairs_of ret_data ≠ [] ∧
  _end_of_data it' = false ∧
  settings (kwargs it') = settings (kwargs it).
Proof.
  intros Hflag.
  destruct (decide (length (_features_buffer it)
                    = length (_labels_buffer it))) as [Hlen|Hlen]; cycle 1.
  { by rewrite next_buffers_differ by done. }
  rewrite next_run by done.
  destruct (refill argsort random_permutation it) as [it2 [[]|e]] eqn:Hrefill;
    [|done].
  apply (refill_stock _ _ Hlen) in Hrefill
    as (Hperm & Hsame & Hlen2 & Hs & Hflag2 & _).
  destruct (_ && _); [intros H; by apply end_of_epoch_gives_no_batch in H|].
  destruct (local_batch_size_of (_features_len_buffer it2)
              (_labels_len_buffer it2) (_batch_size (kwargs it2))
              (_batch_tokens_size (kwargs it2))) as [local|e] eqn:Hlocal;
    [|by rewrite (emit_growth_fails _ _ _ Hlocal)].
  rewrite (emit_run _ _ _ Hlocal).
  case_decide as Hempty;
    [intros H; by apply end_of_epoch_gives_no_batch in H|].
  unfold cut_components.
  destruct (pack_feed_dict _ _) as [ret_data0|e] eqn:Hpack; [|done].
  intros [= <- <-].
  apply pack_feed_dict_pair_records in Hpack as [Hids _].
  rewrite (pairs_of_pair_record _ _ _ _ Hids).
  pose proof (after_cut_stock it2 local Hlen2) as Hcut.
  split_and!.
  - by rewrite Hcut.
  - intros Hno. by rewrite Hcut, Hsame.
  - intros Hnil. apply Hempty. left.
    apply (f_equal length) in Hnil. rewrite length_zip in Hnil.
    rewrite <-(py_prefix_length_eq _ _ _ Hlen2) in Hnil.
    apply nil_length_inv. simpl in Hnil. lia.
  - rewrite (proj1 (proj2 (after_cut_frame _ _))). congruence.
  - by rewrite (proj1 (after_cut_frame _ _)).
Qed.

(** A call of [next] that ends the epoch, when [fill_full_batch] is off and
    the sizes are positive, does so because the stock is used up. *)
Lemma next_ends_on_empty_stock it it' :
  _end_of_data it = false →
  _fill_full_batch (kwargs it) = false →
  0 < _batch_size (kwargs it) → 0 < _cache_size (kwargs it) →
  next argsort random_permutation it = (it', Raise StopIteration) →
  stock it = [].
Proof.
  intros Hflag Hffb Hbs Hcs.
  destruct (decide (length (_features_buffer it)
                    = length (_labels_buffer it))) as [Hlen|Hlen]; cycle 1.
  { by rewrite next_buffers_differ by done. }
  intros Hnext.
  assert ((∃ it2, refill argsort random_permutation it = (it2, Ok ())
                  ∧ emit random_permutation it2 = (it', Raise StopIteration))
          ∨ refill argsort random_permutation it = (it', Raise StopIteration))
    as [(it2 & Hrefill & Hemit)|Hrefill].
  { rewrite next_run in Hnext by done.
    destruct (refill argsort random_permutation it) as [it2 [[]|e]]
      eqn:Hrefill; [|right; congruence].
    left. exists it2. split; [done|].
    apply (refill_stock _ _ Hlen) in Hrefill as (_ & _ & _ & Hs & _).
    assert (_fill_full_batch (kwargs it2) = false) as Hffb2
      by (injection Hs as _ _ _ _ _ Hf _ _; congruence).
    by rewrite Hffb2 in Hnext. }
  - exfalso.
    apply (refill_stock _ _ Hlen) in Hrefill
      as (_ & _ & Hlen2 & Hs & _ & _ & Hne & _).
    specialize (Hne Hbs).
    destruct (local_batch_size_of (_features_len_buffer it2)
                (_labels_len_buffer it2) (_batch_size (kwargs it2))
                (_batch_tokens_size (kwargs it2))) as [local|e] eqn:Hlocal;
      cycle 1.
    { rewrite (emit_growth_fails _ _ _ Hlocal) in Hemit.
      injection Hemit as _ ->.
      by apply local_batch_size_of_ends in Hlocal. }
    rewrite (emit_run _ _ _ Hlocal) in Hemit.
    apply local_batch_size_of_ge in Hlocal.
    assert (0 < local) as Hpos by (injection Hs as _ _ Hb _ _ _ _ _; lia).
    rewrite decide_False in Hemit.
    + unfold cut_components in Hemit.
      destruct (pack_feed_dict _ _) as [ret_data|e] eqn:Hpack; [done|].
      injection Hemit as _ ->.
      by apply (only_pack_feed_dict (λ e, e ≠ StopIteration)) in Hpack.
    + intros [H|H]; eapply py_prefix_ne; try exact H; try done.
      intros Hnil. apply Hne, nil_length_inv. by rewrite Hlen2, Hnil.
  - destruct (decide (Z.of_nat (length (_features_buffer it))
                      < _batch_size (kwargs it))) as [Hlt|Hge]; cycle 1.
    { by rewrite refill_skip in Hrefill by lia. }
    destruct (refill_run argsort random_permutation it Hlt)
      as (it1 & Hrefilled & Hrun).
    rewrite Hrun in Hrefill. clear Hrun.
    pose proof (refilled_stock _ _ Hlen Hrefilled) as Hstock.
    pose proof (refilled_frame _ _ Hrefilled) as (_ & _ & _ & _ & _ & Hlen1).
    specialize (Hlen1 Hlen).
    case_decide as Hempty.
    + rewrite <-Hstock. unfold stock.
      assert (_features_buffer it1 = [] ∧ _labels_buffer it1 = [])
        as [Hf1 Hl1].
      { destruct Hempty as [H|H]; split; try done; apply nil_length_inv;
          [rewrite <-Hlen1|rewrite Hlen1]; by rewrite H. }
      rewrite Hf1. simpl.
      destruct Hrefilled as (rf & rl & -> & Hrest & _).
      simpl in Hf1. apply app_eq_nil in Hf1 as [Hf Htake].
      unfold features_reader_of, labels_reader_of. simpl. rewrite Hrest.
      rewrite Hf in Htake. simpl in Htake.
      apply (f_equal length) in Htake.
      rewrite length_fmap, length_take in Htake. simpl in Htake.
      apply nil_length_inv. rewrite length_drop.
      fold (features_reader_of it) (labels_reader_of it) in *. lia.
    + destruct (put_in_order_run it1 Hlen1) as (? & ? & Hrun & _).
      congruence.
Qed.

Lemma pulls_S n it it1 r :
  next argsort random_permutation it = (it1, r) →
  pulls argsort random_permutation (S n) it
  = ((pulls argsort random_permutation n it1).1,
     r :: (pulls argsort random_permutation n it1).2).
Proof.
  intros Hnext. simpl. rewrite Hnext.
  by destruct (pulls argsort random_permutation n it1).
Qed.

Lemma epoch_gives_every_pair_once_under_contract it it' batches :
  _end_of_data it = false →
  _fill_full_batch (kwargs it) = false →
  0 < _batch_size (kwargs it) → 0 < _cache_size (kwargs it) →
  pulls argsort random_permutation (S (length batches)) it
  = (it', (Ok <$> batches) ++ [Raise StopIteration]) →
  batches ≫= pairs_of ≡ₚ stock it ∧
  (_bucketing (kwargs it) = false → batches ≫= pairs_of = stock it).
Proof.
  revert it. induction batches as [|b batches IH];
    intros it Hflag Hffb Hbs Hcs Hpulls;
    destruct (next argsort random_permutation it) as [it1 r] eqn:Hnext;
    rewrite (pulls_S _ _ _ _ Hnext) in Hpulls.
  - simpl in Hpulls. injection Hpulls as <- ->.
    by rewrite (next_ends_on_empty_stock _ _ Hflag Hffb Hbs Hcs Hnext).
  - change (length (b :: batches)) with (S (length batches)) in Hpulls.
    revert Hpulls.
    destruct (pulls argsort random_permutation (S (length batches)) it1)
      as [it2 rs] eqn:Hrest.
    csimpl. intros [= <- -> ->].
    destruct (next_gives _ _ _ Hflag Hnext)
      as (Hperm & Hsame & _ & Hflag1 & Hs).
    injection Hs as _ _ Hb1 _ _ Hf1 Hbk1 Hc1.
    destruct (IH it1) as [IHperm IHsame]; [congruence..|done|].
    csimpl. split.
    + by rewrite IHperm.
    + intros Hno. rewrite IHsame by congruence. by apply Hsame.
Qed.
End stock_of_an_epoch.

(** X7: Without [fill_full_batch], sizes being positive, an epoch gives every
    pair of the stock once: if the calls of [next] from [it] return the
    batches [batches] and then signal the end of the epoch, the pairs of the
    batches are those the cache held and the readers were still to read side
    by side, in some order; and in that very order when the iterator does not
    bucket.  When it buckets, numpy's contract for [argsort] is assumed. *)
Theorem epoch_gives_every_pair_once argsort random_permutation it it'
    batches :
  (ParallelTextInputter._bucketing
     (ParallelTextInputter._BigParallelDataIterator.kwargs it) = true →
   ∀ tlen, is_argsort tlen (argsort tlen)) →
  ParallelTextInputter._BigParallelDataIterator._end_of_data it = false →
  ParallelTextInputter._fill_full_batch
    (ParallelTextInputter._BigParallelDataIterator.kwargs it) = false →
  0 < ParallelTextInputter._batch_size
        (ParallelTextInputter._BigParallelDataIterator.kwargs it) →
  0 < ParallelTextInputter._cache_size
        (ParallelTextInputter._BigParallelDataIterator.kwargs it) →
  ParallelTextInputter._BigParallelDataIterator.pulls
    argsort random_permutation (S (length batches)) it
  = (it', (Ok <$> batches) ++ [Raise StopIteration]) →
  batches ≫= pairs_of ≡ₚ stock it ∧
  (ParallelTextInputter._bucketing
     (ParallelTextInputter._BigParallelDataIterator.kwargs it) = false →
   batches ≫= pairs_of = stock it).
Proof.
  intros Hcontract Hflag Hffb Hbs Hcs Hpulls.
  destruct (ParallelTextInputter._bucketing
              (ParallelTextInputter._BigParallelDataIterator.kwargs it))
    eqn:Hb.
  - pose proof (epoch_gives_every_pair_once_under_contract argsort
                  random_permutation (Hcontract eq_refl) it it' batches
                  Hflag Hffb Hbs Hcs Hpulls) as [Hperm _].
    by split.
  - rewrite (pulls_without_bucketing argsort argsort_ties_first) in Hpulls
      by done.
    pose proof (epoch_gives_every_pair_once_under_contract argsort_ties_first
                  random_permutation argsort_ties_first_contract it it'
                  batches Hflag Hffb Hbs Hcs Hpulls) as [Hperm Hsame].
    split; [done|]. intros _. by apply Hsame.
Qed.


Lemma epoch_gives_every_pair_once_witness :
  let it := example_iterator
              (example_inputter example_features example_labels
                 (Some 2) None None false false) in
  let batches := [example_batch 3 0 it; example_batch 3 1 it] in
  batches ≫= pairs_of
  = [([1], [10; 10; 10]); ([2; 2], [20; 20]); ([3; 3; 3], [30])] ∧
  batches ≫= pairs_of = stock it.
Proof.
  intros it batches.
  assert (ParallelTextInputter._BigParallelDataIterator.pulls
            argsort_ties_first reversal (S (length batches)) it
          = ((ParallelTextInputter._BigParallelDataIterator.pulls
                argsort_ties_first reversal 3 it).1,
             (Ok <$> batches) ++ [Raise StopIteration])) as Hpulls
    by (vm_compute; reflexivity).
  destruct (epoch_gives_every_pair_once argsort_ties_first reversal
              it _ batches ltac:(by intros) eq_refl eq_refl
              ltac:(by vm_compute) ltac:(by vm_compute) Hpulls)
    as [_ Hsame].
  split; [by vm_compute|]. apply Hsame. reflexivity.
Defined.

(** ** An epoch runs to its end *)

Section epoch_runs_through.
Local Open Scope method_scope.
Import ParallelTextInputter ParallelTextInputter._BigParallelDataIterator.
Import Constants.
Context (argsort : list nat → list nat).
Context (random_permutation : nat → nat → list nat).
Hypothesis Hargsort : ∀ tlen, is_argsort tlen (argsort tlen).
Implicit Types (it : ParallelTextInputter._BigParallelDataIterator.self).

Lemma LineReader_reset_in_range do_shuffle file index r :
  (truthy do_shuffle = true →
   Forall (λ i, i < length (LineReader.corpus r))%nat
          (default (random_permutation (LineReader.draws r)
                      (length (LineReader.corpus r))) index)) →
  ∃ r',
    LineReader.reset random_permutation do_shuffle file index r
    = (r', Ok (if truthy do_shuffle
               then Some (default (random_permutation (LineReader.draws r)
                                     (length (LineReader.corpus r))) index)
               else index)).
Proof.
  intros Hrange. unfold LineReader.reset.
  destruct (truthy do_shuffle); [|by eexists].
  specialize (Hrange eq_refl).
  destruct index as [index|]; simpl in *;
    destruct (gather_in_range _ _ Hrange) as [shuffled ->]; by eexists.
Qed.

Lemma reset_succeeds it :
  resets_succeed random_permutation it →
  ∃ it', _reset random_permutation it = (it', Ok ()).
Proof.
  intros Hok. unfold _reset. rewrite bind_get.
  assert (∀ it0, kwargs it0 = kwargs it →
            ∃ it', (do this <- get;
                    do argsort_index <-
                      on_kwargs (on_features_reader
                        (LineReader.reset random_permutation
                           (_shuffle_every_epoch (kwargs this))
                           (default "" (_shuffled_features_file this))
                           None));
                    do _ <-
                      on_kwargs (on_labels_reader
                        (LineReader.reset random_permutation
                           (_shuffle_every_epoch (kwargs this))
                           (default "" (_shuffled_labels_file this))
                           argsort_index));
                    ret ()) it0 = (it', Ok ())) as Hbody.
  { intros it0 Hk. rewrite bind_get.
    unfold bind at 1, on_kwargs at 1, on_features_reader at 1. rewrite Hk.
    destruct (LineReader_reset_in_range (_shuffle_every_epoch (kwargs it))
                (default "" (_shuffled_features_file it0)) None
                (_features_reader (kwargs it))) as [rf ->].
    { intros Hsh. destruct (Hok Hsh) as [Hperm _]. simpl.
      eapply Permutation_seq_in_range, Hperm. }
    simpl.
    unfold bind at 1, on_kwargs at 1, on_labels_reader at 1. simpl.
    destruct (LineReader_reset_in_range (_shuffle_every_epoch (kwargs it))
                (default "" (_shuffled_labels_file it0))
                (if truthy (_shuffle_every_epoch (kwargs it))
                 then Some (random_permutation
                              (LineReader.draws (_features_reader (kwargs it)))
                              (length (LineReader.corpus
                                         (_features_reader (kwargs it)))))
                 else None)
                (_labels_reader (kwargs it))) as [rl ->].
    { intros Hsh. destruct (Hok Hsh) as [Hperm Hle]. rewrite Hsh. simpl.
      eapply Forall_impl; [eapply Permutation_seq_in_range, Hperm|].
      unfold features_reader_of, labels_reader_of in Hle.
      intros i Hi. simpl in Hi. lia. }
    simpl. by eexists. }
  unfold when. case_bool_decide.
  - rewrite bind_modify. by apply Hbody.
  - rewrite bind_ret. by apply Hbody.
Qed.

Lemma end_of_epoch_stops {A} it :
  resets_succeed random_permutation it →
  ∃ it',
    @end_of_epoch random_permutation A it = (it', Raise StopIteration) ∧
    epoch_ended it it' StopIteration.
Proof.
  intros Hok.
  destruct (@end_of_epoch random_permutation A it) as [it' r] eqn:Hrun.
  destruct (wp_elim _ _ _ _ _ (end_of_epoch_run random_permutation it) Hrun)
    as (e & -> & Hend).
  exists it'. unfold end_of_epoch in Hrun. rewrite bind_modify in Hrun.
  destruct (reset_succeeds (set_end_of_data false it)) as [it1 Hreset];
    [done|].
  rewrite (bind_run _ _ _ _ _ Hreset) in Hrun.
  unfold raise in Hrun. injection Hrun as _ <-. done.
Qed.

Lemma pack_feed_dict_pair_run input_fields features fp labels lp :
  (1 ≤ length input_fields)%nat →
  Forall (has_placeholders FEATURE_NAME_PREFIX) input_fields →
  Forall (has_placeholders LABEL_NAME_PREFIX) input_fields →
  ∃ ret_data,
    pack_feed_dict input_fields
      [(FEATURE_NAME_PREFIX, features, fp); (LABEL_NAME_PREFIX, labels, lp)]
    = Ok ret_data.
Proof.
  intros HD Hf Hl. unfold pack_feed_dict. simpl.
  destruct (map_fn_run input_fields FEATURE_NAME_PREFIX features fp
              empty_data HD Hf) as (dt1 & Hrun1 & _).
  unfold bind at 1. rewrite Hrun1.
  destruct (map_fn_run input_fields LABEL_NAME_PREFIX labels lp dt1 HD Hl)
    as (dt2 & Hrun2 & _).
  unfold bind at 1. rewrite Hrun2. by eexists.
Qed.

Lemma resets_succeed_frame it it1 :
  settings (kwargs it1) = settings (kwargs it) →
  LineReader.corpus (features_reader_of it1)
  = LineReader.corpus (features_reader_of it) →
  LineReader.corpus (labels_reader_of it1)
  = LineReader.corpus (labels_reader_of it) →
  resets_succeed random_permutation it →
  resets_succeed random_permutation it1.
Proof.
  intros Hs Hf Hl Hok. unfold resets_succeed, shuffles in *.
  injection Hs as _ _ _ _ Hsh _ _ _. rewrite Hsh, Hf, Hl. done.
Qed.

(** One call of [next] on an iterator that is ready: it returns a batch, or
    it ends the epoch, having found the cache empty and no pair left to
    read, and leaves an empty cache and both readers at their start.  The
    iterator is ready again. *)
Lemma next_progress it :
  ready random_permutation it →
  ∃ it' r,
    next argsort random_permutation it = (it', r) ∧
    ready random_permutation it' ∧
    ((∃ ret_data, r = Ok ret_data)
     ∨ (r = Raise StopIteration
        ∧ cache it' = ([], [], [], [])
        ∧ LineReader.cursor (features_reader_of it') = 0%nat
        ∧ LineReader.cursor (labels_reader_of it') = 0%nat)).
Proof.
  intros (Hbs & Hcs & Hffb & (Hflag & Hlen & Hfl & Hll) & Hslots & Hok).
  destruct (next argsort random_permutation it) as [it' r] eqn:Hnext.
  exists it', r. split; [done|].
  pose proof (pull_readers _ _ _ (next_pull _ _ _ _ _ Hnext))
    as (Hs & Hi & Hcf & Hcl & _).
  assert (cache_consistent it' →
          ready random_permutation it') as Hready.
  { intros Hcons. pose proof Hs as Hs0.
    injection Hs0 as _ _ Hbs' _ _ Hffb' _ Hcs'.
    unfold ready. rewrite Hbs', Hcs', Hffb'. split_and!; try done.
    - unfold slots_ready. by rewrite Hi.
    - by eapply resets_succeed_frame. }
  rewrite next_run in Hnext by done.
  destruct (decide (Z.of_nat (length (_features_buffer it))
                    < _batch_size (kwargs it))) as [Hlt|Hge].
  - destruct (refill_run argsort random_permutation it Hlt)
      as (it1 & Hrefilled & Hrun).
    pose proof (refilled_frame _ _ Hrefilled)
      as (Hs1 & Hflag1 & Hi1 & (Hcf1 & _) & (Hcl1 & _) & Hlen1).
    specialize (Hlen1 Hlen). rewrite Hrun in Hnext.
    case_decide as Hempty.
    + destruct (end_of_epoch_stops (A:=unit) it1) as (it2 & Hstop & Hend).
      { by eapply resets_succeed_frame. }
      rewrite Hstop in Hnext. injection Hnext as <- <-.
      destruct Hend as (_ & Hc & Hflag2 & _ & (_ & _ & Hposf) & _ & He).
      destruct He as [(_ & (_ & _ & Hposl) & _)|?]; [|done].
      assert (cache it1 = ([], [], [], [])) as Hc1.
      { assert (_features_buffer it1 = [] ∧ _labels_buffer it1 = [])
          as [Hf1 Hl1].
        { destruct Hempty as [H|H]; split; try done; apply nil_length_inv;
            [rewrite <-Hlen1|rewrite Hlen1]; by rewrite H. }
        destruct Hrefilled as (rf & rl & -> & _). unfold cache.
        simpl in *. rewrite Hf1, Hl1, Hfl, Hll.
        apply app_eq_nil in Hf1 as [-> _]. apply app_eq_nil in Hl1 as [-> _].
        done. }
      rewrite Hc1 in Hc. split; [|right; done].
      apply Hready. injection Hc as Hf2 Hl2 Hfl2 Hll2.
      unfold cache_consistent. by rewrite Hf2, Hl2, Hfl2, Hll2.
    + destruct (put_in_order_run argsort Hargsort it1 Hlen1)
        as (features & labels & Hput & Hperm & Hlen2 & _).
      rewrite Hput in Hnext. cbn [kwargs set_len_buffers set_buffers] in Hnext.
      assert (_fill_full_batch (kwargs it1) = false) as Hffb1
        by (injection Hs1 as _ _ _ _ _ Hf _ _; congruence).
      rewrite Hffb1 in Hnext. simpl in Hnext.
      match type of Hnext with
      | emit _ ?s = _ => set (it2 := s) in *
      end.
      assert (features ≠ []) as Hne.
      { intros ->. apply Hempty. left. apply nil_length_inv.
        by rewrite <-(zip_same_length _ _ _ _ Hperm Hlen2 Hlen1). }
      destruct (local_batch_size_of_run (_features_len_buffer it2)
                  (_labels_len_buffer it2) (_batch_size (kwargs it2))
                  (_batch_tokens_size (kwargs it2)))
        as (local & Hlocal & Hge).
      { unfold it2. simpl. by rewrite !length_fmap. }
      { unfold it2. simpl. injection Hs1 as _ _ Hb _ _ _ _ _. lia. }
      rewrite (emit_run _ _ _ Hlocal) in Hnext.
      assert (0 < local) as Hpos.
      { unfold it2 in Hge. simpl in Hge.
        injection Hs1 as _ _ Hb _ _ _ _ _. lia. }
      rewrite decide_False in Hnext; cycle 1.
      { unfold it2. simpl.
        intros [H|H]; eapply py_prefix_ne; try exact H; try done.
        intros ->. apply Hne, nil_length_inv. by rewrite Hlen2. }
      destruct (pack_feed_dict_pair_run (_input_fields it2)
                  (py_prefix (_features_buffer it2) local)
                  (_features_padding_id (kwargs it2))
                  (py_prefix (_labels_buffer it2) local)
                  (_labels_padding_id (kwargs it2)))
        as [ret_data Hpack].
      1-3: unfold it2; simpl; rewrite Hi1; by destruct Hslots as (? & ? & ?).
      unfold cut_components in Hnext. rewrite Hpack in Hnext.
      injection Hnext as <- <-. split; [|left; by eexists].
      apply Hready. unfold cache_consistent.
      rewrite (proj1 (proj2 (after_cut_frame _ _))).
      split; [unfold it2; simpl; congruence|].
      split; [apply after_cut_lengths; by unfold it2|].
      apply after_cut_len_buffers; by unfold it2.
  - rewrite refill_skip in Hnext by lia.
    rewrite Hffb in Hnext. simpl in Hnext.
    destruct (local_batch_size_of_run (_features_len_buffer it)
                (_labels_len_buffer it) (_batch_size (kwargs it))
                (_batch_tokens_size (kwargs it)))
      as (local & Hlocal & Hge').
    { by rewrite Hfl, Hll, !length_fmap. }
    { lia. }
    rewrite (emit_run _ _ _ Hlocal) in Hnext.
    rewrite decide_False in Hnext; cycle 1.
    { assert (_features_buffer it ≠ []) as Hne
        by (intros Hnil; rewrite Hnil in Hge; simpl in Hge; lia).
      intros [H|H]; eapply py_prefix_ne; try exact H; try done; [lia..|].
      intros Hnil. apply Hne, nil_length_inv. by rewrite Hlen, Hnil. }
    destruct (pack_feed_dict_pair_run (_input_fields it)
                (py_prefix (_features_buffer it) local)
                (_features_padding_id (kwargs it))
                (py_prefix (_labels_buffer it) local)
                (_labels_padding_id (kwargs it)))
      as [ret_data Hpack].
    1-3: by destruct Hslots as (? & ? & ?).
    unfold cut_components in Hnext. rewrite Hpack in Hnext.
    injection Hnext as <- <-. split; [|left; by eexists].
    apply Hready. unfold cache_consistent.
    rewrite (proj1 (proj2 (after_cut_frame _ _))).
    split; [done|]. split; [by apply after_cut_lengths|].
    by apply after_cut_len_buffers.
Qed.

Lemma epoch_runs_to_its_end_under_contract it :
  ready random_permutation it →
  ∃ batches it',
    (length batches ≤ length (stock it))%nat ∧
    pulls argsort random_permutation (S (length batches)) it
    = (it', (Ok <$> batches) ++ [Raise StopIteration]) ∧
    Forall (λ ret_data, pairs_of ret_data ≠ []) batches ∧
    batches ≫= pairs_of ≡ₚ stock it ∧
    ready random_permutation it' ∧
    cache it' = ([], [], [], []) ∧
    LineReader.cursor (features_reader_of it') = 0%nat ∧
    LineReader.cursor (labels_reader_of it') = 0%nat.
Proof.
  intros Hready.
  assert (∃ n, length (stock it) ≤ n)%nat as [n Hle] by (by eexists).
  revert it Hle Hready. induction n as [|n IH]; intros it Hle Hready;
    destruct (next_progress it Hready)
      as (it1 & r & Hnext & Hready1 & [[b ->]|(-> & Hc & Hpf & Hpl)]).
  - exfalso.
    destruct (next_gives argsort random_permutation Hargsort it it1 b)
      as (Hperm & _ & Hne & _); [by destruct Hready as (_&_&_&(?&_)&_)|done|].
    apply Permutation_length in Hperm. rewrite length_app in Hperm.
    destruct (pairs_of b); [done|]. simpl in Hperm. lia.
  - exists [], it1. rewrite (pulls_S _ _ _ _ _ _ Hnext). simpl.
    split_and!; try done; try lia.
    destruct Hready as (Hbs & Hcs & Hffb & (Hflag & _) & _).
    by rewrite (next_ends_on_empty_stock argsort random_permutation Hargsort
                  _ _ Hflag Hffb Hbs Hcs Hnext).
  - destruct (next_gives argsort random_permutation Hargsort it it1 b)
      as (Hperm & _ & Hne & _); [by destruct Hready as (_&_&_&(?&_)&_)|done|].
    destruct (IH it1) as (batches & it' & Hlen & Hpulls & Hall & Hperm'
                          & Hready' & Hc' & Hpf' & Hpl'); [|done|].
    { apply Permutation_length in Hperm. rewrite length_app in Hperm.
      destruct (pairs_of b); [done|]. simpl in Hperm. lia. }
    exists (b :: batches), it'.
    change (length (b :: batches)) with (S (length batches)).
    rewrite (pulls_S _ _ _ _ _ _ Hnext), Hpulls. csimpl.
    split_and!; try done.
    + apply Permutation_length in Hperm. rewrite length_app in Hperm.
      destruct (pairs_of b); [done|]. simpl in Hperm. lia.
    + by constructor.
    + by rewrite Hperm'.
  - exists [], it1. rewrite (pulls_S _ _ _ _ _ _ Hnext). simpl.
    split_and!; try done; try lia.
    destruct Hready as (Hbs & Hcs & Hffb & (Hflag & _) & _).
    by rewrite (next_ends_on_empty_stock argsort random_permutation Hargsort
                  _ _ Hflag Hffb Hbs Hcs Hnext).
Qed.
End epoch_runs_through.

(** X8: An iterator that is ready runs its epoch through: after at most as many
    calls of [next] as it has pairs in stock, each of which returns a batch
    of at least one pair, the next call signals the end of the epoch; the
    batches hold the pairs of the stock, each once; and the iterator is left
    ready, with an empty cache and both readers at their start, for the next
    epoch.  When the iterator buckets, numpy's contract for [argsort] is
    assumed. *)
Theorem epoch_runs_to_its_end argsort random_permutation it :
  (ParallelTextInputter._bucketing
     (ParallelTextInputter._BigParallelDataIterator.kwargs it) = true →
   ∀ tlen, is_argsort tlen (argsort tlen)) →
  ready random_permutation it →
  ∃ batches it',
    (length batches ≤ length (stock it))%nat ∧
    ParallelTextInputter._BigParallelDataIterator.pulls
      argsort random_permutation (S (length batches)) it
    = (it', (Ok <$> batches) ++ [Raise StopIteration]) ∧
    Forall (λ ret_data, pairs_of ret_data ≠ []) batches ∧
    batches ≫= pairs_of ≡ₚ stock it ∧
    ready random_permutation it' ∧
    cache it' = ([], [], [], []) ∧
    LineReader.cursor (features_reader_of it') = 0%nat ∧
    LineReader.cursor (labels_reader_of it') = 0%nat.
Proof.
  intros Hcontract Hready.
  destruct (ParallelTextInputter._bucketing
              (ParallelTextInputter._BigParallelDataIterator.kwargs it))
    eqn:Hb.
  - by apply epoch_runs_to_its_end_under_contract, Hready; apply Hcontract.
  - destruct (epoch_runs_to_its_end_under_contract argsort_ties_first
                random_permutation argsort_ties_first_contract it Hready)
      as (batches & it' & Hlen & Hpulls & Hrest).
    exists batches, it'. split; [done|]. split; [|done].
    by rewrite (pulls_without_bucketing argsort argsort_ties_first).
Qed.


Lemma epoch_runs_to_its_end_witness :
  let it := example_iterator
              (example_inputter example_features example_labels
                 (Some 2) None None false false) in
  ∃ batches it',
    (length batches ≤ 3)%nat ∧
    ParallelTextInputter._BigParallelDataIterator.pulls
      argsort_ties_first reversal (S (length batches)) it
    = (it', (Ok <$> batches) ++ [Raise StopIteration]) ∧
    batches ≫= pairs_of ≡ₚ stock it.
Proof.
  intros it.
  destruct (epoch_runs_to_its_end argsort_ties_first reversal it)
    as (batches & it' & Hlen & Hpulls & _ & Hperm & _).
  - by intros.
  - unfold ready. split; [by vm_compute|]. split; [by vm_compute|].
    split; [reflexivity|]. split; [by split_and!|]. split.
    + split; [vm_compute; lia|]. split; repeat constructor; by eexists.
    + intros Hsh. by vm_compute in Hsh.
  - exists batches, it'. split; [exact Hlen|]. split; [exact Hpulls|done].
Defined.

(** ** The pairs read into memory *)

Section in_memory_pairs.
Local Open Scope method_scope.
Import ParallelTextInputter.
Import Constants.
Context (argsort : list nat → list nat).
Context (this : ParallelTextInputter.self).
Hypothesis Hargsort :
  _bucketing this = true → ∀ tlen, is_argsort tlen (argsort tlen).
Context (input_fields : list (gmap string placeholder)).
Context (batch_size : nat).
Hypothesis Hbatch_size : _batch_size this = Z.of_nat batch_size.
Hypothesis Hpositive : (1 ≤ batch_size)%nat.
Hypothesis Hdevices : (1 ≤ length input_fields)%nat.
Hypothesis Hfeatures :
  Forall (has_placeholders FEATURE_NAME_PREFIX) input_fields.
Hypothesis Hlabels : Forall (has_placeholders LABEL_NAME_PREFIX) input_fields.

Lemma pack_feed_dict_pair_ids features fp labels lp :
  ∃ ret_data,
    pack_feed_dict input_fields
      [(FEATURE_NAME_PREFIX, features, fp); (LABEL_NAME_PREFIX, labels, lp)]
    = Ok ret_data ∧
    data_ids ret_data
    = {[ concat_name LABEL_NAME_PREFIX IDS_NAME := labels;
         concat_name FEATURE_NAME_PREFIX IDS_NAME := features ]}.
Proof.
  destruct (pack_feed_dict_pair_run input_fields features fp labels lp
              Hdevices Hfeatures Hlabels) as [ret_data Hpack].
  exists ret_data. split; [done|].
  by apply pack_feed_dict_pair_records in Hpack as [? _].
Qed.

Lemma small_batch_loop_run fuel ss_buf tt_buf (k : nat) data :
  (length ss_buf - k ≤ fuel)%nat →
  ∃ data',
    batch_loop input_fields this fuel ss_buf tt_buf (Z.of_nat k) data
    = Ok (data ++ data') ∧
    (∀ j, (j < length data')%nat ↔ (k + j * batch_size < length ss_buf)%nat) ∧
    (∀ j dt, data' !! j = Some dt →
       data_ids dt
       = {[ concat_name LABEL_NAME_PREFIX IDS_NAME
            := take batch_size (drop (k + j * batch_size) tt_buf);
            concat_name FEATURE_NAME_PREFIX IDS_NAME
            := take batch_size (drop (k + j * batch_size) ss_buf) ]}).
Proof.
  revert k data. induction fuel as [|fuel IH]; intros k data Hfuel; simpl.
  - rewrite decide_False by lia. exists []. rewrite app_nil_r.
    split; [done|]. split; [|by intros j dt; rewrite lookup_nil].
    intros j. simpl. lia.
  - case_decide as Hk.
    + destruct (pack_feed_dict_pair_ids
                  (py_slice ss_buf (Z.of_nat k)
                            (Z.of_nat k + _batch_size this))
                  (_features_padding_id this)
                  (py_slice tt_buf (Z.of_nat k)
                            (Z.of_nat k + _batch_size this))
                  (_labels_padding_id this))
        as (dt & -> & Hids).
      simpl. rewrite Hbatch_size in Hids |- *.
      replace (Z.of_nat k + Z.of_nat batch_size)
        with (Z.of_nat (k + batch_size)) in Hids |- * by lia.
      rewrite !py_slice_of_nat in Hids.
      replace (k + batch_size - k)%nat with batch_size in Hids by lia.
      destruct (IH (k + batch_size)%nat (data ++ [dt]) ltac:(lia))
        as (data' & -> & Hlen & Hdata).
      exists (dt :: data'). rewrite <-app_assoc. split; [done|]. split.
      * intros [|j]; simpl; [lia|]. rewrite <-Nat.succ_lt_mono, Hlen. lia.
      * intros [|j] dt'; simpl.
        -- intros [= <-]. by rewrite Nat.add_0_r.
        -- intros Hj. rewrite (Hdata j dt' Hj).
           by replace (k + batch_size + j * batch_size)%nat
             with (k + (batch_size + j * batch_size))%nat by lia.
    + exists []. rewrite app_nil_r. split; [done|].
      split; [|by intros j dt; rewrite lookup_nil].
      intros j. simpl. lia.
Qed.

(** X9: With a batch size of at least one, device slots that hold the
    placeholders, and numpy's contract for [argsort]
    when bucketing, [_small_parallel_data] returns and leaves both readers
    closed.  It reads the two sources side
    by side into two buffers; with [bucketing] it sorts the pairs by the
    length of the label, without it keeps them in reading order; and batch
    [i] holds the pairs [i*batch_size .. (i+1)*batch_size - 1] of the
    buffers, as many batches as chunks start inside them. *)
Theorem in_memory_batches_are_chunks :
  let pairs := paired (LineReader.remaining (_features_reader this))
                      (LineReader.remaining (_labels_reader this)) in
  ∃ this' data ss_buf tt_buf,
    _small_parallel_data argsort input_fields this = (this', Ok data) ∧
    LineReader.closed (_features_reader this') = true ∧
    LineReader.closed (_labels_reader this') = true ∧
    zip ss_buf tt_buf ≡ₚ pairs ∧
    length ss_buf = length tt_buf ∧
    (if _bucketing this then Sorted by_length tt_buf
     else zip ss_buf tt_buf = pairs) ∧
    (∀ i, (i < length data)%nat ↔ (i * batch_size < length ss_buf)%nat) ∧
    (∀ i dt, data !! i = Some dt →
       data_ids dt
       = {[ concat_name LABEL_NAME_PREFIX IDS_NAME
            := take batch_size (drop (i * batch_size) tt_buf);
            concat_name FEATURE_NAME_PREFIX IDS_NAME
            := take batch_size (drop (i * batch_size) ss_buf) ]}).
Proof.
  intros pairs. unfold _small_parallel_data. rewrite bind_get.
  destruct (small_read_loop_run
              (S (length (LineReader.remaining (_features_reader this))))
              this [] [] _ _ eq_refl eq_refl ltac:(lia))
    as (rf & rl & Hrun & _).
  rewrite (bind_run _ _ _ _ _ Hrun). simpl. fold pairs.
  unfold bind at 1, on_features_reader at 1. simpl.
  unfold bind at 1, on_labels_reader at 1. simpl.
  assert (length pairs.*1 = length pairs.*2) as Hlen
    by (by rewrite !length_fmap).
  assert (∃ ss_buf tt_buf,
            (if _bucketing this
             then lift (bucket_pair argsort pairs.*1 pairs.*2)
             else ret (pairs.*1, pairs.*2))
            = ret (S:=ParallelTextInputter.self) (ss_buf, tt_buf) ∧
            zip ss_buf tt_buf ≡ₚ pairs ∧ length ss_buf = length tt_buf ∧
            (if _bucketing this then Sorted by_length tt_buf
             else zip ss_buf tt_buf = pairs))
    as (ss_buf & tt_buf & -> & Hperm & Hlen' & Horder).
  { destruct (_bucketing this).
    - destruct (bucket_pair_sorts argsort pairs.*1 pairs.*2
                  (Hargsort eq_refl _) Hlen)
        as (ss' & tt' & -> & Hperm & Hlen' & Hsorted).
      exists ss', tt'. split; [done|]. rewrite zip_fst_snd in Hperm. done.
    - exists pairs.*1, pairs.*2. by rewrite zip_fst_snd. }
  rewrite bind_ret. unfold lift. simpl.
  destruct (small_batch_loop_run (length ss_buf) ss_buf tt_buf 0 [])
    as (data & Hloop & Hcount & Hdata); [lia|].
  change (Z.of_nat 0) with 0 in Hloop. rewrite Hloop. simpl.
  eexists _, data, ss_buf, tt_buf. split; [done|]. simpl.
  split_and!; done.
Qed.
End in_memory_pairs.

Lemma in_memory_batches_are_chunks_witness :
  ∃ this' data,
    ParallelTextInputter._small_parallel_data argsort_ties_first
      (example_slots 1)
      (example_inputter example_features example_labels
         (Some 2) None None false true)
    = (this', Ok data) ∧
    pairs_of <$> data
    = [ [([3; 3; 3], [30]); ([2; 2], [20; 20])]; [([1], [10; 10; 10])] ].
Proof.
  destruct (in_memory_batches_are_chunks argsort_ties_first
              (example_inputter example_features example_labels
                 (Some 2) None None false true)
              (λ _, argsort_ties_first_contract)
              (example_slots 1) 2 eq_refl)
    as (this' & data & ss_buf & tt_buf & Hrun & _).
  - lia.
  - simpl. lia.
  - repeat constructor; by eexists.
  - repeat constructor; by eexists.
  - exists this', data. split; [exact Hrun|].
    vm_compute in Hrun. injection Hrun as _ <-. reflexivity.
Defined.

(** ** A batch size that is not positive *)

Section batching_without_progress.
Import Constants.

Lemma TextLineInputter_batch_loop_stuck this input_fields name_prefix fuel
    ss_buf batch_data_idx data :
  TextLineInputter._batch_size this ≤ 0 →
  batch_data_idx < Z.of_nat (length ss_buf) →
  (1 ≤ length input_fields)%nat →
  Forall (has_placeholders name_prefix) input_fields →
  TextLineInputter.batch_loop this input_fields name_prefix fuel ss_buf
    batch_data_idx data
  = Raise Diverge.
Proof.
  intros Hbs Hidx HD Hfs. revert batch_data_idx data Hidx.
  induction fuel as [|fuel IH]; intros idx data Hidx; simpl;
    rewrite decide_True by done; [done|].
  destruct (pack_feed_dict_single_run input_fields name_prefix
              (py_slice ss_buf idx (idx + TextLineInputter._batch_size this))
              (TextLineInputter._padding_id this) HD Hfs) as (dt & -> & _).
  simpl. apply IH. lia.
Qed.

(** X10: With a batch size of zero or less, the batching loops of the two
    in-memory readers make no progress: [batch_data_idx] never gets past the
    end of the buffer, and the loop packs batch after batch for ever.  In the
    model, whatever bound the loop is given is used up. *)
Theorem batch_size_not_positive_never_finishes :
  (∀ this input_fields name_prefix fuel ss_buf batch_data_idx data,
     TextLineInputter._batch_size this ≤ 0 →
     batch_data_idx < Z.of_nat (length ss_buf) →
     (1 ≤ length input_fields)%nat →
     Forall (has_placeholders name_prefix) input_fields →
     TextLineInputter.batch_loop this input_fields name_prefix fuel ss_buf
       batch_data_idx data
     = Raise Diverge) ∧
  (∀ this input_fields fuel ss_buf tt_buf batch_data_idx data,
     ParallelTextInputter._batch_size this ≤ 0 →
     batch_data_idx < Z.of_nat (length ss_buf) →
     (1 ≤ length input_fields)%nat →
     Forall (has_placeholders FEATURE_NAME_PREFIX) input_fields →
     Forall (has_placeholders LABEL_NAME_PREFIX) input_fields →
     ParallelTextInputter.batch_loop input_fields this fuel ss_buf tt_buf
       batch_data_idx data
     = Raise Diverge).
Proof.
  split.
  - intros this input_fields name_prefix fuel ss_buf idx data Hbs Hidx HD Hfs.
    by apply TextLineInputter_batch_loop_stuck.
  - intros this input_fields fuel ss_buf tt_buf idx data Hbs Hidx HD Hf Hl.
    revert idx data Hidx.
    induction fuel as [|fuel IH]; intros idx data Hidx; simpl;
      rewrite decide_True by done; [done|].
    destruct (pack_feed_dict_pair_run input_fields
                (py_slice ss_buf idx
                   (idx + ParallelTextInputter._batch_size this))
                (ParallelTextInputter._features_padding_id this)
                (py_slice tt_buf idx
                   (idx + ParallelTextInputter._batch_size this))
                (ParallelTextInputter._labels_padding_id this) HD Hf Hl)
      as (dt & ->).
    simpl. apply IH. lia.
Qed.
End batching_without_progress.

(** ** What [pack_feed_dict] records *)

Section records_of_pack_feed_dict.
Local Open Scope method_scope.
Import Constants.
Context (input_fields : list (gmap string placeholder)).

Lemma foldl_insert_list_to_map (entries : list (string * list Sequence))
    (m : gmap string (list Sequence)) :
  foldl (λ m kv, <[kv.1 := kv.2]> m) m entries
  = list_to_map (reverse entries) ∪ m.
Proof.
  revert m. induction entries as [|[k v] entries IH]; intros m; simpl.
  { by rewrite (left_id_L ∅ (∪)). }
  rewrite IH, reverse_cons, list_to_map_app. simpl.
  rewrite <-(assoc_L (∪)). f_equal.
  by rewrite <-insert_union_l, (left_id_L ∅ (∪)).
Qed.

Lemma map_fn_each_records components dt0 dt :
  map_fn_each input_fields components dt0 = (dt, Ok ()) →
  data_ids dt
  = foldl (λ m kv, <[kv.1 := kv.2]> m) (data_ids dt0)
          ((λ c, (concat_name c.1.1 IDS_NAME, c.1.2)) <$> components) ∧
  parallels dt
  = match last components with
    | Some c =>
        Some (slot_count (length c.1.2)
                (n_samples_per_gpu_of (length c.1.2) (length input_fields))
              <$> seq 0 (length input_fields))
    | None => parallels dt0
    end.
Proof.
  revert dt0. induction components as [|[[n d] p] rest IH]; intros dt0.
  { by intros [= <-]. }
  simpl.
  destruct (map_fn_result input_fields n d p dt0)
    as (dt1 & r1 & Hrun & Hids & Hr1).
  unfold bind at 1. rewrite Hrun.
  destruct Hr1 as [[_ ->]|[(_ & _ & -> & Hpar)|(_ & _ & ->)]]; [done| |done].
  intros Hrest. destruct (IH dt1 Hrest) as [IHids IHpar].
  split; [by rewrite IHids, Hids|].
  rewrite IHpar. destruct rest as [|c rest]; [exact Hpar|].
  change (last ((n, d, p) :: c :: rest)) with (last (c :: rest)).
  destruct (last (c :: rest)) eqn:Hlast; [done|].
  by apply last_None in Hlast.
Qed.

(** X11: The record that [pack_feed_dict] returns holds the sequences of every
    component under the component's name, those of the later component where
    two components share a name; and its entry [parallels] is that of the
    last component: the device counts of the last list of sequences. *)
Theorem pack_feed_dict_records components dt :
  pack_feed_dict input_fields components = Ok dt →
  data_ids dt
  = list_to_map (reverse ((λ c, (concat_name c.1.1 IDS_NAME, c.1.2))
                          <$> components)) ∧
  parallels dt
  = ((λ c, slot_count (length c.1.2)
             (n_samples_per_gpu_of (length c.1.2) (length input_fields))
           <$> seq 0 (length input_fields))
     <$> last components).
Proof.
  unfold pack_feed_dict.
  destruct (map_fn_each input_fields components empty_data) as [dt1 [[]|e]]
    eqn:Hrun; [|done].
  intros [= <-]. apply map_fn_each_records in Hrun as [Hids Hpar].
  split.
  - rewrite Hids, foldl_insert_list_to_map. simpl.
    by rewrite (right_id_L ∅ (∪)).
  - rewrite Hpar. by destruct (last components).
Qed.
End records_of_pack_feed_dict.

Lemma pack_feed_dict_records_witness :
  ∃ dt,
    pack_feed_dict (example_slots 2)
      [("feature", [[1]; [2; 2]; [3]], 0); ("label", [[7]], 0)] = Ok dt ∧
    data_ids dt = {[ "label_ids" := [[7]]; "feature_ids" := [[1]; [2; 2]; [3]] ]} ∧
    parallels dt = Some [1; 0]%nat.
Proof.
  destruct (pack_feed_dict (example_slots 2)
              [("feature", [[1]; [2; 2]; [3]], 0); ("label", [[7]], 0)])
    as [dt|e] eqn:Hpack; [|by vm_compute in Hpack].
  destruct (pack_feed_dict_records _ _ _ Hpack) as [Hids Hpar].
  exists dt. split; [done|]. rewrite Hids, Hpar. split; reflexivity.
Defined.

(** ** One list of batches per reader *)

Section every_reader.
Local Open Scope method_scope.
Import Constants.
Context (this : TextLineInputter.self).
Context (input_fields : list (gmap string placeholder)).
Context (name_prefix : string).
Context (batch_size : nat).
Hypothesis Hbatch_size :
  TextLineInputter._batch_size this = Z.of_nat batch_size.
Hypothesis Hpositive : (1 ≤ batch_size)%nat.
Hypothesis Hdevices : (1 ≤ length input_fields)%nat.
Hypothesis Hplaceholders : Forall (has_placeholders name_prefix) input_fields.

Lemma make_feeding_data_from_run reader :
  ∃ reader' data,
    TextLineInputter._make_feeding_data_from this input_fields name_prefix
      reader = (reader', Ok data) ∧
    used_up reader' ∧ gives_back name_prefix reader data.
Proof.
  unfold TextLineInputter._make_feeding_data_from. rewrite bind_get.
  destruct (TextLineInputter_read_loop_run
              (S (length (LineReader.remaining reader))) reader [])
    as (r1 & Hread & Hrem & _); [lia|].
  rewrite (bind_run _ _ _ _ _ Hread). simpl.
  set (drained := omap id (LineReader.remaining reader)).
  unfold bind, LineReader.close, lift. simpl.
  destruct (TextLineInputter_batch_loop_run this input_fields name_prefix
              batch_size Hbatch_size Hpositive Hdevices Hplaceholders
              (length drained) drained 0 [])
    as (data & Hrun & Hlen & Hdata); [lia|].
  change (Z.of_nat 0) with 0 in Hrun. rewrite Hrun. simpl.
  eexists _, data. split; [done|]. split; [done|].
  unfold gives_back. fold drained.
  assert (ids_under name_prefix <$> data
          = slot_block drained batch_size <$> seq 0 (length data)) as ->.
  { apply list_eq. intros i. rewrite !list_lookup_fmap.
    destruct (data !! i) as [dt|] eqn:Hi; simpl.
    - rewrite lookup_seq_lt by (by eapply lookup_lt_Some). simpl.
      unfold ids_under. rewrite (Hdata i dt Hi), lookup_singleton_eq.
      done.
    - apply lookup_ge_None in Hi. by rewrite lookup_seq_ge. }
  rewrite concat_slot_blocks. simpl. apply take_ge.
  assert (¬ (length data < length data)%nat) as Hnot by lia.
  rewrite Hlen in Hnot. simpl in Hnot. lia.
Qed.

Lemma make_feeding_data_each_run readers :
  ∃ readers' datas,
    TextLineInputter.make_feeding_data_each this input_fields name_prefix
      readers = (readers', Ok datas) ∧
    Forall used_up readers' ∧ Forall2 (gives_back name_prefix) readers datas.
Proof.
  induction readers as [|reader readers IH]; simpl.
  { exists [], []. by split_and!. }
  destruct (make_feeding_data_from_run reader)
    as (reader' & data & -> & Hused & Hgives).
  destruct IH as (readers' & datas & -> & Hall & Hall2). simpl.
  exists (reader' :: readers'), (data :: datas). split; [done|].
  split; by constructor.
Qed.

(** X12: With a batch size of at least one and device slots that hold the
    placeholders, [make_feeding_data] returns one list of batches for its
    reader, or one per reader in the order of the readers when it was given
    a list of them; it leaves every reader closed and read to its end; and
    the batches of a reader, put end to end, are the lines that reader had
    left, malformed lines dropped: no line is lost, repeated or moved. *)
Theorem every_reader_gets_its_batches :
  ∃ this' feeding,
    TextLineInputter.make_feeding_data input_fields name_prefix this
    = (this', Ok feeding) ∧
    match TextLineInputter._readers this, TextLineInputter._readers this',
          feeding with
    | inl reader, inl reader', inl data =>
        used_up reader' ∧ gives_back name_prefix reader data
    | inr readers, inr readers', inr datas =>
        Forall used_up readers' ∧ Forall2 (gives_back name_prefix) readers datas
    | _, _, _ => False
    end.
Proof.
  unfold TextLineInputter.make_feeding_data.
  destruct (TextLineInputter._readers this) as [reader|readers].
  - destruct (make_feeding_data_from_run reader)
      as (reader' & data & -> & Hused & Hgives).
    eexists _, _. split; [done|]. done.
  - destruct (make_feeding_data_each_run readers)
      as (readers' & datas & -> & Hall & Hall2).
    eexists _, _. split; [done|]. done.
Qed.
End every_reader.

Lemma every_reader_gets_its_batches_witness :
  ∃ this' datas,
    TextLineInputter.make_feeding_data (example_slots 1) "feature"
      (TextLineInputter.mk
         (inr [LineReader.open example_corpus;
               LineReader.open example_features]) 2 0)
    = (this', Ok (inr datas)) ∧
    (λ data : list batch_record, ids_under "feature" <$> data) <$> datas
    = [ [ [[1]; [2; 2]]; [[3]; [4; 4; 4]] ];
        [ [[1]; [2; 2]]; [[3; 3; 3]] ] ].
Proof.
  destruct (every_reader_gets_its_batches
              (TextLineInputter.mk
                 (inr [LineReader.open example_corpus;
                       LineReader.open example_features]) 2 0)
              (example_slots 1) "feature" 2 eq_refl)
    as (this' & feeding & Hrun & _).
  - lia.
  - simpl. lia.
  - repeat constructor; by eexists.
  - vm_compute in Hrun. injection Hrun as <- <-.
    eexists _, _. split; reflexivity.
Defined.

(** ** The token budget and the batch *)

Section token_budget_of_a_batch.
Local Open Scope method_scope.
Import ParallelTextInputter ParallelTextInputter._BigParallelDataIterator.
Import Constants.
Context (argsort : list nat → list nat).
Context (random_permutation : nat → nat → list nat).
Hypothesis Hargsort : ∀ tlen, is_argsort tlen (argsort tlen).
Implicit Types (it : ParallelTextInputter._BigParallelDataIterator.self).

(** What a call of [next] that returns a batch went through. *)
Lemma next_Ok_inv it it' b :
  next argsort random_permutation it = (it', Ok b) →
  ∃ it2 local ret_data,
    _end_of_data it = false ∧
    length (_features_buffer it) = length (_labels_buffer it) ∧
    refill argsort random_permutation it = (it2, Ok ()) ∧
    local_batch_size_of (_features_len_buffer it2) (_labels_len_buffer it2)
      (_batch_size (kwargs it2)) (_batch_tokens_size (kwargs it2))
    = Ok local ∧
    py_prefix (_features_buffer it2) local ≠ [] ∧
    py_prefix (_labels_buffer it2) local ≠ [] ∧
    pack_feed_dict (_input_fields it2) (cut_components it2 local)
    = Ok ret_data ∧
    it' = after_cut it2 local ∧
    b = (if _fill_full_batch (kwargs it2)
         then mk_data (data_ids ret_data) (feed_dict ret_data) None
         else ret_data).
Proof.
  destruct (_end_of_data it) eqn:Hflag.
  { rewrite next_flag_up by done.
    intros H. by apply end_of_epoch_gives_no_batch in H. }
  destruct (decide (length (_features_buffer it)
                    = length (_labels_buffer it))) as [Hlen|Hlen]; cycle 1.
  { by rewrite next_buffers_differ by done. }
  rewrite next_run by done.
  destruct (refill argsort random_permutation it) as [it2 [[]|e]] eqn:Hrefill;
    [|done].
  destruct (_ && _); [intros H; by apply end_of_epoch_gives_no_batch in H|].
  destruct (local_batch_size_of (_features_len_buffer it2)
              (_labels_len_buffer it2) (_batch_size (kwargs it2))
              (_batch_tokens_size (kwargs it2))) as [local|e] eqn:Hlocal;
    [|by rewrite (emit_growth_fails _ _ _ Hlocal)].
  rewrite (emit_run _ _ _ Hlocal).
  case_decide as Hempty;
    [intros H; by apply end_of_epoch_gives_no_batch in H|].
  destruct (pack_feed_dict _ _) as [ret_data|e] eqn:Hpack; [|done].
  intros [= <- <-]. exists it2, local, ret_data.
  split_and!; try done; intros H; apply Hempty; auto.
Qed.

Lemma local_batch_size_of_grows fl ll batch_size T :
  length ll = length fl → 0 ≤ batch_size →
  ∃ n' : nat,
    local_batch_size_of fl ll batch_size (Some T) = Ok (Z.of_nat n') ∧
    (Z.to_nat batch_size ≤ n')%nat ∧
    ∀ m, (Z.to_nat batch_size ≤ m < n')%nat → may_grow fl ll T m.
Proof.
  intros Hlen Hbs. simpl. rewrite !py_prefix_nonneg by done.
  destruct (grow_loop_run fl ll T
              (Z.to_nat (Z.of_nat (length fl) - batch_size))
              (Z.to_nat batch_size) Hlen ltac:(lia))
    as (n' & Hrun & Hge & Hgrow & _).
  rewrite Z2Nat.id in Hrun by done. by exists n'.
Qed.

Lemma token_budget_bounds_the_batch_under_contract it it' ret_data T :
  cache_consistent it →
  0 ≤ _batch_size (kwargs it) →
  _batch_tokens_size (kwargs it) = Some T →
  next argsort random_permutation it = (it', Ok ret_data) →
  ∃ features labels,
    data_ids ret_data
    = {[ concat_name LABEL_NAME_PREFIX IDS_NAME := labels;
         concat_name FEATURE_NAME_PREFIX IDS_NAME := features ]} ∧
    length features = length labels ∧
    ((Z.to_nat (_batch_size (kwargs it)) < length features)%nat →
     tokens (take (length features - 1) features) ≤ T - 20 ∧
     tokens (take (length labels - 1) labels) ≤ T - 20).
Proof.
  intros (_ & _ & Hfl & Hll) Hbs HT Hnext.
  destruct (next_Ok_inv _ _ _ Hnext)
    as (it2 & local & ret_data0 & _ & Hlen & Hrefill & Hlocal & _ & _
        & Hpack & _ & ->).
  destruct (refill_stock argsort random_permutation Hargsort _ _ Hlen Hrefill)
    as (_ & _ & Hlen2 & Hs & _ & _ & _ & Hcons).
  destruct (Hcons Hfl Hll) as [Hfl2 Hll2].
  injection Hs as _ _ Hbs2 Hbts2 _ _ _ _.
  apply pack_feed_dict_pair_records in Hpack as [Hids _].
  exists (py_prefix (_features_buffer it2) local),
         (py_prefix (_labels_buffer it2) local).
  split; [by destruct (_fill_full_batch (kwargs it2))|].
  split; [by apply py_prefix_length_eq|].
  rewrite <-(py_prefix_length_eq _ _ local Hlen2).
  rewrite Hbs2, Hbts2, HT in Hlocal.
  destruct (local_batch_size_of_grows (_features_len_buffer it2)
              (_labels_len_buffer it2) (_batch_size (kwargs it)) T)
    as (n' & Hlocal' & Hge & Hgrow).
  { by rewrite Hfl2, Hll2, !length_fmap. }
  { done. }
  rewrite Hlocal' in Hlocal. injection Hlocal as <-.
  rewrite !py_prefix_nonneg, Nat2Z.id by lia.
  rewrite length_take. intros Hmore.
  destruct (Hgrow (n' - 1)%nat ltac:(lia)) as (Hs & Ht & Hms & Hmt & Hin).
  rewrite Hfl2, length_fmap in Hin.
  change (@length (list Z)) with (@length Sequence) in Hin.
  replace (n' `min` length (_features_buffer it2))%nat with n' by lia.
  unfold tokens. rewrite !take_take.
  replace ((n' - 1) `min` n')%nat with (n' - 1)%nat by lia.
  rewrite Hfl2, <-fmap_take in Hms. rewrite Hll2, <-fmap_take in Hmt.
  split.
  - apply Z.le_add_le_sub_r, Z.le_add_le_sub_l. exact Hms.
  - apply Z.le_add_le_sub_r, Z.le_add_le_sub_l. exact Hmt.
Qed.
End token_budget_of_a_batch.

(** X13: With a token budget, a batch that holds more than [batch_size] pairs
    holds, its last pair left out, at most [batch_tokens_size - 20] feature
    tokens and as many label tokens at most: only the last pair can take
    the batch over the budget.  The cache is taken to be consistent, as
    [next] keeps it; when the iterator buckets, numpy's contract for
    [argsort] is assumed. *)
Theorem token_budget_bounds_the_batch argsort random_permutation it it'
    ret_data T :
  (ParallelTextInputter._bucketing
     (ParallelTextInputter._BigParallelDataIterator.kwargs it) = true →
   ∀ tlen, is_argsort tlen (argsort tlen)) →
  cache_consistent it →
  0 ≤ ParallelTextInputter._batch_size
        (ParallelTextInputter._BigParallelDataIterator.kwargs it) →
  ParallelTextInputter._batch_tokens_size
    (ParallelTextInputter._BigParallelDataIterator.kwargs it) = Some T →
  ParallelTextInputter._BigParallelDataIterator.next
    argsort random_permutation it = (it', Ok ret_data) →
  ∃ features labels,
    data_ids ret_data
    = {[ concat_name Constants.LABEL_NAME_PREFIX Constants.IDS_NAME := labels;
         concat_name Constants.FEATURE_NAME_PREFIX Constants.IDS_NAME
         := features ]} ∧
    length features = length labels ∧
    ((Z.to_nat (ParallelTextInputter._batch_size
                  (ParallelTextInputter._BigParallelDataIterator.kwargs it))
      < length features)%nat →
     tokens (take (length features - 1) features) ≤ T - 20 ∧
     tokens (take (length labels - 1) labels) ≤ T - 20).
Proof.
  intros Hcontract Hcons Hbs HT Hnext.
  destruct (ParallelTextInputter._bucketing
              (ParallelTextInputter._BigParallelDataIterator.kwargs it))
    eqn:Hb.
  - by eapply token_budget_bounds_the_batch_under_contract;
      [apply Hcontract|..].
  - rewrite (next_without_bucketing argsort argsort_ties_first) in Hnext
      by done.
    by eapply token_budget_bounds_the_batch_under_contract;
      [apply argsort_ties_first_contract|..].
Qed.


Lemma token_budget_bounds_the_batch_witness :
  let it := example_iterator
              (example_inputter example_features example_labels
                 (Some 1) (Some 24) None false false) in
  ∃ it' ret_data,
    ParallelTextInputter._BigParallelDataIterator.next
      argsort_ties_first reversal it = (it', Ok ret_data) ∧
    pairs_of ret_data = [([1], [10; 10; 10]); ([2; 2], [20; 20])].
Proof.
  intros it.
  destruct (ParallelTextInputter._BigParallelDataIterator.next
              argsort_ties_first reversal it) as [it' r] eqn:Hnext.
  assert (∃ ret_data, r = Ok ret_data) as [ret_data ->].
  { vm_compute in Hnext. injection Hnext as _ <-. by eexists. }
  destruct (token_budget_bounds_the_batch argsort_ties_first reversal
              it it' ret_data 24)
    as (features & labels & Hids & _);
    [by intros|by split_and!|by vm_compute|done..|].
  exists it', ret_data. split; [done|].
  vm_compute in Hnext. injection Hnext as _ <-. reflexivity.
Defined.

(** ** The batches of the streaming iterator as chunks *)

Section streaming_chunks.
Local Open Scope method_scope.
Import ParallelTextInputter ParallelTextInputter._BigParallelDataIterator.
Import Constants.
Context (argsort : list nat → list nat).
Context (random_permutation : nat → nat → list nat).
Hypothesis Hargsort : ∀ tlen, is_argsort tlen (argsort tlen).
Implicit Types (it : ParallelTextInputter._BigParallelDataIterator.self).

(** When the cache has room for a batch, a refill that returns leaves a
    batch in the cache, or nothing to read. *)
Lemma refill_fills it it2 :
  length (_features_buffer it) = length (_labels_buffer it) →
  _batch_size (kwargs it) ≤ _cache_size (kwargs it) →
  refill argsort random_permutation it = (it2, Ok ()) →
  _batch_size (kwargs it) ≤ Z.of_nat (length (_features_buffer it2))
  ∨ paired (LineReader.remaining (features_reader_of it2))
           (LineReader.remaining (labels_reader_of it2)) = [].
Proof.
  intros Hlen Hroom.
  destruct (decide (Z.of_nat (length (_features_buffer it))
                    < _batch_size (kwargs it))) as [Hlt|Hge]; cycle 1.
  { rewrite refill_skip by lia. intros [= <-]. left. lia. }
  destruct (refill_run argsort random_permutation it Hlt)
    as (it1 & Hrefilled & ->).
  pose proof (refilled_frame _ _ Hrefilled) as (_ & _ & _ & _ & _ & Hlen1).
  specialize (Hlen1 Hlen).
  case_decide as Hempty.
  { intros H. by apply end_of_epoch_gives_no_batch in H. }
  destruct (put_in_order_run argsort Hargsort it1 Hlen1)
    as (features & labels & -> & Hperm & Hlen2 & _).
  intros [= <-]. unfold features_reader_of, labels_reader_of. simpl.
  rewrite (zip_same_length _ _ _ _ Hperm Hlen2 Hlen1).
  destruct Hrefilled as (rf & rl & -> & Hrest & _). simpl.
  rewrite Hrest, length_app, length_fmap, length_take.
  set (P := paired _ _).
  set (room := Z.to_nat (_ - _)).
  destruct (decide (length P ≤ room)%nat) as [Hall|Hmore].
  - right. by apply drop_ge.
  - left. unfold room in *. lia.
Qed.

Lemma app_take_drop {X} (l1 l2 l : list X) n :
  l1 ++ l2 = l → length l1 = (n `min` length l)%nat →
  l1 = take n l ∧ l2 = drop n l.
Proof.
  intros <- Hlen. rewrite length_app in Hlen.
  destruct (decide (length l1 = n)) as [<-|Hne].
  - by rewrite take_app_length, drop_app_length.
  - assert (l2 = []) as -> by (apply nil_length_inv; lia).
    rewrite app_nil_r in *.
    rewrite take_ge, drop_ge by lia. done.
Qed.

Lemma streaming_batches_are_chunks_under_contract it :
  ready random_permutation it →
  _bucketing (kwargs it) = false →
  _batch_tokens_size (kwargs it) = None →
  _batch_size (kwargs it) ≤ _cache_size (kwargs it) →
  ∃ it' r,
    next argsort random_permutation it = (it', r) ∧
    ready random_permutation it' ∧
    settings (kwargs it') = settings (kwargs it) ∧
    match r with
    | Ok ret_data =>
        stock it ≠ [] ∧
        pairs_of ret_data
        = take (Z.to_nat (_batch_size (kwargs it))) (stock it) ∧
        stock it'
        = drop (Z.to_nat (_batch_size (kwargs it))) (stock it)
    | Raise e =>
        e = StopIteration ∧ stock it = [] ∧
        cache it' = ([], [], [], []) ∧
        LineReader.cursor (features_reader_of it') = 0%nat ∧
        LineReader.cursor (labels_reader_of it') = 0%nat
    end.
Proof.
  intros Hready Hb Hbts Hroom.
  destruct (next_progress argsort random_permutation Hargsort it Hready)
    as (it' & r & Hnext & Hready' & Hr).
  exists it', r. split; [done|]. split; [done|].
  pose proof (pull_readers _ _ _ (next_pull _ _ _ _ _ Hnext))
    as (Hs & _).
  split; [done|].
  destruct Hready as (Hbs & Hcs & Hffb & (Hflag & Hlen & _) & _).
  destruct Hr as [[b ->]|(-> & Hc & Hpf & Hpl)]; cycle 1.
  { split_and!; try done.
    by eapply (next_ends_on_empty_stock argsort random_permutation). }
  destruct (next_gives argsort random_permutation Hargsort _ _ _ Hflag Hnext)
    as (_ & Hsame & Hne & _).
  specialize (Hsame Hb).
  destruct (next_Ok_inv argsort random_permutation _ _ _ Hnext)
    as (it2 & local & ret_data & _ & _ & Hrefill & Hlocal & _ & _
        & Hpack & -> & ->).
  destruct (refill_stock argsort random_permutation Hargsort _ _ Hlen Hrefill)
    as (_ & Hstock & Hlen2 & Hs2 & _).
  specialize (Hstock Hb).
  pose proof (refill_fills _ _ Hlen Hroom Hrefill) as Hfills.
  pose proof Hs2 as Hs2'. injection Hs2' as _ _ Hbs2 Hbts2 _ _ _ _.
  rewrite Hbts2, Hbts in Hlocal. simpl in Hlocal. injection Hlocal as <-.
  apply pack_feed_dict_pair_records in Hpack as [Hids _].
  rewrite (pairs_of_pair_record _ _ _ _ Hids) in Hsame, Hne |- *.
  split.
  { intros Hnil. rewrite Hnil in Hsame. by apply app_eq_nil in Hsame as [? _]. }
  apply app_take_drop; [done|].
  rewrite length_zip, <-(py_prefix_length_eq _ _ _ Hlen2), Nat.min_id.
  rewrite py_prefix_length, Hbs2, slice_bound_nonneg by lia.
  rewrite <-Hstock. unfold stock. rewrite length_app, length_zip.
  rewrite <-Hlen2, Nat.min_id.
  destruct Hfills as [Hfull|Hnone]; [lia|].
  rewrite Hnone. simpl. lia.
Qed.
End streaming_chunks.

(** X14: Without a token budget, without bucketing and without
    [fill_full_batch], an iterator that is ready and whose cache has room
    for a batch hands out its stock in chunks: each call of [next] returns
    the first [batch_size] pairs of the stock, or all of it when it holds
    fewer, and ends the epoch when the stock is empty, leaving the readers
    at their start.  The iterator stays ready, with the same settings. *)
Theorem streaming_batches_are_chunks argsort random_permutation it :
  ready random_permutation it →
  ParallelTextInputter._bucketing
    (ParallelTextInputter._BigParallelDataIterator.kwargs it) = false →
  ParallelTextInputter._batch_tokens_size
    (ParallelTextInputter._BigParallelDataIterator.kwargs it) = None →
  ParallelTextInputter._batch_size
    (ParallelTextInputter._BigParallelDataIterator.kwargs it)
  ≤ ParallelTextInputter._cache_size
      (ParallelTextInputter._BigParallelDataIterator.kwargs it) →
  ∃ it' r,
    ParallelTextInputter._BigParallelDataIterator.next
      argsort random_permutation it = (it', r) ∧
    ready random_permutation it' ∧
    settings (ParallelTextInputter._BigParallelDataIterator.kwargs it')
    = settings (ParallelTextInputter._BigParallelDataIterator.kwargs it) ∧
    match r with
    | Ok ret_data =>
        stock it ≠ [] ∧
        pairs_of ret_data
        = take (Z.to_nat (ParallelTextInputter._batch_size
                            (ParallelTextInputter._BigParallelDataIterator.kwargs
                               it)))
               (stock it) ∧
        stock it'
        = drop (Z.to_nat (ParallelTextInputter._batch_size
                            (ParallelTextInputter._BigParallelDataIterator.kwargs
                               it)))
               (stock it)
    | Raise e =>
        e = StopIteration ∧ stock it = [] ∧
        cache it' = ([], [], [], []) ∧
        LineReader.cursor (features_reader_of it') = 0%nat ∧
        LineReader.cursor (labels_reader_of it') = 0%nat
    end.
Proof.
  intros Hready Hb Hbts Hroom.
  destruct (streaming_batches_are_chunks_under_contract argsort_ties_first
              random_permutation argsort_ties_first_contract it
              Hready Hb Hbts Hroom) as (it' & r & Hnext & Hrest).
  exists it', r. split; [|done].
  by rewrite (next_without_bucketing argsort argsort_ties_first).
Qed.


Lemma streaming_batches_are_chunks_witness :
  let it := example_iterator
              (example_inputter example_features example_labels
                 (Some 2) None None false false) in
  ∃ it' ret_data,
    ParallelTextInputter._BigParallelDataIterator.next
      argsort_ties_first reversal it = (it', Ok ret_data) ∧
    pairs_of ret_data = [([1], [10; 10; 10]); ([2; 2], [20; 20])] ∧
    stock it' = [([3; 3; 3], [30])].
Proof.
  intros it.
  destruct (streaming_batches_are_chunks argsort_ties_first reversal it)
    as (it' & r & Hnext & _ & _ & Hr).
  - unfold ready. split; [by vm_compute|]. split; [by vm_compute|].
    split; [reflexivity|]. split; [by split_and!|]. split.
    + split; [vm_compute; lia|]. split; repeat constructor; by eexists.
    + intros Hsh. by vm_compute in Hsh.
  - reflexivity.
  - reflexivity.
  - by vm_compute.
  - destruct r as [ret_data|e]; [|by vm_compute in Hnext].
    destruct Hr as (_ & Hpairs & Hstock).
    exists it', ret_data. split; [done|]. rewrite Hpairs, Hstock.
    split; vm_compute; reflexivity.
Defined.

(** ** Configuration errors, and no others *)

Section configuration_errors.
Local Open Scope method_scope.
Import ParallelTextInputter.
Import Constants.
Context (argsort : list nat → list nat).
Context (random_permutation : nat → nat → list nat).

(** With device slots that hold the placeholders, the batching loop of
    [_small_parallel_data] raises nothing: it returns, or it does not
    end. *)
Lemma small_batch_loop_raises_nothing input_fields this fuel ss_buf tt_buf
    batch_data_idx data e :
  (1 ≤ length input_fields)%nat →
  Forall (has_placeholders FEATURE_NAME_PREFIX) input_fields →
  Forall (has_placeholders LABEL_NAME_PREFIX) input_fields →
  batch_loop input_fields this fuel ss_buf tt_buf batch_data_idx data
  = Raise e →
  e = Diverge.
Proof.
  intros HD Hf Hl. revert batch_data_idx data.
  induction fuel as [|fuel IH]; intros idx data; simpl;
    case_decide; try done; [by intros [= <-]|].
  destruct (pack_feed_dict_pair_run input_fields
              (py_slice ss_buf idx (idx + _batch_size this))
              (_features_padding_id this)
              (py_slice tt_buf idx (idx + _batch_size this))
              (_labels_padding_id this) HD Hf Hl) as (dt & ->).
  simpl. apply IH.
Qed.

(** Up to its batching loop, [_small_parallel_data] runs without error when
    the index sort keeps its contract. *)
Lemma small_parallel_data_run input_fields this :
  (_bucketing this = true → ∀ tlen, is_argsort tlen (argsort tlen)) →
  ∃ this' ss_buf tt_buf,
    _small_parallel_data argsort input_fields this
    = (this', batch_loop input_fields this (length ss_buf) ss_buf tt_buf 0 []).
Proof.
  intros Hargsort. unfold _small_parallel_data. rewrite bind_get.
  destruct (small_read_loop_run
              (S (length (LineReader.remaining (_features_reader this))))
              this [] [] _ _ eq_refl eq_refl ltac:(lia))
    as (rf & rl & Hrun & _).
  rewrite (bind_run _ _ _ _ _ Hrun). simpl.
  set (pairs := paired (LineReader.remaining (_features_reader this))
                       (LineReader.remaining (_labels_reader this))).
  unfold bind at 1, on_features_reader at 1. simpl.
  unfold bind at 1, on_labels_reader at 1. simpl.
  destruct (_bucketing this) eqn:Hbucketing.
  - destruct (bucket_pair_sorts argsort pairs.*1 pairs.*2
                (Hargsort eq_refl _)) as (ss' & tt' & Hbucket & _).
    { by rewrite !length_fmap. }
    unfold bind at 1, lift at 1. rewrite Hbucket. simpl.
    unfold lift. by eexists _, ss', tt'.
  - rewrite bind_ret. unfold lift. by eexists _, pairs.*1, pairs.*2.
Qed.

(** C9: the constructor of [ParallelTextInputter] raises, and then a
    [ValueError], exactly when both [batch_size] and [batch_tokens_size] are
    [None]; when both are given it returns an inputter that keeps
    [batch_size] and sizes its cache by [batch_tokens_size].
    [make_feeding_data] with [in_memory=True] raises [ValueError] exactly
    when [fill_full_batch] is set or [shuffle_every_epoch] is set (is a
    non-empty string, which is how the code tests it), and it does so before
    it touches the inputter.  It raises nothing else: on device slots that
    hold the placeholders, at least one of them, and with an index sort that
    keeps numpy's contract when bucketing, the call raises an exception
    exactly when one of the two options is set, and with a batch size of at
    least one it then returns the batches.  ([Diverge] is no exception: it
    stands for the batching loop that does not end, with a batch size of
    zero or less.) *)
Theorem configuration_errors :
  (∀ features_reader labels_reader features_padding_id labels_padding_id
     batch_size batch_tokens_size shuffle_every_epoch fill_full_batch
     bucketing,
     let r := __init__ features_reader labels_reader
                features_padding_id labels_padding_id
                batch_size batch_tokens_size shuffle_every_epoch
                fill_full_batch bucketing in
     ((∃ e, r = Raise e) ↔ batch_size = None ∧ batch_tokens_size = None) ∧
     (∀ e, r = Raise e → e = ValueError) ∧
     (∀ bs bts, batch_size = Some bs → batch_tokens_size = Some bts →
        ∃ this, r = Ok this ∧ _batch_size this = bs
                ∧ _batch_tokens_size this = Some bts
                ∧ _cache_size this = bts * 6)) ∧
  (∀ this input_fields,
     let r := make_feeding_data argsort random_permutation
                input_fields true this in
     let rejected := _fill_full_batch this = true
                     ∨ truthy (_shuffle_every_epoch this) = true in
     (r.2 = Raise ValueError ↔ rejected) ∧
     (r.2 = Raise ValueError → r.1 = this) ∧
     ((1 ≤ length input_fields)%nat →
      Forall (has_placeholders FEATURE_NAME_PREFIX) input_fields →
      Forall (has_placeholders LABEL_NAME_PREFIX) input_fields →
      (_bucketing this = true → ∀ tlen, is_argsort tlen (argsort tlen)) →
      ((∃ e, e ≠ Diverge ∧ r.2 = Raise e) ↔ rejected) ∧
      (∀ e, r.2 = Raise e → e = ValueError ∨ e = Diverge) ∧
      (1 ≤ _batch_size this → ¬ rejected →
       ∃ data, r.2 = Ok (InMemory data)))).
Proof.
  split.
  - intros fr lr fp lp bs bts sh ffb bk r. subst r. unfold __init__.
    destruct bs as [bs|], bts as [bts|]; simpl.
    + split; [|split].
      * split; [by intros [e ?]|by intros [? ?]].
      * done.
      * intros ?? [= <-] [= <-]. by eexists.
    + split; [|split]; [|done|done].
      split; [by intros [e ?]|by intros [? ?]].
    + split; [|split]; [|done|done].
      split; [by intros [e ?]|by intros [? ?]].
    + split; [|split]; [|by intros e [= <-]|done].
      split; [done|by eexists].
  - intros this input_fields r rejected. subst r rejected.
    unfold make_feeding_data. rewrite bind_get.
    destruct (_fill_full_batch this); simpl.
    { split; [split; [by left|done]|]. split; [done|]. intros _ _ _ _.
      split; [split; [by left|by exists ValueError]|].
      split; [intros e [= <-]; by left|].
      intros _ Hnot. destruct Hnot. by left. }
    destruct (truthy (_shuffle_every_epoch this)); simpl.
    { split; [split; [by right|done]|]. split; [done|]. intros _ _ _ _.
      split; [split; [by right|by exists ValueError]|].
      split; [intros e [= <-]; by left|].
      intros _ Hnot. destruct Hnot. by right. }
    assert ((bind (_small_parallel_data argsort input_fields)
                  (λ data, ret (InMemory data)) this).2 ≠ Raise ValueError)
      as Hne.
    { intros Hr.
      assert (raises_only (λ e, e ≠ ValueError)
                (bind (_small_parallel_data argsort input_fields)
                      (λ data, @ret self _ (InMemory data)))) as Hm.
      { raises_step; [by apply raises_only_small_parallel_data|raises_step]. }
      by apply (Hm this ValueError). }
    split; [split; [done|by intros [?|?]]|]. split; [done|].
    intros HD Hf Hl Hargsort.
    destruct (small_parallel_data_run input_fields this Hargsort)
      as (this' & ss_buf & tt_buf & Hrun).
    unfold bind. rewrite Hrun.
    destruct (batch_loop input_fields this (length ss_buf) ss_buf tt_buf 0 [])
      as [data|e] eqn:Hloop; simpl.
    + split; [split; [by intros (e & _ & ?)|by intros [?|?]]|].
      split; [done|]. intros _ _. by exists data.
    + pose proof (small_batch_loop_raises_nothing _ _ _ _ _ _ _ _ HD Hf Hl
                    Hloop) as ->.
      split; [split; [by intros (e & He & [= <-])|by intros [?|?]]|].
      split; [intros e [= <-]; by right|].
      intros Hsize _. exfalso.
      destruct (small_batch_loop_run this input_fields
                  (Z.to_nat (_batch_size this)) ltac:(lia) ltac:(lia)
                  HD Hf Hl (length ss_buf) ss_buf tt_buf 0 [])
        as (data & Hok & _); [lia|].
      change (Z.of_nat 0) with 0 in Hok. by rewrite Hok in Hloop.
Qed.
End configuration_errors.

Lemma configuration_errors_witness :
  (∃ data,
     (ParallelTextInputter.make_feeding_data argsort_ties_first reversal
        (example_slots 1) true
        (example_inputter example_features example_labels
           (Some 2) None None false true)).2
     = Ok (ParallelTextInputter.InMemory data)) ∧
  (ParallelTextInputter.make_feeding_data argsort_ties_first reversal
     (example_slots 1) true
     (example_inputter example_features example_labels
        (Some 2) None None true true)).2
  = Raise ValueError.
Proof.
  split.
  - destruct (configuration_errors argsort_ties_first reversal) as [_ Hcall].
    destruct (Hcall (example_inputter example_features example_labels
                       (Some 2) None None false true) (example_slots 1))
      as (_ & _ & Hvalid).
    destruct Hvalid as (_ & _ & Hreturns).
    + simpl. lia.
    + repeat constructor; by eexists.
    + repeat constructor; by eexists.
    + intros _ tlen. apply argsort_ties_first_contract.
    + apply Hreturns; [vm_compute; discriminate|].
      intros [Hset|Hset]; vm_compute in Hset; discriminate.
  - destruct (configuration_errors argsort_ties_first reversal) as [_ Hcall].
    destruct (Hcall (example_inputter example_features example_labels
                       (Some 2) None None true true) (example_slots 1))
      as (Hiff & _).
    apply Hiff. by left.
Defined.
(** ** The request handler of the server *)

Section handler_properties.
Import Constants translate_server.
Context `{world : World experiment_spec}.
Implicit Types h : handler experiment_spec.

(** *** The equations of the steps *)

Lemma and_then_value {A B} (m : H experiment_spec A)
    (k : A → H experiment_spec B) h h' a :
  m h = (h', Value a) → and_then m k h = k a h'.
Proof. unfold and_then. by intros ->. Qed.

Lemma and_then_exception {A B} (m : H experiment_spec A)
    (k : A → H experiment_spec B) h h' e :
  m h = (h', Exception e) → and_then m k h = (h', Exception e).
Proof. unfold and_then. by intros ->. Qed.

Lemma and_then_hang {A B} (m : H experiment_spec A)
    (k : A → H experiment_spec B) h h' :
  m h = (h', Hang) → and_then m k h = (h', Hang).
Proof. unfold and_then. by intros ->. Qed.

Lemma and_then_returned {A B} (o : outcome A)
    (k : A → H experiment_spec B) h :
  and_then (returned o) k h
  = match o with
    | Value a => k a h
    | Exception e => (h, Exception e)
    | Hang => (h, Hang)
    end.
Proof. done. Qed.

Lemma recv_run h raw_data :
  recv_data (received h) = Some raw_data →
  recv h = (has_received h, Value raw_data).
Proof. unfold recv. by intros ->. Qed.

Lemma send_response_run h :
  send_response h
  = match response h with
    | None => (h, Exception UnboundLocalError)
    | Some data =>
        (mk (received h) (attempts h ++ [data]) (response h) (experiment h),
         if send_ok (length (attempts h)) then Value next_iteration
         else Exception socket_error)
    end.
Proof.
  unfold send_response, and_then, gets, throw, sendall, pure.
  destruct (response h) as [data|] eqn:Hresponse; [|done]. cbv beta.
  rewrite Hresponse. by destruct (send_ok _).
Qed.

(** Sending a response that was just assigned. *)
Lemma set_and_send_run data h :
  and_then (set_response data) (λ _, send_response) h
  = (mk (received h) (attempts h ++ [data]) (Some data) (experiment h),
     if send_ok (length (attempts h)) then Value next_iteration
     else Exception socket_error).
Proof.
  unfold and_then, set_response. by rewrite send_response_run.
Qed.

(** The [except] clause. *)
Lemma iteration_exception h h' e :
  try_block h = (h', Exception e) → iteration h = answer_error h'.
Proof.
  unfold iteration. intros ->.
  unfold and_then, set_response, sendall, answer_error. simpl.
  by destruct (send_ok _).
Qed.

Lemma iteration_value h h' f :
  try_block h = (h', Value f) → iteration h = (h', Value f).
Proof. unfold iteration. by intros ->. Qed.

Lemma iteration_hang h h' :
  try_block h = (h', Hang) → iteration h = (h', Hang).
Proof. unfold iteration. by intros ->. Qed.

(** *** What the steps of the [try] block leave alone *)

Lemma preprocess_raw_state raw_data h h' o :
  preprocess_raw raw_data h = (h', o) → h' = h.
Proof.
  unfold preprocess_raw, and_then, returned, gets, pure.
  intros Hrun. repeat case_match; by simplify_eq.
Qed.

Lemma translate_each_state content sources trans_outputs h h' o :
  translate_each content sources trans_outputs h = (h', o) →
  received h' = received h ∧ attempts h' = attempts h ∧
  response h' = response h.
Proof.
  revert sources trans_outputs h.
  induction content as [|feeding_data rest IH];
    intros sources trans_outputs h; simpl.
  { unfold pure. by intros [= <- <-]. }
  unfold and_then, call_infer.
  destruct (infer (experiment h) feeding_data) as [spec [translated|]].
  - intros Hrun. by destruct (IH _ _ _ Hrun) as (-> & -> & ->).
  - by intros [= <- <-].
Qed.

(** *** The [try] block on the requests it knows *)

(** What [preprocess_raw] returns for a message that is not a request to
    translate. *)
Lemma preprocess_raw_message raw_data command h :
  getitem (unwrap_message raw_data) "command" = Value command →
  is_str command "translate" = false →
  preprocess_raw raw_data h = (h, Value (Message (unwrap_message raw_data))).
Proof.
  intros Hcommand Htranslate. unfold preprocess_raw.
  by rewrite and_then_returned, Hcommand, Htranslate.
Qed.

(** A request that is not understood: the response is sent as it is. *)
Lemma try_block_not_understood h raw_data :
  recv_data (received h) = Some raw_data →
  not_understood raw_data →
  try_block h = send_response (has_received h).
Proof.
  intros Hrecv (command & Hcommand & Htranslate & Hreload & Hcontrol).
  unfold try_block.
  rewrite (and_then_value _ _ _ _ _ (recv_run _ _ Hrecv)).
  rewrite (and_then_value _ _ _ _ _
             (preprocess_raw_message _ _ _ Hcommand Htranslate)).
  rewrite and_then_returned, Hcommand.
  destruct (is_str command "control") eqn:Hc.
  - destruct (Hcontrol eq_refl) as (content & Hcontent & Hclose).
    by rewrite and_then_returned, Hcontent, Hclose.
  - by rewrite Hreload.
Qed.

(** Bytes that are no JSON document count as a control message, and are
    not understood. *)
Lemma not_json_not_understood raw_data :
  json_loads (bytes_strip raw_data) = None → not_understood raw_data.
Proof.
  intros Hloads. unfold not_understood, unwrap_message. rewrite Hloads.
  exists (JString "control"). split; [done|]. split; [done|].
  split; [done|]. intros _. by exists (JString "error").
Qed.

Lemma control_is_not_translate command :
  is_str command "control" = true → is_str command "translate" = false.
Proof.
  destruct command; try done. simpl.
  by intros ->%bool_decide_eq_true.
Qed.

(** A request to close. *)
Lemma try_block_asks_to_close h raw_data :
  recv_data (received h) = Some raw_data →
  asks_to_close raw_data →
  try_block h = (has_received h, Value break).
Proof.
  intros Hrecv (command & content & Hcommand & Hcontrol & Hcontent & Hclose).
  unfold try_block.
  rewrite (and_then_value _ _ _ _ _ (recv_run _ _ Hrecv)).
  rewrite (and_then_value _ _ _ _ _
             (preprocess_raw_message _ _ _ Hcommand
                (control_is_not_translate _ Hcontrol))).
  rewrite and_then_returned, Hcommand, Hcontrol.
  by rewrite and_then_returned, Hcontent, Hclose.
Qed.

(** *** What any run of the [try] block does *)

(** The [try] block calls [recv] once.  It leaves the loop only on a
    request to close, and then sends nothing; it goes on to the next
    iteration only after sending its response; and it raises before it sends
    anything, or because the response could not be sent. *)
Lemma try_block_spec h h' o :
  try_block h = (h', o) →
  received h' = S (received h) ∧
  match o with
  | Value next_iteration =>
      ∃ data, attempts h' = attempts h ++ [data] ∧ response h' = Some data
  | Value break =>
      h' = has_received h ∧
      ∃ raw_data, recv_data (received h) = Some raw_data ∧
                  asks_to_close raw_data
  | Exception _ =>
      attempts h' = attempts h ∨ ∃ data, attempts h' = attempts h ++ [data]
  | Hang => attempts h' = attempts h
  end.
Proof.
  assert (∀ (h1 : handler experiment_spec) h' o,
            received h1 = S (received h) → attempts h1 = attempts h →
            send_response h1 = (h', o) →
            received h' = S (received h) ∧
            match o with
            | Value next_iteration =>
                ∃ data, attempts h' = attempts h ++ [data] ∧
                        response h' = Some data
            | Value break => False
            | Exception _ =>
                attempts h' = attempts h ∨
                ∃ data, attempts h' = attempts h ++ [data]
            | Hang => False
            end) as Hsend.
  { intros h1 h2 o2 Hreceived Hattempts. rewrite send_response_run.
    destruct (response h1) as [data|] eqn:Hresponse.
    - destruct (send_ok _); intros [= <- <-]; simpl; rewrite Hattempts;
        (split; [done|]); eauto.
    - intros [= <- <-]. split; [done|]. by left. }
  assert (∀ (h1 : handler experiment_spec) data h' o,
            received h1 = S (received h) → attempts h1 = attempts h →
            and_then (set_response data) (λ _, send_response) h1 = (h', o) →
            received h' = S (received h) ∧
            match o with
            | Value next_iteration =>
                ∃ data, attempts h' = attempts h ++ [data] ∧
                        response h' = Some data
            | Value break => False
            | Exception _ =>
                attempts h' = attempts h ∨
                ∃ data, attempts h' = attempts h ++ [data]
            | Hang => False
            end) as Hset.
  { intros h1 data h2 o2 Hreceived Hattempts. rewrite set_and_send_run.
    destruct (send_ok _); intros [= <- <-]; simpl; rewrite Hattempts;
      (split; [done|]); eauto. }
  unfold try_block. unfold and_then at 1. unfold recv at 1.
  destruct (recv_data (received h)) as [raw_data|] eqn:Hrecv;
    [|intros [= <- <-]; split; [done|by left]].
  fold (has_received h). unfold and_then at 1.
  destruct (preprocess_raw (bytes_strip raw_data) (has_received h))
    as [h1 o1] eqn:Hpre.
  pose proof (preprocess_raw_state _ _ _ _ Hpre) as ->.
  destruct o1 as [[content|msg]|e|];
    [| |intros [= <- <-]; split; [done|by left]|by intros [= <- <-]].
  - (* a request to translate *)
    unfold and_then at 1.
    destruct (translate_each (each_of content) [] [] (has_received h))
      as [h1 o1] eqn:Heach.
    destruct (translate_each_state _ _ _ _ _ _ Heach)
      as (Hreceived & Hattempts & _).
    destruct o1 as [translated|e|];
      [|intros [= <- <-]; split; [done|by left]|by intros [= <- <-]].
    unfold and_then at 1. unfold gets at 1. intros Hrun.
    apply Hset in Hrun as [? Ho]; [|done..].
    split; [done|]. by destruct o as [[]| |].
  - (* any other message *)
    rewrite and_then_returned.
    destruct (getitem msg "command") as [command|e|] eqn:Hcommand;
      [|intros [= <- <-]; split; [done|by left]|by intros [= <- <-]].
    destruct (is_str command "control") eqn:Hcontrol.
    + rewrite and_then_returned.
      destruct (getitem msg "content") as [content|e|] eqn:Hcontent;
        [|intros [= <- <-]; split; [done|by left]|by intros [= <- <-]].
      destruct (is_str content "close") eqn:Hclose.
      * intros [= <- <-]. split; [done|]. split; [done|].
        exists raw_data. split; [done|].
        unfold preprocess_raw in Hpre. rewrite and_then_returned in Hpre.
        destruct (getitem (unwrap_message (bytes_strip raw_data)) "command")
          as [command'|e|] eqn:Hcommand'; [|done..].
        destruct (is_str command' "translate").
        { rewrite and_then_returned in Hpre.
          destruct (getitem (unwrap_message (bytes_strip raw_data)) "content")
            as [content'|e|]; [|done..].
          rewrite and_then_returned in Hpre.
          destruct content'; try done.
          unfold and_then at 1, gets at 1 in Hpre.
          rewrite and_then_returned in Hpre.
          destruct (of_result _) in Hpre; [|done..].
          rewrite and_then_returned in Hpre.
          by destruct (of_result _) in Hpre. }
        injection Hpre as <-.
        by exists command, content.
      * intros Hrun. apply Hsend in Hrun as [? Ho]; [|done..].
        split; [done|]. by destruct o as [[]| |].
    + destruct (is_str command "reload").
      * rewrite and_then_returned.
        destruct (getitem msg "content") as [new_model_dirs|e|];
          [|intros [= <- <-]; split; [done|by left]|by intros [= <- <-]].
        unfold and_then at 1. unfold call_reload_model at 1.
        destruct (reload_model _ _) as [spec [|]];
          [|intros [= <- <-]; split; [done|by left]].
        unfold and_then at 1. unfold gets at 1. intros Hrun.
        apply Hset in Hrun as [? Ho]; [|done..].
        split; [done|]. by destruct o as [[]| |].
      * intros Hrun. apply Hsend in Hrun as [? Ho]; [|done..].
        split; [done|]. by destruct o as [[]| |].
Qed.

(** One iteration calls [recv] once.  It goes on to the next with the last
    thing it sent as its response; it leaves the loop on a request to
    close, having sent nothing, or when the reply of the [except] clause
    could not be sent; and no exception gets out of it. *)
Lemma iteration_spec h h' o :
  iteration h = (h', o) →
  received h' = S (received h) ∧
  match o with
  | Value next_iteration =>
      ∃ sent data, attempts h' = sent ++ [data] ∧ response h' = Some data
  | Value break =>
      (h' = has_received h ∧
       ∃ raw_data, recv_data (received h) = Some raw_data ∧
                   asks_to_close raw_data) ∨
      (∃ sent, attempts h' = sent ++ [error_reply] ∧
               send_ok (length sent) = false)
  | Exception _ => False
  | Hang => True
  end.
Proof.
  destruct (try_block h) as [h1 o1] eqn:Htry.
  destruct (try_block_spec _ _ _ Htry) as [Hreceived Ho1].
  destruct o1 as [f|e|].
  - rewrite (iteration_value _ _ _ Htry). intros [= <- <-].
    split; [done|]. destruct f.
    + destruct Ho1 as (data & ? & ?). by exists (attempts h), data.
    + by left.
  - rewrite (iteration_exception _ _ _ Htry). unfold answer_error.
    destruct (send_ok (length (attempts h1))) eqn:Hsend;
      intros [= <- <-]; simpl; (split; [done|]).
    + by exists (attempts h1), error_reply.
    + right. by exists (attempts h1).
  - rewrite (iteration_hang _ _ Htry). by intros [= <- <-].
Qed.

(** The local variable [response] holds the last thing that was passed to
    [sendall], from the first iteration on. *)
Lemma response_is_last_sent n h0 h :
  response h0 = last (attempts h0) →
  iterations n h0 = Some h →
  response h = last (attempts h).
Proof.
  revert h0. induction n as [|n IH]; intros h0 Hlast; simpl.
  { by intros [= <-]. }
  destruct (iteration h0) as [h1 [[]| |]] eqn:Hiteration; try done.
  apply IH.
  destruct (iteration_spec _ _ _ Hiteration) as (_ & sent & data & -> & ->).
  by rewrite last_snoc.
Qed.

Lemma handle_iterations n fuel h h1 :
  iterations n h = Some h1 → handle (n + fuel) h = handle fuel h1.
Proof.
  revert h. induction n as [|n IH]; intros h; simpl.
  { by intros [= <-]. }
  destruct (iteration h) as [h2 [[]| |]]; try done. apply IH.
Qed.

(** *** A request that is not understood *)

(** X15: When the request is not understood — bytes that are no JSON document,
    or a message whose command [handle] does not act upon — the handler
    sends once more the last thing it sent or tried to send, whatever
    request that answered; it sends the error reply only if it has sent
    nothing on this connection yet, or if the repeated reply cannot be
    sent. *)
Theorem request_not_understood_repeats_last_reply n spec h raw_data :
  iterations n (connected spec) = Some h →
  recv_data (received h) = Some raw_data →
  json_loads (bytes_strip raw_data) = None ∨ not_understood raw_data →
  iteration h
  = match last (attempts h) with
    | Some previous => answer_with previous (has_received h)
    | None => answer_error (has_received h)
    end.
Proof.
  intros Hserving Hrecv Hraw.
  assert (not_understood raw_data) as Hnot.
  { destruct Hraw as [Hloads|]; [|done].
    by apply not_json_not_understood. }
  pose proof (response_is_last_sent n (connected spec) h eq_refl Hserving)
    as Hresponse.
  pose proof (try_block_not_understood _ _ Hrecv Hnot) as Htry.
  rewrite send_response_run in Htry. simpl in Htry.
  rewrite Hresponse in Htry.
  destruct (last (attempts h)) as [previous|].
  - unfold answer_with. simpl.
    destruct (send_ok (length (attempts h))) eqn:Hsend.
    + by rewrite (iteration_value _ _ _ Htry).
    + rewrite (iteration_exception _ _ _ Htry). unfold answer_error. simpl.
      rewrite <-app_assoc, length_app, Nat.add_1_r. done.
  - by rewrite (iteration_exception _ _ _ Htry).
Qed.

(** *** The end of the connection *)

(** X17: [handle] lets no exception out, and it returns only for one of two
    reasons: the last request it received asked to close the connection, or
    the last thing it tried to send was the error reply of the [except]
    clause and that could not be sent.  A request that fails — in decoding,
    in batching or in the model — never ends it. *)
Theorem handle_ends_on_close_or_lost_connection fuel h h' o :
  handle fuel h = (h', o) →
  match o with
  | Value _ =>
      (∃ k raw_data, received h' = S k ∧ recv_data k = Some raw_data ∧
                     asks_to_close raw_data) ∨
      (∃ sent, attempts h' = sent ++ [error_reply] ∧
               send_ok (length sent) = false)
  | Exception _ => False
  | Hang => True
  end.
Proof.
  revert h. induction fuel as [|fuel IH]; intros h; simpl.
  { by intros [= <- <-]. }
  destruct (iteration h) as [h1 o1] eqn:Hiteration.
  destruct (iteration_spec _ _ _ Hiteration) as [Hreceived Ho1].
  destruct o1 as [[]|e|]; [by apply IH| |done|by intros [= <- <-]].
  intros [= <- <-].
  destruct Ho1 as [(-> & raw_data & Hrecv & Hclose)|Hlost]; [|by right].
  left. by exists (received h), raw_data.
Qed.

(** X18: A request to close the connection ends [handle] at once, whatever came
    before it: nothing is sent in reply, and the experiment is left as it
    is. *)
Theorem request_to_close_ends_the_handler n fuel h h1 raw_data :
  iterations n h = Some h1 →
  recv_data (received h1) = Some raw_data →
  asks_to_close raw_data →
  (n < fuel)%nat →
  handle fuel h = (has_received h1, Value ()).
Proof.
  intros Hserving Hrecv Hclose Hfuel.
  replace fuel with (n + S (fuel - S n))%nat by lia.
  rewrite (handle_iterations _ _ _ _ Hserving). simpl.
  by rewrite (iteration_value _ _ _ (try_block_asks_to_close _ _ Hrecv Hclose)).
Qed.

(** *** The client's way of closing *)

(** X16: The message [NJUNMTClient.close] sends carries its word under the key
    ["data"], where [handle] looks under ["content"]: it is no request to
    close.  The handler answers it with the error reply and stays in its
    loop, unless that reply cannot be sent. *)
Theorem client_close_gets_the_error_reply h :
  recv_data (received h) = Some translate_client.close →
  json_loads (bytes_strip translate_client.close)
  = Some (JObject translate_client.close_args) →
  ¬ asks_to_close translate_client.close ∧
  iteration h = answer_error (has_received h).
Proof.
  intros Hrecv Hloads.
  assert (unwrap_message (bytes_strip translate_client.close)
          = JObject translate_client.close_args) as Hmsg.
  { unfold unwrap_message. by rewrite Hloads. }
  assert (getitem (JObject translate_client.close_args) "command"
          = Value (JString "control")) as Hcommand.
  { by vm_compute. }
  assert (getitem (JObject translate_client.close_args) "content"
          = Exception (Builtin KeyError)) as Hcontent.
  { by vm_compute. }
  split.
  - intros (command & content & _ & _ & Hc & _).
    rewrite Hmsg, Hcontent in Hc. done.
  - apply iteration_exception with (Builtin KeyError). unfold try_block.
    rewrite (and_then_value _ _ _ _ _ (recv_run _ _ Hrecv)).
    rewrite <-Hmsg in Hcommand, Hcontent.
    rewrite (and_then_value _ _ _ _ _
               (preprocess_raw_message _ _ _ Hcommand eq_refl)).
    rewrite and_then_returned, Hcommand. simpl.
    by rewrite and_then_returned, Hcontent.
Qed.

(** *** A request to translate *)

Section translate.
Context (h : handler experiment_spec) (raw_data : bytes) (s : string).
Hypothesis Hrecv : recv_data (received h) = Some raw_data.
Hypothesis Htranslate : asks_to_translate raw_data s.
Hypothesis Hdevices : (1 ≤ length (input_fields (experiment h)))%nat.
Hypothesis Hplaceholders :
  Forall (has_placeholders FEATURE_NAME_PREFIX)
         (input_fields (experiment h)).

(** [preprocess_raw] up to the construction of the inputter. *)
Lemma preprocess_raw_translate :
  preprocess_raw (bytes_strip raw_data) (has_received h)
  = and_then
      (returned (of_result
         (TextLineInputter.__init__ (inr [reader_of (experiment h) s])
            (pad_id (experiment h)) (batch_size (experiment h)))))
      (λ text_inputter,
         and_then
           (returned (of_result
              (TextLineInputter.make_feeding_data
                 (input_fields (experiment h)) FEATURE_NAME_PREFIX
                 text_inputter).2))
           (λ feeding_data, pure (Translate feeding_data)))
      (has_received h).
Proof.
  destruct Htranslate as (command & Hcommand & His & Hcontent).
  unfold preprocess_raw.
  rewrite and_then_returned, Hcommand, His.
  rewrite and_then_returned, Hcontent.
  by rewrite and_then_returned.
Qed.

(** X19: A request to translate a text, on device slots that hold the
    placeholders and with a batch size of at least one, is answered from
    one call of [infer], which is handed all the batches of the request at
    once: the batches hold, end to end and in order, the lines of the text
    as the reader encodes them.  The reply carries what [infer] returned,
    joined by line feeds; if [infer] raises, the reply is the error
    reply. *)
Theorem translate_request_is_one_call_of_infer (n : nat) :
  batch_size (experiment h) = Some (Z.of_nat n) →
  (1 ≤ n)%nat →
  ∃ data,
    gives_back FEATURE_NAME_PREFIX (reader_of (experiment h) s) data ∧
    iteration h
    = let '(spec, r) := infer (experiment h) (inr data) in
      let h1 := mk (S (received h)) (attempts h) (response h) spec in
      match r with
      | Some translated => answer_with (translation_reply spec translated) h1
      | None => answer_error h1
      end.
Proof.
  intros Hsize Hpositive.
  destruct (make_feeding_data_from_run
              (TextLineInputter.mk (inr [reader_of (experiment h) s])
                 (Z.of_nat n) (pad_id (experiment h)))
              (input_fields (experiment h)) FEATURE_NAME_PREFIX n eq_refl
              Hpositive Hdevices Hplaceholders
              (reader_of (experiment h) s))
    as (reader' & data & Hfrom & _ & Hgives).
  exists data. split; [done|].
  assert (preprocess_raw (bytes_strip raw_data) (has_received h)
          = (has_received h, Value (Translate (inr [data])))) as Hpre.
  { rewrite preprocess_raw_translate, Hsize. simpl.
    rewrite and_then_returned. simpl.
    unfold TextLineInputter.make_feeding_data. simpl.
    by rewrite Hfrom. }
  destruct (infer (experiment h) (inr data)) as [spec r] eqn:Hinfer.
  assert (try_block h
          = match r with
            | Some translated =>
                and_then (set_response (translation_reply spec translated))
                  (λ _, send_response)
                  (mk (S (received h)) (attempts h) (response h) spec)
            | None =>
                (mk (S (received h)) (attempts h) (response h) spec,
                 Exception Foreign)
            end) as Htry.
  { unfold try_block.
    rewrite (and_then_value _ _ _ _ _ (recv_run _ _ Hrecv)).
    rewrite (and_then_value _ _ _ _ _ Hpre). simpl.
    unfold and_then at 1. unfold and_then at 1.
    unfold call_infer. simpl. rewrite Hinfer.
    by destruct r. }
  destruct r as [translated|].
  - rewrite set_and_send_run in Htry. simpl in Htry.
    unfold answer_with. simpl.
    destruct (send_ok (length (attempts h))).
    + by rewrite (iteration_value _ _ _ Htry).
    + rewrite (iteration_exception _ _ _ Htry). unfold answer_error. simpl.
      by rewrite <-app_assoc, length_app, Nat.add_1_r.
  - by rewrite (iteration_exception _ _ _ Htry).
Qed.

(** X20: With a batch size that is not positive, a request to translate a text
    with a line the reader can encode is never answered: the batching loop
    of the inputter does not finish, the [except] clause does not come into
    play, and [handle] neither sends anything nor reads another request. *)
Theorem translate_request_hangs_on_batch_size_not_positive (n : Z) :
  batch_size (experiment h) = Some n →
  n ≤ 0 →
  omap id (LineReader.remaining (reader_of (experiment h) s)) ≠ [] →
  ∀ fuel, handle (S fuel) h = (has_received h, Hang).
Proof.
  intros Hsize Hn Hlines fuel.
  set (reader := reader_of (experiment h) s) in *.
  set (this := TextLineInputter.mk (inr [reader]) n (pad_id (experiment h))).
  assert (∃ reader',
            TextLineInputter._make_feeding_data_from this
              (input_fields (experiment h)) FEATURE_NAME_PREFIX reader
            = (reader', Raise Diverge)) as [reader' Hfrom].
  { unfold TextLineInputter._make_feeding_data_from. rewrite bind_get.
    destruct (TextLineInputter_read_loop_run
                (S (length (LineReader.remaining reader))) reader [])
      as (r1 & Hread & _); [lia|].
    rewrite (bind_run _ _ _ _ _ Hread). simpl.
    unfold bind, LineReader.close, lift. simpl.
    rewrite TextLineInputter_batch_loop_stuck; [by eexists|done| |done..].
    destruct (omap id (LineReader.remaining reader)); [done|]. simpl. lia. }
  assert (preprocess_raw (bytes_strip raw_data) (has_received h)
          = (has_received h, Hang)) as Hpre.
  { rewrite preprocess_raw_translate, Hsize. simpl.
    rewrite and_then_returned. simpl.
    unfold TextLineInputter.make_feeding_data. simpl.
    fold reader. fold this. by rewrite Hfrom. }
  simpl. rewrite (iteration_hang h (has_received h)); [done|].
  unfold try_block.
  rewrite (and_then_value _ _ _ _ _ (recv_run _ _ Hrecv)).
  by rewrite (and_then_hang _ _ _ _ Hpre).
Qed.
End translate.
End handler_properties.

Lemma request_not_understood_repeats_last_reply_witness :
  let world := example_world (Some 2) ["translate ab"; "ping"] [] in
  ∃ h, translate_server.iterations 1 (translate_server.connected 0%nat)
       = Some h ∧
       translate_server.attempts h = ["success: <2>"] ∧
       translate_server.iteration h
       = (translate_server.mk 2 ["success: <2>"; "success: <2>"]
            (Some "success: <2>") 0%nat,
          translate_server.Value translate_server.next_iteration).
Proof.
  intros world.
  eexists. split; [vm_compute; reflexivity|]. split; [reflexivity|].
  rewrite (request_not_understood_repeats_last_reply (world := world)
             1 0%nat _ "ping").
  - reflexivity.
  - vm_compute; reflexivity.
  - reflexivity.
  - right. exists (translate_server.JString "ping").
    split; [vm_compute; reflexivity|]. split; [reflexivity|].
    split; [reflexivity|]. intros Hcontrol. vm_compute in Hcontrol. done.
Defined.

Lemma handle_ends_on_close_or_lost_connection_witness :
  let world := example_world (Some 2) ["ping"; "control close"] [] in
  ∃ h', translate_server.handle 5 (translate_server.connected 0%nat)
        = (h', translate_server.Value ()) ∧
        ((∃ k raw_data,
            translate_server.received h' = S k ∧
            translate_server.recv_data k = Some raw_data ∧
            translate_server.asks_to_close raw_data) ∨
         (∃ sent,
            translate_server.attempts h'
            = sent ++ [translate_server.error_reply] ∧
            translate_server.send_ok (length sent) = false)).
Proof.
  intros world.
  eexists. split; [vm_compute; reflexivity|].
  apply (handle_ends_on_close_or_lost_connection (world := world)
           5 (translate_server.connected 0%nat) _
           (translate_server.Value ())).
  vm_compute; reflexivity.
Defined.

Lemma request_to_close_ends_the_handler_witness :
  let world := example_world (Some 2) ["ping"; " control close "] [] in
  translate_server.handle 2 (translate_server.connected 0%nat)
  = (translate_server.mk 2 ["error"] (Some "error") 0%nat,
     translate_server.Value ()).
Proof.
  intros world.
  apply (request_to_close_ends_the_handler (world := world) 1 2
           (translate_server.connected 0%nat)
           (translate_server.mk 1 ["error"] (Some "error") 0%nat)
           " control close ").
  - vm_compute; reflexivity.
  - reflexivity.
  - exists (translate_server.JString "control"),
      (translate_server.JString "close").
    split; [vm_compute; reflexivity|]. split; [reflexivity|].
    split; [vm_compute; reflexivity|]. reflexivity.
  - lia.
Defined.

Lemma client_close_gets_the_error_reply_witness :
  let world := example_world (Some 2) ["control data=close"] [] in
  ¬ translate_server.asks_to_close translate_client.close ∧
  translate_server.iteration (translate_server.connected 0%nat)
  = (translate_server.mk 1 ["error"] (Some "error") 0%nat,
     translate_server.Value translate_server.next_iteration).
Proof.
  intros world.
  apply (client_close_gets_the_error_reply (world := world)
           (translate_server.connected 0%nat)).
  - vm_compute; reflexivity.
  - vm_compute; reflexivity.
Defined.

Lemma translate_request_is_one_call_of_infer_witness :
  let text := "ab" +:+ translate_server.newline +:+ "cde"
              +:+ translate_server.newline +:+ "f" in
  let reply := "success: <2>" +:+ translate_server.newline +:+ "<3>"
               +:+ translate_server.newline +:+ "<1>" in
  let world := example_world (Some 2) ["translate " +:+ text] [] in
  ∃ data,
    concat (ids_under "feature" <$> data) = [[2]; [3]; [1]] ∧
    translate_server.iteration (translate_server.connected 0%nat)
    = (translate_server.mk 1 [reply] (Some reply) 0%nat,
       translate_server.Value translate_server.next_iteration).
Proof.
  intros text reply world.
  assert (translate_server.asks_to_translate ("translate " +:+ text) text)
    as Htranslate.
  { exists (translate_server.JString "translate").
    split; [vm_compute; reflexivity|]. split; [reflexivity|].
    vm_compute; reflexivity. }
  assert (Forall (has_placeholders "feature") (example_slots 1))
    as Hplaceholders.
  { repeat constructor; by eexists. }
  destruct (translate_request_is_one_call_of_infer (world := world)
              (translate_server.connected 0%nat) ("translate " +:+ text)
              text eq_refl Htranslate (le_n 1) Hplaceholders 2 eq_refl)
    as (data & Hgives & Hiteration); [lia|].
  assert (concat (ids_under "feature" <$> data) = [[2]; [3]; [1]]) as Hdata.
  { etransitivity; [exact Hgives|]. vm_compute. reflexivity. }
  exists data. split; [done|].
  rewrite Hiteration. simpl. unfold example_infer.
  change Constants.FEATURE_NAME_PREFIX with "feature".
  unfold Sequence in *. rewrite Hdata.
  vm_compute. reflexivity.
Defined.

Lemma translate_request_hangs_on_batch_size_not_positive_witness :
  let world := example_world (Some 0) ["translate ab"] [] in
  translate_server.handle 3 (translate_server.connected 0%nat)
  = (translate_server.mk 1 [] None 0%nat, translate_server.Hang).
Proof.
  intros world.
  assert (translate_server.asks_to_translate "translate ab" "ab")
    as Htranslate.
  { exists (translate_server.JString "translate").
    split; [vm_compute; reflexivity|]. split; [reflexivity|].
    vm_compute; reflexivity. }
  assert (Forall (has_placeholders "feature") (example_slots 1))
    as Hplaceholders.
  { repeat constructor; by eexists. }
  apply (translate_request_hangs_on_batch_size_not_positive (world := world)
           (translate_server.connected 0%nat) "translate ab" "ab"
           eq_refl Htranslate (le_n 1) Hplaceholders 0 eq_refl).
  - lia.
  - vm_compute. done.
Defined.
